(** * Caption pipeline of the automatic video caption generator

    A shallow embedding of the transcription normalizers of the caption
    server ([processTranscription], [processWhisperTranscription],
    [processGeminiTranscription], [generateDemoCaptions]) and of the
    per-frame resolver of the Remotion composition ([activeCaptions],
    [currentWordData], [containsHindi]).

    Conventions of the embedding.
    - A JavaScript number is [NaN] or a rational: a finite double is a
      rational, and [Num q] stands for the double of value [q]. The
      arithmetic that synthesizes word timings (the uniform subdivision of
      a span, the pace of the demo captions) rounds every result to the
      nearest double ([fl], ties to even); comparisons, copies, products
      and sums of whole numbers and halves, and the other single
      operations are taken exactly. Infinities and signed zeros are
      idealised away.
    - A JavaScript string is its list of UTF-16 code units.
    - An object read by the code is a record whose fields are options:
      [None] is a property that is absent (reads as [undefined]).
    - A function that may raise returns [Res]; reading a property of
      [undefined] or calling a missing method is [Throws TypeError]. *)

From Stdlib Require Import QArith Qcanon NArith String Ascii.
From stdpp Require Import base numbers list.
From Stdlib Require Import Qround Qpower Lqa.

(** ** Results of code that may raise *)

Inductive Exn := TypeError | Error.

Inductive Res (A : Type) :=
  | Return (a : A)
  | Throws (e : Exn).
Arguments Return {A} a.
Arguments Throws {A} e.

#[global] Instance Res_ret : MRet Res := fun A a => Return a.

#[global] Instance Res_bind : MBind Res := fun A B k r =>
  match r with
  | Return a => k a
  | Throws e => Throws e
  end.

(** [Array.prototype.map] with a callback that may raise; the callback sees
    the element and its index, and the first exception aborts the map. *)
Fixpoint map_from {A B} (f : nat -> A -> Res B) (i : nat) (l : list A) : Res (list B) :=
  match l with
  | [] => Return []
  | x :: l' => y ← f i x; ys ← map_from f (S i) l'; Return (y :: ys)
  end.

Definition js_map {A B} (f : nat -> A -> Res B) (l : list A) : Res (list B) :=
  map_from f 0 l.

(** [Array.from({length: n}, (_, index) => f index)]. *)
Definition array_from {B} (n : nat) (f : nat -> Res B) : Res (list B) :=
  js_map (fun _ index => f index) (seq 0 n).

(** ** Numbers *)

Inductive jsnum :=
  | NaN
  | Num (q : Qc).

Definition of_nat (n : nat) : Qc := Q2Qc (inject_Z (Z.of_nat n)).
Definition of_Z (z : Z) : Qc := Q2Qc (inject_Z z).

(** ToNumber of a property that holds a number or is absent. *)
Definition to_number (v : option jsnum) : jsnum :=
  match v with
  | Some n => n
  | None => NaN
  end.

Definition js_add (a b : jsnum) : jsnum :=
  match a, b with
  | Num x, Num y => Num (x + y)%Qc
  | _, _ => NaN
  end.

Definition js_sub (a b : jsnum) : jsnum :=
  match a, b with
  | Num x, Num y => Num (x - y)%Qc
  | _, _ => NaN
  end.

Definition js_mul (a b : jsnum) : jsnum :=
  match a, b with
  | Num x, Num y => Num (x * y)%Qc
  | _, _ => NaN
  end.

Definition Qc_eqb (x y : Qc) : bool := Qeq_bool x y.
Definition Qc_leb (x y : Qc) : bool := Qle_bool x y.

(** Division. Every divisor in the modelled code is [1000] or the length of
    a non-empty array, so the quotient by zero (an infinity or NaN in
    JavaScript) is never taken; it is [NaN] here. *)
Definition js_div (a b : jsnum) : jsnum :=
  match a, b with
  | Num x, Num y => if Qc_eqb y 0%Qc then NaN else Num (x / y)%Qc
  | _, _ => NaN
  end.

(** [a <= b]: false as soon as one side is [NaN] or [undefined]. *)
Definition js_le (a b : option jsnum) : bool :=
  match a, b with
  | Some (Num x), Some (Num y) => Qc_leb x y
  | _, _ => false
  end.

Definition js_ge (a b : option jsnum) : bool := js_le b a.

(** ToBoolean on a number-valued property: [undefined], [NaN] and [0] are
    falsy. *)
Definition truthy_num (v : option jsnum) : bool :=
  match v with
  | Some (Num x) => negb (Qc_eqb x 0%Qc)
  | _ => false
  end.

(** [a || b] on number-valued operands. *)
Definition or_num (a b : option jsnum) : option jsnum :=
  if truthy_num a then a else b.

(** ** Double precision *)

(** [floor (log2 q)] for a positive rational. *)
Definition ilog2 (q : Q) : Z :=
  let l := (Z.log2 (Qnum q) - Z.log2 (Zpos (Qden q)))%Z in
  if Qle_bool (2 ^ l) q then l else (l - 1)%Z.

(** The exponent of the unit in the last place of the doubles around a
    positive [q]: 53 significant bits, and no unit below [2^-1074] (the
    subnormal range). *)
Definition ulp_exponent (q : Q) : Z := Z.max (ilog2 q - 52) (-1074).

(** The nearest integer, the even one of the two at a tie. *)
Definition round_half_even (x : Q) : Z :=
  let f := Qfloor x in
  match Qcompare (x - inject_Z f) (1 # 2) with
  | Lt => f
  | Gt => (f + 1)%Z
  | Eq => if Z.even f then f else (f + 1)%Z
  end.

Definition fl_pos (q : Q) : Q :=
  let e := ulp_exponent q in
  inject_Z (round_half_even (q / 2 ^ e)) * 2 ^ e.

Definition flQ (q : Q) : Q :=
  match Qcompare q 0 with
  | Eq => 0
  | Gt => fl_pos q
  | Lt => - fl_pos (- q)
  end.

(** The double nearest to [q], ties to even: the rounding of IEEE 754
    binary64 arithmetic. A result beyond the largest double, which
    JavaScript turns into an infinity, is outside the model: [fl] rounds
    as if the exponent had no upper limit. *)
Definition fl (q : Qc) : Qc := Q2Qc (flQ q).

Definition round (x : jsnum) : jsnum :=
  match x with
  | Num q => Num (fl q)
  | NaN => NaN
  end.

(** [a + b], [a - b], [a * b] and [a / b] on doubles. *)
Definition fl_add (a b : jsnum) : jsnum := round (js_add a b).
Definition fl_sub (a b : jsnum) : jsnum := round (js_sub a b).
Definition fl_mul (a b : jsnum) : jsnum := round (js_mul a b).
Definition fl_div (a b : jsnum) : jsnum := round (js_div a b).

(** ** Strings *)

Definition code_unit := N.
Definition jsstring := list code_unit.

(** An ASCII literal of the source as code units. *)
Definition lit (s : string) : jsstring :=
  map N_of_ascii (list_ascii_of_string s).

Definition space : code_unit := 32%N.

(** [s.split(' ')]: the pieces of [s] between occurrences of U+0020; there is
    always at least one piece. *)
Fixpoint split_space (s : jsstring) : list jsstring :=
  match s with
  | [] => [[]]
  | c :: s' =>
      if N.eqb c space then [] :: split_space s'
      else match split_space s' with
           | [] => [[c]]
           | piece :: pieces => (c :: piece) :: pieces
           end
  end.

(** WhiteSpace and LineTerminator code points of ECMAScript, the ones
    [String.prototype.trim] strips. *)
Definition is_js_space (c : code_unit) : bool :=
  ((9 <=? c) && (c <=? 13) || (c =? 32) || (c =? 160) || (c =? 5760)
   || (8192 <=? c) && (c <=? 8202) || (c =? 8232) || (c =? 8233)
   || (c =? 8239) || (c =? 8287) || (c =? 12288) || (c =? 65279))%N.

Fixpoint trim_start (s : jsstring) : jsstring :=
  match s with
  | [] => []
  | c :: s' => if is_js_space c then trim_start s' else s
  end.

Definition trim_end (s : jsstring) : jsstring := rev (trim_start (rev s)).

Definition trim (s : jsstring) : jsstring := trim_end (trim_start s).

(** [arr.join(' ')]: an [undefined] element contributes the empty string. *)
Fixpoint join_space (l : list (option jsstring)) : jsstring :=
  match l with
  | [] => []
  | [x] => default [] x
  | x :: l' => default [] x ++ space :: join_space l'
  end.

(** ToBoolean on a string-valued property: [undefined] and [''] are falsy. *)
Definition truthy_str (v : option jsstring) : bool :=
  match v with
  | Some (_ :: _) => true
  | _ => false
  end.

(** [a || b] on string-valued operands. *)
Definition or_str (a b : option jsstring) : option jsstring :=
  if truthy_str a then a else b.

(** [a || 'literal']. *)
Definition or_lit (a : option jsstring) (b : jsstring) : jsstring :=
  match a with
  | Some (c :: s) => c :: s
  | _ => b
  end.

(** ** Data model: the objects the code reads and builds *)

(** A word object [{ word, text, start, end }]. *)
Record Word := mkWord {
  w_word : option jsstring;
  w_text : option jsstring;
  w_start : option jsnum;
  w_end : option jsnum
}.

(** A caption object [{ id, start, end, text, words }]. *)
Record Cue := mkCue {
  c_id : nat;
  c_start : option jsnum;
  c_end : option jsnum;
  c_text : jsstring;
  c_words : option (list Word)
}.

(** A segment object of an upstream engine: [{ start, end, text, words }] in
    the cloud format, [{ offsets: { from, to }, text }] in the whisper.cpp
    format. *)
Record Offsets := mkOffsets {
  o_from : option jsnum;
  o_to : option jsnum
}.

Record Segment := mkSegment {
  s_start : option jsnum;
  s_end : option jsnum;
  s_text : option jsstring;
  s_words : option (list Word);
  s_offsets : option Offsets
}.

(** A raw transcription object [{ text, words, segments, transcription }]. *)
Record Transcription := mkTranscription {
  t_text : option jsstring;
  t_words : option (list Word);
  t_segments : option (list Segment);
  t_transcription : option (list Segment)
}.

(** What a normalizer is called with: [None] is [null] or [undefined]. *)
Definition Raw := option Transcription.

(** ** Transcription normalizers (server) *)

Definition no_captions : jsstring := lit "No captions available".

(** [x.p] where [x] may be [undefined]. *)
Definition deref {A} (x : option A) : Res A :=
  match x with
  | Some a => Return a
  | None => Throws TypeError
  end.

(** [!arr || arr.length === 0]. *)
Definition missing_or_empty {A} (arr : option (list A)) : bool :=
  match arr with
  | None => true
  | Some l => Nat.eqb (length l) 0
  end.

(** [arr.slice(from, to)]. *)
Definition slice {A} (arr : list A) (from to : nat) : list A :=
  take (to - from) (drop from arr).

(** [Math.ceil(n / d)] on array lengths. *)
Definition ceil_div (n d : nat) : nat := (n + (d - 1)) / d.

Definition wordsPerSegment : nat := 8.

Definition processTranscription (raw : Raw) : Res (list Cue) :=
  transcription ← deref raw;
  if missing_or_empty (t_words transcription) then
    Return [ {| c_id := 1;
                c_start := Some (Num 0%Qc);
                c_end := Some (Num (of_Z 5));
                c_text := or_lit (t_text transcription) no_captions;
                c_words := None |} ]
  else
    let words := default [] (t_words transcription) in
    array_from (ceil_div (length words) wordsPerSegment) (fun index =>
      let startIdx := index * wordsPerSegment in
      let segmentWords := slice words startIdx (startIdx + wordsPerSegment) in
      first ← deref (segmentWords !! 0);
      final ← deref (if Nat.eqb (length segmentWords) 0 then None
                     else segmentWords !! (length segmentWords - 1));
      Return {| c_id := index + 1;
                c_start := w_start first;
                c_end := w_end final;
                c_text := trim (join_space (map w_word segmentWords));
                c_words := Some segmentWords |}).

(** The timing lambda shared, textually, by the segment paths:
    [(word, wordIndex) => { wordDuration = (end - start) / n; ... }].
    The difference, the quotient, the products and the sums are rounded;
    [wordIndex + 1] is an array index and exact. *)
Definition spread_word (seg_start seg_end : option jsnum) (n : nat)
    (wordIndex : nat) (word : jsstring) : Word :=
  let wordDuration :=
    fl_div (fl_sub (to_number seg_end) (to_number seg_start)) (Num (of_nat n)) in
  {| w_word := Some word;
     w_text := None;
     w_start := Some (fl_add (to_number seg_start)
                             (fl_mul (Num (of_nat wordIndex)) wordDuration));
     w_end := Some (fl_add (to_number seg_start)
                           (fl_mul (js_add (Num (of_nat wordIndex)) (Num 1%Qc)) wordDuration)) |}.

Definition processGeminiTranscription (raw : Raw) : Res (list Cue) :=
  transcription ← deref raw;
  if missing_or_empty (t_segments transcription) then
    Return [ {| c_id := 1;
                c_start := Some (Num 0%Qc);
                c_end := Some (Num (of_Z 5));
                c_text := or_lit (t_text transcription) no_captions;
                c_words := None |} ]
  else
    js_map (fun index segment =>
      text ← deref (s_text segment);
      Return {| c_id := index + 1;
                c_start := s_start segment;
                c_end := s_end segment;
                c_text := text;
                c_words := Some (imap (spread_word (s_start segment) (s_end segment)
                                                   (length (split_space text)))
                                      (split_space text)) |})
      (default [] (t_segments transcription)).

(** [a || b] where [a] is a computed number. *)
Definition or_else (a b : jsnum) : jsnum :=
  if truthy_num (Some a) then a else b.

Definition half : Qc := Q2Qc (1 # 2).

Definition processWhisperTranscription (raw : Raw) : Res (list Cue) :=
  transcription ← deref raw;
  match t_transcription transcription with
  | Some segments =>
      (* whisper.cpp JSON output *)
      js_map (fun index segment =>
        let startTime :=
          or_else (fl_div (to_number (s_offsets segment ≫= o_from)) (Num (of_Z 1000)))
                  (Num 0%Qc) in
        let endTime :=
          or_else (fl_div (to_number (s_offsets segment ≫= o_to)) (Num (of_Z 1000)))
                  (fl_add startTime (Num (of_Z 3))) in
        let text := or_lit (trim <$> s_text segment) [] in
        let allWords :=
          List.filter (fun word => negb (Nat.eqb (length word) 0)) (split_space text) in
        let words :=
          imap (fun wordIndex word =>
            let segmentDuration := fl_sub endTime startTime in
            let wordDuration := fl_div segmentDuration (Num (of_nat (length allWords))) in
            let wordStartTime :=
              fl_add startTime (fl_mul (Num (of_nat wordIndex)) wordDuration) in
            {| w_word := Some word;
               w_text := None;
               w_start := Some wordStartTime;
               w_end := Some (fl_add wordStartTime wordDuration) |}) allWords in
        Return {| c_id := index + 1;
                  c_start := Some startTime;
                  c_end := Some endTime;
                  c_text := text;
                  c_words := Some words |}) segments
  | None =>
      if missing_or_empty (t_segments transcription) then
        let fullText := or_lit (t_text transcription) no_captions in
        Return [ {| c_id := 1;
                    c_start := Some (Num 0%Qc);
                    c_end := Some (Num (of_Z 5));
                    c_text := fullText;
                    c_words := Some (imap (fun index word =>
                      {| w_word := Some word;
                         w_text := None;
                         w_start := Some (Num (of_nat index * half)%Qc);
                         w_end := Some (Num ((of_nat index + 1) * half)%Qc) |})
                      (split_space fullText)) |} ]
      else
        (* standard segments; of the fields of the cue only [words] can
           raise *)
        js_map (fun index segment =>
          words ←
            match s_words segment with
            | Some segment_words =>
                Return (map (fun word =>
                  {| w_word := or_str (w_word word) (w_text word);
                     w_text := None;
                     w_start := or_num (w_start word) (s_start segment);
                     w_end := or_num (w_end word)
                                (Some (js_add (to_number (w_start word)) (Num half))) |})
                  segment_words)
            | None =>
                text ← deref (s_text segment);
                Return (imap (spread_word (s_start segment) (s_end segment)
                                          (length (split_space text)))
                             (split_space text))
            end;
          Return {| c_id := index + 1;
                    c_start := or_num (s_start segment) (Some (Num 0%Qc));
                    c_end := or_num (s_end segment)
                               (Some (js_add (to_number (s_start segment)) (Num (of_Z 3))));
                    c_text := or_lit (s_text segment) [];
                    c_words := Some words |})
          (default [] (t_segments transcription))
  end.

(** The six demo texts; the second and the fourth hold Devanagari and are
    given by their code units. *)
Definition demoTexts : list jsstring :=
  [ lit "Welcome to this amazing video demonstration";
    [2351; 2361; 32; 2319; 2325; 32; 2348; 2375; 2361; 2340; 2352; 2368; 2344; 32;
     2357; 2368; 2337; 2367; 2351; 2379; 32; 2325; 2366; 32; 2313; 2342; 2366; 2361;
     2352; 2339; 32; 2361; 2376]%N;
    lit "This shows how captions work perfectly";
    [77; 117; 108; 116; 105; 112; 108; 101; 32; 115; 116; 121; 108; 101; 115; 32;
     2324; 2352; 32; 101; 102; 102; 101; 99; 116; 115; 32; 2325; 2375; 32; 2360;
     2366; 2341]%N;
    lit "Beautiful typography and smooth animations";
    lit "Perfect for all your video needs" ].

(** The double [0.4]. *)
Definition two_fifths : Qc := fl (Q2Qc (2 # 5)).

Definition generateDemoCaptions : list Cue :=
  imap (fun index text =>
    {| c_id := index + 1;
       c_start := Some (Num (of_nat index * of_Z 3)%Qc);
       c_end := Some (Num ((of_nat index + 1) * of_Z 3)%Qc);
       c_text := text;
       c_words := Some (imap (fun wordIndex word =>
         {| w_word := Some word;
            w_text := None;
            w_start := Some (Num (fl (of_nat index * of_Z 3
                                      + fl (of_nat wordIndex * two_fifths))));
            w_end := Some (Num (fl (of_nat index * of_Z 3
                                    + fl ((of_nat wordIndex + 1) * two_fifths)))) |})
         (split_space text)) |}) demoTexts.

(** ** Timeline resolver (Remotion composition [CaptionedVideo]) *)

(** [captions.filter(caption => currentTime >= caption.start &&
    currentTime <= caption.end)]. *)
Definition activeCaptions (captions : list Cue) (currentTime : jsnum) : list Cue :=
  List.filter (fun caption =>
                 js_ge (Some currentTime) (c_start caption)
                 && js_le (Some currentTime) (c_end caption)) captions.

(** [{ ...currentWord, progress }]. *)
Record WordData := mkWordData {
  wd_word : Word;
  wd_progress : jsnum
}.

Definition karaoke : jsstring := lit "karaoke".

Section CurrentWord.

(** [interpolate(t, [a, b], [0, 1], { extrapolateLeft: 'clamp',
    extrapolateRight: 'clamp' })] of the remotion package, which is not
    part of the repository: whatever it does, raising included. *)
Variable interpolate : jsnum -> option jsnum -> option jsnum -> Res jsnum.

Definition currentWordData (style : option jsstring) (actives : list Cue)
    (currentTime : jsnum) : Res (option WordData) :=
  if negb (bool_decide (style = Some karaoke)) || Nat.eqb (length actives) 0 then
    Return None
  else
    activeCaption ← deref (actives !! 0);
    match c_words activeCaption with
    | None => Return None
    | Some words =>
        match List.find (fun word =>
                           js_ge (Some currentTime) (w_start word)
                           && js_le (Some currentTime) (w_end word)) words with
        | Some currentWord =>
            progress ← interpolate currentTime (w_start currentWord) (w_end currentWord);
            Return (Some {| wd_word := currentWord; wd_progress := progress |})
        | None => Return None
        end
    end.

End CurrentWord.

Definition clamp (x lo hi : Qc) : Qc :=
  if Qc_leb x lo then lo else if Qc_leb hi x then hi else x.

(** Modelled from the spec: the body of remotion's [interpolate], imported
    by [CaptionedVideo] and absent from the repository. Section 4.3 of the
    specification gives the progress fraction as
    [clamp((t - start) / (end - start), 0, 1)], and as [1] when
    [start == end]. *)
Definition interpolate_spec (t : jsnum) (a b : option jsnum) : Res jsnum :=
  match t, a, b with
  | Num t, Some (Num s), Some (Num e) =>
      Return (Num (if Qc_eqb s e then 1%Qc
                   else clamp ((t - s) / (e - s))%Qc 0%Qc 1%Qc))
  | _, _, _ => Return NaN
  end.

(** ** Script classifier ([CaptionRenderer]) *)

(** The character class of code units 0x0900 to 0x097F. *)
Definition in_devanagari (c : N) : bool := ((0x0900 <=? c) && (c <=? 0x097F))%N.

(** [devanagariRegex.test(caption.text)]: without the [u] flag the class
    is matched against code units. *)
Definition containsHindi (text : jsstring) : bool := existsb in_devanagari text.

Inductive FontFamily := hinglish | english.

Definition fontFamily (text : jsstring) : FontFamily :=
  if containsHindi text then hinglish else english.

(** The code points of a string: a high surrogate followed by a low one is
    one supplementary code point, any other unit stands for itself. *)
Definition is_high (c : N) : bool := ((0xD800 <=? c) && (c <=? 0xDBFF))%N.
Definition is_low (c : N) : bool := ((0xDC00 <=? c) && (c <=? 0xDFFF))%N.

Fixpoint code_points (s : jsstring) : list N :=
  match s with
  | [] => []
  | hi :: rest =>
      match rest with
      | lo :: rest' =>
          if is_high hi && is_low lo
          then (0x10000 + (hi - 0xD800) * 0x400 + (lo - 0xDC00))%N :: code_points rest'
          else hi :: code_points rest
      | [] => [hi]
      end
  end.

(** ** More builtins: comparison, rounding, integers as strings *)

(** [a < b] and [a > b]: false as soon as one side is [NaN] or
    [undefined]. *)
Definition js_lt (a b : option jsnum) : bool :=
  match a, b with
  | Some (Num x), Some (Num y) => negb (Qc_leb y x)
  | _, _ => false
  end.

Definition js_gt (a b : option jsnum) : bool := js_lt b a.


Definition math_ceil (x : jsnum) : jsnum :=
  match x with
  | Num q => Num (of_Z (Qceiling q))
  | NaN => NaN
  end.

(** [Math.max(x, ...xs)] with at least one argument: [NaN] as soon as one
    argument is. Without arguments it is [-Infinity], which the number
    model does not have; the calls modelled here are guarded by
    [captions.length > 0]. *)
Definition js_max (a b : jsnum) : jsnum :=
  match a, b with
  | Num x, Num y => if Qc_leb x y then Num y else Num x
  | _, _ => NaN
  end.

Definition math_max (x : jsnum) (xs : list jsnum) : jsnum := fold_left js_max xs x.

Definition is_digit (c : code_unit) : bool := ((48 <=? c) && (c <=? 57))%N.

Fixpoint take_digits (s : jsstring) : jsstring :=
  match s with
  | c :: s' => if is_digit c then c :: take_digits s' else []
  | [] => []
  end.

Definition digits_value (s : jsstring) : Z :=
  fold_left (fun acc c => (10 * acc + (Z.of_N c - 48))%Z) s 0%Z.

(** [parseInt(s, 10)]: leading white space is skipped, one sign is read,
    then the longest run of decimal digits; without a digit the result is
    [NaN]. *)
Definition parseInt10 (s : jsstring) : jsnum :=
  let trimmed := trim_start s in
  let '(sign, rest) :=
    match trimmed with
    | c :: rest =>
        if (c =? 45)%N then ((-1)%Z, rest)
        else if (c =? 43)%N then (1%Z, rest)
        else (1%Z, trimmed)
    | [] => (1%Z, trimmed)
    end in
  match take_digits rest with
  | [] => NaN
  | digits => Num (of_Z (sign * digits_value digits))
  end.

(** The decimal digits of a natural number. *)
Fixpoint digits_of (fuel : nat) (n : N) : jsstring :=
  match fuel with
  | 0 => []
  | S fuel' =>
      if (n <? 10)%N then [(48 + n)%N]
      else digits_of fuel' (n / 10)%N ++ [(48 + n mod 10)%N]
  end.

Definition decimal (n : N) : jsstring := digits_of (S (N.to_nat (N.log2 n))) n.

(** The decimal notation of an integer: a minus sign when negative, then
    the digits. *)
Definition int_toString (z : Z) : jsstring :=
  if (z <? 0)%Z then 45%N :: decimal (Z.to_N (- z)) else decimal (Z.to_N z).

(** [x.toString()] for [NaN] and for integers below 10^21 in magnitude,
    which print in decimal notation. A fraction is printed from its double
    and a larger integer in exponent notation, both outside the model:
    [None]. *)
Definition number_toString (x : jsnum) : option jsstring :=
  match x with
  | NaN => Some (lit "NaN")
  | Num q =>
      if (Qden q =? 1)%positive && (Z.abs (Qnum q) <? 10 ^ 21)%Z
      then Some (int_toString (Qnum q))
      else None
  end.

(** [s.split(sep)] for a separator of one code unit. *)
Fixpoint split_char (sep : code_unit) (s : jsstring) : list jsstring :=
  match s with
  | [] => [[]]
  | c :: s' =>
      if N.eqb c sep then [] :: split_char sep s'
      else match split_char sep s' with
           | [] => [[c]]
           | piece :: pieces => (c :: piece) :: pieces
           end
  end.

Fixpoint strip_prefix (p s : jsstring) : option jsstring :=
  match p, s with
  | [], _ => Some s
  | a :: p', b :: s' => if N.eqb a b then strip_prefix p' s' else None
  | _ :: _, [] => None
  end.

(** [s.replace(/p/, '')] for a pattern [p] of literal characters: the first
    occurrence of [p] is removed. *)
Fixpoint remove_first (p s : jsstring) : jsstring :=
  match strip_prefix p s with
  | Some rest => rest
  | None =>
      match s with
      | [] => []
      | c :: s' => c :: remove_first p s'
      end
  end.

(** ** Serving an upload with range support (server, [GET /uploads/:filename]) *)

(** The branch the handler takes once the file is known to exist, up to
    the call of [fs.createReadStream]; header values are kept as the
    numbers interpolated into them. *)
Inductive RangeResponse :=
  | RangeNotSatisfiable (fileSize : N)
      (* 416, Content-Range: bytes */fileSize *)
  | PartialContent (start stop : jsnum) (fileSize : N) (chunksize : jsnum)
      (* the range passed the test; once createReadStream(filePath,
         { start, end }) has returned: 206, Content-Range: bytes
         start-stop/fileSize, Content-Length: chunksize *)
  | FullContent (fileSize : N).
      (* Content-Length: fileSize, body: the whole file *)

Definition num_of_N (n : N) : jsnum := Num (of_Z (Z.of_N n)).

Definition serveUpload (range : option jsstring) (fileSize : N) : RangeResponse :=
  if truthy_str range then
    let parts := split_char 45%N (remove_first (lit "bytes=") (default [] range)) in
    let start := parseInt10 (default [] (parts !! 0)) in
    let stop :=
      if truthy_str (parts !! 1) then parseInt10 (default [] (parts !! 1))
      else js_sub (num_of_N fileSize) (Num 1%Qc) in
    if js_ge (Some start) (Some (num_of_N fileSize))
       || js_ge (Some stop) (Some (num_of_N fileSize))
       || js_gt (Some start) (Some stop)
    then RangeNotSatisfiable fileSize
    else
      let chunksize := js_add (js_sub stop start) (Num 1%Qc) in
      PartialContent start stop fileSize chunksize
  else FullContent fileSize.

(** The handler with its stream. [fs.createReadStream] belongs to Node and
    is a parameter: called with the range, or with none for the whole file,
    it may raise, and then so does the handler, before the status and the
    range headers are set. *)
Section Upload.

Variable createReadStream : option (jsnum * jsnum) -> Res unit.

Definition getUpload (range : option jsstring) (fileSize : N) : Res RangeResponse :=
  match serveUpload range fileSize with
  | RangeNotSatisfiable size => Return (RangeNotSatisfiable size)
  | PartialContent start stop size chunksize =>
      _ ← createReadStream (Some (start, stop));
      Return (PartialContent start stop size chunksize)
  | FullContent size =>
      _ ← createReadStream None;
      Return (FullContent size)
  end.

End Upload.

(** ** Caption generation route (server, [POST /api/generate-captions]) *)

(** [transcribeWithGemini], after the model has answered [text]:
    [parsed] is what [JSON.parse] makes of the cleaned answer, and an answer
    that does not parse becomes one segment of ten seconds. *)
Definition geminiTranscription (text : jsstring) (parsed : Res Raw) : Raw :=
  match parsed with
  | Return transcription => transcription
  | Throws _ =>
      Some {| t_text := Some text;
              t_words := None;
              t_segments := Some [ {| s_start := Some (Num 0%Qc);
                                      s_end := Some (Num (of_Z 10));
                                      s_text := Some text;
                                      s_words := None;
                                      s_offsets := None |} ];
              t_transcription := None |}
  end.

(** The [transcription] string of the response. *)
Inductive TranscriptionText :=
  | TextOf (text : option jsstring)
      (* transcription.text *)
  | DemoAfterGeminiError (e : Exn)
      (* 'Demo captions generated (Gemini API error: ' + error.message + ')' *)
  | DemoAfterWhisperError (e : Exn)
      (* 'Demo captions generated (Whisper.cpp error: ' + error.message + ')' *)
  | DemoForTesting.
      (* 'Demo captions generated (for testing purposes)' *)

Record CaptionsResponse := mkCaptionsResponse {
  r_captions : list Cue;
  r_transcription : TranscriptionText;
  r_method : jsstring
}.

(** The body of a [try] block: transcribe, normalize, read the text. *)
Definition transcribe_and_process (transcribe : Res Raw)
    (process : Raw -> Res (list Cue)) : Res (list Cue * option jsstring) :=
  transcription ← transcribe;
  captions ← process transcription;
  object ← deref transcription;
  Return (captions, t_text object).

Definition respond (captions : list Cue) (text : TranscriptionText) : CaptionsResponse :=
  {| r_captions := captions;
     r_transcription := text;
     r_method := if Nat.ltb 0 (length captions) then lit "demo" else lit "failed" |}.

(** The handler once the video file is known to exist. [genAI] tells
    whether the Gemini client was created; [gemini] and [whisper] are the
    outcomes of awaiting [transcribeWithGemini] and
    [transcribeWithWhisperCpp], used only on their branch. *)
Definition generateCaptions (method : jsstring) (genAI : bool)
    (gemini whisper : Res Raw) : CaptionsResponse :=
  if bool_decide (method = lit "gemini") && genAI then
    match transcribe_and_process gemini processGeminiTranscription with
    | Return (captions, text) => respond captions (TextOf text)
    | Throws error => respond generateDemoCaptions (DemoAfterGeminiError error)
    end
  else if bool_decide (method = lit "whisper") then
    match transcribe_and_process whisper processWhisperTranscription with
    | Return (captions, text) => respond captions (TextOf text)
    | Throws error => respond generateDemoCaptions (DemoAfterWhisperError error)
    end
  else respond generateDemoCaptions DemoForTesting.

(** ** Composition length and caption sequences (upload page, [CaptionedVideo]) *)

(** [Math.ceil(Math.max(...captions.map(c => c.end)) * 30)], inside
    [if (captions.length > 0)]: [None] when the block is skipped. *)
Definition durationInFrames (captions : list Cue) : option jsnum :=
  match map (fun c => to_number (c_end c)) captions with
  | [] => None
  | x :: xs => Some (math_ceil (js_mul (math_max x xs) (Num (of_Z 30))))
  end.

(** [getDuration] of the Remotion root: [stored] is the outcome of
    [localStorage.getItem('remotionDuration')]. *)
Definition getDuration (stored : Res (option jsstring)) : jsnum :=
  match stored with
  | Return storedDuration =>
      if truthy_str storedDuration then parseInt10 (default [] storedDuration)
      else Num (of_Z 540)
  | Throws _ => Num (of_Z 540)
  end.

(** [frame / fps], for the positive [fps] a composition has. *)
Definition currentTimeOf (frame : Z) (fps : Qc) : jsnum :=
  js_div (Num (of_Z frame)) (Num fps).



(** [durationInFrames] and [fps] of the [Player] of the captioning app. *)
Definition playerDurationInFrames : Z := 300.
Definition playerFps : Qc := of_Z 30.

(** ** Presets and karaoke text ([CaptionRenderer], the preset table of the apps) *)

(** [Object.keys(PRESET_STYLES)]. *)
Definition PRESET_KEYS : list jsstring :=
  [ lit "bottom-centered"; lit "top-bar"; lit "karaoke" ].

(** [Object.keys(PRESET_STYLES).includes(preset.style) ? preset.style :
    'bottom-centered']. *)
Definition presetKey (style : option jsstring) : jsstring :=
  match style with
  | Some s => if bool_decide (s ∈ PRESET_KEYS) then s else lit "bottom-centered"
  | None => lit "bottom-centered"
  end.

(** [PRESET_STYLES[presetKey].position]; the keys are those of
    [PRESET_KEYS]. *)
Definition stylePosition (key : jsstring) : option jsstring :=
  if bool_decide (key = lit "bottom-centered") then Some (lit "bottom")
  else if bool_decide (key = lit "top-bar") then Some (lit "top")
  else if bool_decide (key = lit "karaoke") then Some (lit "bottom")
  else None.

(** [CAPTION_PRESETS[selectedPreset].style] of the upload page and of the
    captioning app. *)
Definition CAPTION_PRESETS_style (selectedPreset : jsstring) : option jsstring :=
  if bool_decide (selectedPreset = lit "bottom-centered") then Some (lit "classic")
  else if bool_decide (selectedPreset = lit "top-bar") then Some (lit "bar")
  else if bool_decide (selectedPreset = lit "karaoke") then Some (lit "karaoke")
  else None.

(** What [renderKaraokeText] draws: the caption text in one span, or one
    span per word with its highlight flag. *)
Inductive KaraokeText :=
  | PlainText (text : jsstring)
  | WordSpans (spans : list (option jsstring * bool)).

(** [currentWordData && currentWordData.word === word.word]. *)
Definition isActive (currentWordData : option WordData) (word : Word) : bool :=
  match currentWordData with
  | Some data => bool_decide (w_word (wd_word data) = w_word word)
  | None => false
  end.

Definition renderKaraokeText (caption : Cue) (currentWordData : option WordData)
    : KaraokeText :=
  if missing_or_empty (c_words caption) then PlainText (c_text caption)
  else WordSpans (map (fun word => (w_word word, isActive currentWordData word))
                      (default [] (c_words caption))).

(** ** Notions used to state the properties *)

(** The instant [t] lies in the closed span from [a] to [b]: all three are
    numbers and [a <= t <= b]. *)
Definition within (t : jsnum) (a b : option jsnum) : Prop :=
  exists s e q, a = Some (Num s) /\ b = Some (Num e) /\ t = Num q
                /\ (s <= q)%Qc /\ (q <= e)%Qc.


(** Sample data: the rational [n/d], and a word object with numeric
    timings. *)
Definition ratio (n : Z) (d : positive) : jsnum := Num (Q2Qc (n # d)).

Definition timed_word (s : jsstring) (a b : jsnum) : Word :=
  {| w_word := Some s; w_text := None; w_start := Some a; w_end := Some b |}.

(** The [k]-th window of eight words of a word list. *)
Definition window (ws : list Word) (k : nat) : list Word :=
  take wordsPerSegment (drop (k * wordsPerSegment) ws).

(** The word lists of a transcript, one after the other. *)
Definition all_words (cues : list Cue) : list Word :=
  concat (map (fun c => default [] (c_words c)) cues).

(** Uniform subdivision in the words of the specification: the tokens of a
    text are its pieces between whitespace characters, empty pieces
    discarded; token [i] of [n] over the span from [start] to [stop] gets
    the interval from [start + i * (stop - start) / n] to
    [start + (i + 1) * (stop - start) / n]. *)
Fixpoint spec_split_whitespace (s : jsstring) : list jsstring :=
  match s with
  | [] => [[]]
  | c :: s' =>
      if is_js_space c then [] :: spec_split_whitespace s'
      else match spec_split_whitespace s' with
           | [] => [[c]]
           | piece :: pieces => (c :: piece) :: pieces
           end
  end.

Definition nonempty (tok : jsstring) : bool := negb (Nat.eqb (length tok) 0).

Definition spec_tokens (text : jsstring) : list jsstring :=
  List.filter nonempty (spec_split_whitespace text).

Definition spec_subdivide (start stop : Qc) (tokens : list jsstring) : list Word :=
  let n := of_nat (length tokens) in
  imap (fun i tok =>
          {| w_word := Some tok;
             w_text := None;
             w_start := Some (Num (start + of_nat i * (stop - start) / n)%Qc);
             w_end := Some (Num (start + (of_nat i + 1) * (stop - start) / n)%Qc) |})
       tokens.

(** The number is a double: rounding leaves it as it is. *)
Definition is_double (q : Qc) : Prop := fl q = q.

(** The double that the decimal [n/d] denotes in a program or in JSON. *)
Definition double (n : Z) (d : positive) : jsnum := Num (fl (Q2Qc (n # d))).

(** The subdivision as the segment paths compute it in double precision.
    The word duration [d] is the rounded quotient of the rounded
    difference; token [i] runs from [start + i * d] to
    [start + (i + 1) * d], each product and each sum rounded. *)
Definition word_duration (start stop : Qc) (n : nat) : Qc :=
  fl (fl (stop - start) / of_nat n).

Definition rounded_subdivide (start stop : Qc) (tokens : list jsstring) : list Word :=
  let d := word_duration start stop (length tokens) in
  imap (fun i tok =>
          {| w_word := Some tok;
             w_text := None;
             w_start := Some (Num (fl (start + fl (of_nat i * d))));
             w_end := Some (Num (fl (start + fl ((of_nat i + 1) * d)))) |})
       tokens.

(** The same on the whisper.cpp path, where a word ends one rounded
    duration after its own start. *)
Definition whisper_subdivide (start stop : Qc) (tokens : list jsstring) : list Word :=
  let d := word_duration start stop (length tokens) in
  imap (fun i tok =>
          let a := fl (start + fl (of_nat i * d)) in
          {| w_word := Some tok;
             w_text := None;
             w_start := Some (Num a);
             w_end := Some (Num (fl (a + d))) |})
       tokens.

(** Boolean equality tests on the data model, to evaluate equations
    between closed values. *)
Definition jsnum_eqb (a b : jsnum) : bool :=
  match a, b with
  | NaN, NaN => true
  | Num x, Num y => Qc_eqb x y
  | _, _ => false
  end.

Definition opt_eqb {A} (eqb : A -> A -> bool) (a b : option A) : bool :=
  match a, b with
  | Some x, Some y => eqb x y
  | None, None => true
  | _, _ => false
  end.

Fixpoint list_eqb {A} (eqb : A -> A -> bool) (l1 l2 : list A) : bool :=
  match l1, l2 with
  | [], [] => true
  | x :: l1', y :: l2' => eqb x y && list_eqb eqb l1' l2'
  | _, _ => false
  end.

Definition str_eqb : jsstring -> jsstring -> bool := list_eqb N.eqb.

Definition word_eqb (a b : Word) : bool :=
  opt_eqb str_eqb (w_word a) (w_word b)
  && opt_eqb str_eqb (w_text a) (w_text b)
  && opt_eqb jsnum_eqb (w_start a) (w_start b)
  && opt_eqb jsnum_eqb (w_end a) (w_end b).

Definition words_eqb : option (list Word) -> option (list Word) -> bool :=
  opt_eqb (list_eqb word_eqb).

Definition cue_eqb (a b : Cue) : bool :=
  Nat.eqb (c_id a) (c_id b)
  && opt_eqb jsnum_eqb (c_start a) (c_start b)
  && opt_eqb jsnum_eqb (c_end a) (c_end b)
  && str_eqb (c_text a) (c_text b)
  && words_eqb (c_words a) (c_words b).

(** * Properties *)

(** ** Comparisons and arithmetic on rationals *)

Lemma Qc_leb_le (x y : Qc) : Qc_leb x y = true <-> (x <= y)%Qc.
Proof. unfold Qc_leb, Qcle. apply Qle_bool_iff. Qed.

Lemma Qc_eqb_eq (x y : Qc) : Qc_eqb x y = true <-> x = y.
Proof.
  unfold Qc_eqb. rewrite Qeq_bool_iff. split.
  - apply Qc_is_canon.
  - intros ->. reflexivity.
Qed.

Lemma Qc_eqb_refl (x : Qc) : Qc_eqb x x = true.
Proof. now apply Qc_eqb_eq. Qed.

Lemma Qc_eqb_neq (x y : Qc) : Qc_eqb x y = false <-> x <> y.
Proof.
  rewrite <- Qc_eqb_eq. destruct (Qc_eqb x y); split; congruence.
Qed.

Lemma within_iff (t : jsnum) (a b : option jsnum) :
  js_ge (Some t) a && js_le (Some t) b = true <-> within t a b.
Proof.
  unfold within, js_ge, js_le. rewrite andb_true_iff. split.
  - intros [Ha Hb].
    destruct t as [|q]; [destruct a as [[|s]|]; discriminate|].
    destruct a as [[|s]|]; try discriminate.
    destruct b as [[|e]|]; try discriminate.
    exists s, e, q. rewrite <- !Qc_leb_le. auto.
  - intros (s & e & q & -> & -> & -> & Hs & He).
    rewrite !Qc_leb_le. auto.
Qed.


(** ** Mapping with callbacks that return *)

Lemma map_from_return {A B} (f : nat -> A -> Res B) (g : nat -> A -> B)
    (l : list A) (i : nat) :
  (forall k x, l !! k = Some x -> f (i + k) x = Return (g (i + k) x)) ->
  map_from f i l = Return (imap (fun k => g (i + k)) l).
Proof.
  revert i. induction l as [|x l IH]; intros i Hf; [reflexivity|].
  cbn [map_from]. rewrite <- (Nat.add_0_r i) at 1.
  rewrite (Hf 0 x eq_refl). cbn.
  rewrite (IH (S i)).
  - cbn. rewrite Nat.add_0_r. do 2 f_equal.
    apply imap_ext. intros k y _. cbn. f_equal. lia.
  - intros k y Hk. replace (S i + k) with (i + S k) by lia. now apply Hf.
Qed.

Lemma js_map_return {A B} (f : nat -> A -> Res B) (g : nat -> A -> B)
    (l : list A) :
  (forall k x, l !! k = Some x -> f k x = Return (g k x)) ->
  js_map f l = Return (imap g l).
Proof.
  intros Hf. unfold js_map. now rewrite (map_from_return f g l 0 Hf).
Qed.

Lemma array_from_return {B} (n : nat) (f : nat -> Res B) (g : nat -> B) :
  (forall k, k < n -> f k = Return (g k)) ->
  array_from n f = Return (map g (seq 0 n)).
Proof.
  intros Hf. unfold array_from.
  rewrite (js_map_return _ (fun _ index => g index)).
  - f_equal. clear Hf. generalize 0.
    induction n as [|n IH]; intros i; [reflexivity|].
    cbn. f_equal. apply IH.
  - intros k x Hk. apply Hf.
    apply lookup_seq in Hk. lia.
Qed.

(** ** Indices as rationals *)

Lemma of_nat_0 : of_nat 0 = 0%Qc.
Proof. apply Qc_is_canon. reflexivity. Qed.

Lemma of_nat_S (n : nat) : of_nat (S n) = (of_nat n + 1)%Qc.
Proof.
  apply Qc_is_canon. unfold of_nat. cbn [this Q2Qc Qcplus].
  rewrite !Qred_correct, Nat2Z.inj_succ. unfold Z.succ.
  now rewrite inject_Z_plus.
Qed.

Lemma of_nat_le (i j : nat) : i <= j -> (of_nat i <= of_nat j)%Qc.
Proof.
  intros Hij. unfold Qcle, of_nat. cbn [this Q2Qc].
  rewrite !Qred_correct, <- Zle_Qle. lia.
Qed.

Lemma of_nat_lt (i j : nat) : i < j -> (of_nat i < of_nat j)%Qc.
Proof.
  intros Hij. unfold Qclt, of_nat. cbn [this Q2Qc].
  rewrite !Qred_correct, <- Zlt_Qlt. lia.
Qed.

Lemma of_nat_pos (n : nat) : 0 < n -> (0 < of_nat n)%Qc.
Proof. intros Hn. rewrite <- of_nat_0. now apply of_nat_lt. Qed.

Lemma of_nat_neq_0 (n : nat) : 0 < n -> of_nat n <> 0%Qc.
Proof.
  intros Hn Heq. apply of_nat_pos in Hn. rewrite Heq in Hn.
  now apply Qclt_not_eq in Hn.
Qed.

Lemma of_nat_eqb_0 (n : nat) : 0 < n -> Qc_eqb (of_nat n) 0%Qc = false.
Proof. intros Hn. now apply Qc_eqb_neq, of_nat_neq_0. Qed.

(** ** Deciding equality of closed data *)

Lemma jsnum_eqb_eq (a b : jsnum) : jsnum_eqb a b = true -> a = b.
Proof.
  destruct a as [|x], b as [|y]; cbn; try discriminate; [reflexivity|].
  intros H. apply Qc_eqb_eq in H. now subst.
Qed.

Lemma opt_eqb_eq {A} (eqb : A -> A -> bool) (a b : option A) :
  (forall x y, eqb x y = true -> x = y) ->
  opt_eqb eqb a b = true -> a = b.
Proof.
  intros Heq. destruct a as [x|], b as [y|]; cbn; try discriminate; [|reflexivity].
  intros H. now rewrite (Heq x y H).
Qed.

Lemma list_eqb_eq {A} (eqb : A -> A -> bool) (l1 l2 : list A) :
  (forall x y, eqb x y = true -> x = y) ->
  list_eqb eqb l1 l2 = true -> l1 = l2.
Proof.
  intros Heq. revert l2.
  induction l1 as [|x l1 IH]; intros [|y l2]; cbn; try discriminate; [reflexivity|].
  intros H. apply andb_true_iff in H as [Hxy Hl].
  now rewrite (Heq x y Hxy), (IH l2 Hl).
Qed.

Lemma str_eqb_eq (s1 s2 : jsstring) : str_eqb s1 s2 = true -> s1 = s2.
Proof. apply list_eqb_eq. intros x y. apply N.eqb_eq. Qed.

Lemma word_eqb_eq (a b : Word) : word_eqb a b = true -> a = b.
Proof.
  unfold word_eqb. rewrite !andb_true_iff. intros [[[H1 H2] H3] H4].
  destruct a, b. cbn in *. f_equal.
  - exact (opt_eqb_eq _ _ _ str_eqb_eq H1).
  - exact (opt_eqb_eq _ _ _ str_eqb_eq H2).
  - exact (opt_eqb_eq _ _ _ jsnum_eqb_eq H3).
  - exact (opt_eqb_eq _ _ _ jsnum_eqb_eq H4).
Qed.

Lemma words_eqb_eq (a b : option (list Word)) : words_eqb a b = true -> a = b.
Proof.
  apply opt_eqb_eq. intros x y. apply list_eqb_eq, word_eqb_eq.
Qed.

Lemma cue_eqb_eq (a b : Cue) : cue_eqb a b = true -> a = b.
Proof.
  unfold cue_eqb. rewrite !andb_true_iff. intros [[[[H1 H2] H3] H4] H5].
  destruct a, b. cbn in *. f_equal.
  - now apply Nat.eqb_eq.
  - exact (opt_eqb_eq _ _ _ jsnum_eqb_eq H2).
  - exact (opt_eqb_eq _ _ _ jsnum_eqb_eq H3).
  - now apply str_eqb_eq.
  - now apply words_eqb_eq.
Qed.

Lemma cues_eqb_eq (a b : list Cue) : list_eqb cue_eqb a b = true -> a = b.
Proof. apply list_eqb_eq, cue_eqb_eq. Qed.

(** Closed equalities, by evaluating the matching test. *)
Ltac by_eqb :=
  lazymatch goal with
  | |- @eq jsnum _ _ => apply jsnum_eqb_eq
  | |- @eq (option jsnum) _ _ => apply (opt_eqb_eq jsnum_eqb _ _ jsnum_eqb_eq)
  | |- @eq Word _ _ => apply word_eqb_eq
  | |- @eq (list Word) _ _ => apply (list_eqb_eq word_eqb _ _ word_eqb_eq)
  | |- @eq (option (list Word)) _ _ => apply words_eqb_eq
  | |- @eq Cue _ _ => apply cue_eqb_eq
  | |- @eq (list Cue) _ _ => apply cues_eqb_eq
  end; vm_compute; reflexivity.

Lemma opt_num_neq (a b : option jsnum) : opt_eqb jsnum_eqb a b = false -> a <> b.
Proof.
  intros Hne ->. destruct b as [[|x]|]; cbn in Hne; try discriminate.
  now rewrite Qc_eqb_refl in Hne.
Qed.

(** ** Double-precision rounding *)

Lemma pow2_pos (e : Z) : (0 < 2 ^ e)%Q.
Proof. now apply Qpower_0_lt. Qed.

Lemma pow2_add (a b : Z) : (2 ^ (a + b) == 2 ^ a * 2 ^ b)%Q.
Proof. now apply Qpower_plus. Qed.

Lemma pow2_le (a b : Z) : (a <= b)%Z -> (2 ^ a <= 2 ^ b)%Q.
Proof. intros H. now apply Qpower_le_compat_l. Qed.

Lemma pow2_lt_inv (a b : Z) : (2 ^ a < 2 ^ b)%Q -> (a < b)%Z.
Proof. intros H. now apply (Qpower_lt_compat_l_inv 2). Qed.

Lemma pow2_Z (n : Z) : (0 <= n)%Z -> (inject_Z (2 ^ n) == 2 ^ n)%Q.
Proof. intros H. now rewrite Zpower_Qpower. Qed.

Lemma div_pow2 (q : Q) (e : Z) : (q / 2 ^ e == q * 2 ^ (- e))%Q.
Proof. rewrite Qpower_opp. reflexivity. Qed.

Lemma div_pow2_le (x y : Q) (e : Z) : (x <= y)%Q -> (x / 2 ^ e <= y / 2 ^ e)%Q.
Proof.
  intros H. unfold Qdiv. apply Qmult_le_compat_r; [exact H|].
  apply Qinv_le_0_compat, Qlt_le_weak, pow2_pos.
Qed.

Lemma round_half_even_bounds (x : Q) :
  (Qfloor x <= round_half_even x <= Qfloor x + 1)%Z.
Proof.
  unfold round_half_even.
  destruct (Qcompare _ _); [destruct (Z.even _)|..]; lia.
Qed.

Lemma round_half_even_comp (x y : Q) :
  (x == y)%Q -> round_half_even x = round_half_even y.
Proof.
  intros H. unfold round_half_even.
  rewrite (Qfloor_comp _ _ H).
  assert (Hc : (x - inject_Z (Qfloor y) == y - inject_Z (Qfloor y))%Q)
    by now rewrite H.
  now rewrite Hc.
Qed.

Lemma round_half_even_Z (z : Z) : round_half_even (inject_Z z) = z.
Proof.
  unfold round_half_even. rewrite Qfloor_Z.
  assert (H0 : (inject_Z z - inject_Z z == 0)%Q) by ring.
  now rewrite H0.
Qed.

Lemma round_half_even_le (x y : Q) :
  (x <= y)%Q -> (round_half_even x <= round_half_even y)%Z.
Proof.
  intros Hxy. pose proof (Qfloor_resp_le _ _ Hxy) as Hf.
  destruct (Z.eq_dec (Qfloor x) (Qfloor y)) as [Heq|Hne].
  - unfold round_half_even. rewrite Heq.
    destruct (Qcompare (x - inject_Z (Qfloor y)) (1 # 2)) eqn:Cx,
             (Qcompare (y - inject_Z (Qfloor y)) (1 # 2)) eqn:Cy;
      try (destruct (Z.even (Qfloor y))); try lia; exfalso;
      repeat match goal with
             | H : Qcompare _ _ = Eq |- _ => apply Qeq_alt in H
             | H : Qcompare _ _ = Lt |- _ => apply Qlt_alt in H
             | H : Qcompare _ _ = Gt |- _ => apply Qgt_alt in H
             end; lra.
  - pose proof (round_half_even_bounds x). pose proof (round_half_even_bounds y). lia.
Qed.

Lemma log2_bounds (n : Z) :
  (0 < n)%Z ->
  (0 <= Z.log2 n)%Z
  /\ (2 ^ Z.log2 n <= inject_Z n)%Q /\ (inject_Z n < 2 * 2 ^ Z.log2 n)%Q.
Proof.
  intros Hn. pose proof (Z.log2_nonneg n) as H0.
  destruct (Z.log2_spec n Hn) as [Hlo Hhi].
  split; [exact H0|]. rewrite <- (pow2_Z _ H0). split.
  - now rewrite <- Zle_Qle.
  - change 2%Q with (inject_Z 2). rewrite <- inject_Z_mult, <- Zlt_Qlt.
    now rewrite Z.pow_succ_r in Hhi.
Qed.

Lemma ilog2_spec (q : Q) :
  (0 < q)%Q -> (2 ^ ilog2 q <= q)%Q /\ (q < 2 ^ (ilog2 q + 1))%Q.
Proof.
  intros Hq. destruct q as [n d].
  assert (Hn : (0 < n)%Z).
  { unfold Qlt in Hq. cbn in Hq. lia. }
  destruct (log2_bounds n Hn) as (_ & Hnlo & Hnhi).
  destruct (log2_bounds (Zpos d) eq_refl) as (_ & Hdlo & Hdhi).
  unfold ilog2. cbn [Qnum Qden].
  set (a := Z.log2 n) in *. set (b := Z.log2 (Zpos d)) in *.
  pose proof (pow2_pos a) as Ha. pose proof (pow2_pos b) as Hb.
  assert (Hq' : (n # d == inject_Z n / inject_Z (Zpos d))%Q) by apply Qmake_Qdiv.
  assert (Hd : (0 < inject_Z (Zpos d))%Q) by reflexivity.
  assert (Hl : (2 ^ (a - b) == 2 ^ a / 2 ^ b)%Q) by now apply Qpower_minus.
  assert (Hup : (n # d < 2 * (2 ^ a / 2 ^ b))%Q).
  { rewrite Hq'. apply Qlt_shift_div_r; [exact Hd|].
    assert (H1 : (2 * (2 ^ a / 2 ^ b) * inject_Z (Zpos d)
                  == (2 * 2 ^ a) * (inject_Z (Zpos d) / 2 ^ b))%Q) by (field; lra).
    rewrite H1.
    assert (H2 : (1 <= inject_Z (Zpos d) / 2 ^ b)%Q).
    { apply Qle_shift_div_l; [exact Hb|]. lra. }
    nra. }
  assert (Hdown : (2 ^ a / 2 ^ b / 2 < n # d)%Q).
  { rewrite Hq'. apply Qlt_shift_div_l; [exact Hd|].
    assert (H1 : (2 ^ a / 2 ^ b / 2 * inject_Z (Zpos d)
                  == 2 ^ a * (inject_Z (Zpos d) / (2 * 2 ^ b)))%Q) by (field; lra).
    rewrite H1.
    assert (H2 : (inject_Z (Zpos d) / (2 * 2 ^ b) < 1)%Q).
    { apply Qlt_shift_div_r; lra. }
    assert (H3 : (0 < inject_Z (Zpos d) / (2 * 2 ^ b))%Q).
    { apply Qlt_shift_div_l; lra. }
    nra. }
  destruct (Qle_bool (2 ^ (a - b)) (n # d)) eqn:Htest.
  - apply Qle_bool_iff in Htest. split; [exact Htest|].
    rewrite pow2_add, Hl. change (2 ^ 1)%Q with 2%Q. lra.
  - assert (Hlt : (n # d < 2 ^ (a - b))%Q).
    { apply Qnot_le_lt. intros H. apply Qle_bool_iff in H. congruence. }
    split.
    + replace (a - b - 1)%Z with ((a - b) + (-1))%Z by lia.
      rewrite pow2_add, Hl. change (2 ^ (-1))%Q with (/ 2)%Q.
      apply Qlt_le_weak. exact Hdown.
    + replace (a - b - 1 + 1)%Z with (a - b)%Z by lia. exact Hlt.
Qed.

Lemma ilog2_unique (q : Q) (k : Z) :
  (2 ^ k <= q)%Q -> (q < 2 ^ (k + 1))%Q -> ilog2 q = k.
Proof.
  intros Hlo Hhi.
  assert (Hq : (0 < q)%Q) by (pose proof (pow2_pos k); lra).
  destruct (ilog2_spec q Hq) as [Hlo' Hhi'].
  assert (H1 : (k < ilog2 q + 1)%Z) by (apply pow2_lt_inv; lra).
  assert (H2 : (ilog2 q < k + 1)%Z) by (apply pow2_lt_inv; lra).
  lia.
Qed.

Lemma ilog2_comp (x y : Q) : (0 < x)%Q -> (x == y)%Q -> ilog2 x = ilog2 y.
Proof.
  intros Hx Hxy. destruct (ilog2_spec x Hx) as [Hlo Hhi].
  symmetry. apply ilog2_unique; now rewrite <- Hxy.
Qed.

Lemma ulp_exponent_spec (q : Q) :
  (0 < q)%Q ->
  (-1074 <= ulp_exponent q)%Z
  /\ (q < 2 ^ (ulp_exponent q + 53))%Q
  /\ ((-1074 < ulp_exponent q)%Z -> (2 ^ (ulp_exponent q + 52) <= q)%Q).
Proof.
  intros Hq. destruct (ilog2_spec q Hq) as [Hlo Hhi]. unfold ulp_exponent.
  split; [lia|]. split.
  - eapply Qlt_le_trans; [exact Hhi|]. apply pow2_le. lia.
  - intros Hnormal.
    replace (Z.max (ilog2 q - 52) (-1074) + 52)%Z with (ilog2 q) by lia.
    exact Hlo.
Qed.

Lemma ulp_exponent_le (x y : Q) :
  (0 < x)%Q -> (x <= y)%Q -> (ulp_exponent x <= ulp_exponent y)%Z.
Proof.
  intros Hx Hxy.
  destruct (ulp_exponent_spec x Hx) as (Hx0 & Hxhi & Hxlo).
  destruct (ulp_exponent_spec y ltac:(lra)) as (Hy0 & Hyhi & Hylo).
  destruct (Z_le_gt_dec (ulp_exponent x) (ulp_exponent y)) as [|Hgt]; [assumption|].
  specialize (Hxlo ltac:(lia)).
  assert (H : (ulp_exponent x + 52 < ulp_exponent y + 53)%Z) by (apply pow2_lt_inv; lra).
  lia.
Qed.

Lemma ulp_exponent_comp (x y : Q) :
  (0 < x)%Q -> (x == y)%Q -> ulp_exponent x = ulp_exponent y.
Proof. intros Hx Hxy. unfold ulp_exponent. now rewrite (ilog2_comp x y). Qed.

Lemma scaled_Z (z e : Z) : (inject_Z z * 2 ^ e / 2 ^ e == inject_Z z)%Q.
Proof. pose proof (pow2_pos e). field. lra. Qed.

Lemma fl_pos_nonneg (q : Q) : (0 < q)%Q -> (0 <= fl_pos q)%Q.
Proof.
  intros Hq. unfold fl_pos. pose proof (pow2_pos (ulp_exponent q)) as He.
  apply Qmult_le_0_compat; [|lra].
  change 0%Q with (inject_Z 0). rewrite <- Zle_Qle.
  rewrite <- (round_half_even_Z 0). apply round_half_even_le.
  apply Qle_shift_div_l; [exact He|]. change (inject_Z 0) with 0%Q. lra.
Qed.

(** Rounding at a fixed exponent is monotone and fixes the multiples of
    the unit. *)
Lemma mantissa_le_pow2 (q : Q) (x k : Z) :
  (0 <= k)%Z -> (q <= 2 ^ (k + x))%Q ->
  (inject_Z (round_half_even (q / 2 ^ x)) * 2 ^ x <= 2 ^ (k + x))%Q.
Proof.
  intros Hk Hq. pose proof (pow2_pos x) as Hx.
  assert (Hm : (round_half_even (q / 2 ^ x) <= 2 ^ k)%Z).
  { rewrite <- (round_half_even_Z (2 ^ k)).
    apply round_half_even_le. rewrite pow2_Z by lia.
    apply Qle_shift_div_r; [exact Hx|]. now rewrite <- pow2_add. }
  rewrite Zle_Qle, pow2_Z in Hm by lia.
  rewrite pow2_add. apply Qmult_le_compat_r; [exact Hm|lra].
Qed.

Lemma mantissa_ge_pow2 (q : Q) (x k : Z) :
  (0 <= k)%Z -> (2 ^ (k + x) <= q)%Q ->
  (2 ^ (k + x) <= inject_Z (round_half_even (q / 2 ^ x)) * 2 ^ x)%Q.
Proof.
  intros Hk Hq. pose proof (pow2_pos x) as Hx.
  assert (Hm : (2 ^ k <= round_half_even (q / 2 ^ x))%Z).
  { rewrite <- (round_half_even_Z (2 ^ k)) at 1.
    apply round_half_even_le. rewrite pow2_Z by lia.
    apply Qle_shift_div_l; [exact Hx|]. now rewrite <- pow2_add. }
  rewrite Zle_Qle, pow2_Z in Hm by lia.
  rewrite pow2_add. apply Qmult_le_compat_r; [exact Hm|lra].
Qed.

Lemma fl_pos_le (x y : Q) : (0 < x)%Q -> (x <= y)%Q -> (fl_pos x <= fl_pos y)%Q.
Proof.
  intros Hx Hxy. assert (Hy : (0 < y)%Q) by lra.
  pose proof (ulp_exponent_le x y Hx Hxy) as Hexp.
  destruct (ulp_exponent_spec x Hx) as (Hx0 & Hxhi & _).
  destruct (ulp_exponent_spec y Hy) as (_ & _ & Hylo).
  unfold fl_pos.
  set (ex := ulp_exponent x) in *. set (ey := ulp_exponent y) in *.
  destruct (Z.eq_dec ex ey) as [Heq|Hne].
  - rewrite Heq. pose proof (pow2_pos ey).
    apply Qmult_le_compat_r; [|lra].
    rewrite <- Zle_Qle. apply round_half_even_le. now apply div_pow2_le.
  - apply Qle_trans with (2 ^ (53 + ex))%Q.
    + apply mantissa_le_pow2; [lia|]. rewrite Z.add_comm. lra.
    + apply Qle_trans with (2 ^ (52 + ey))%Q; [apply pow2_le; lia|].
      apply mantissa_ge_pow2; [lia|]. rewrite Z.add_comm. apply Hylo. lia.
Qed.

Lemma fl_pos_comp (x y : Q) : (0 < x)%Q -> (x == y)%Q -> (fl_pos x == fl_pos y)%Q.
Proof.
  intros Hx Hxy. unfold fl_pos. rewrite (ulp_exponent_comp x y Hx Hxy).
  assert (H : (x / 2 ^ ulp_exponent y == y / 2 ^ ulp_exponent y)%Q) by now rewrite Hxy.
  now rewrite (round_half_even_comp _ _ H).
Qed.

Lemma flQ_comp (x y : Q) : (x == y)%Q -> (flQ x == flQ y)%Q.
Proof.
  intros Hxy. unfold flQ.
  assert (Hc : Qcompare y 0 = Qcompare x 0) by now rewrite Hxy.
  rewrite Hc.
  destruct (Qcompare x 0) eqn:C; [reflexivity|..].
  - apply Qlt_alt in C. apply Qopp_comp, fl_pos_comp; [lra|now rewrite Hxy].
  - apply Qgt_alt in C. now apply fl_pos_comp.
Qed.

Lemma flQ_le (x y : Q) : (x <= y)%Q -> (flQ x <= flQ y)%Q.
Proof.
  intros Hxy. unfold flQ.
  destruct (Qcompare x 0) eqn:Cx, (Qcompare y 0) eqn:Cy;
    repeat match goal with
           | H : Qcompare _ _ = Eq |- _ => apply Qeq_alt in H
           | H : Qcompare _ _ = Lt |- _ => apply Qlt_alt in H
           | H : Qcompare _ _ = Gt |- _ => apply Qgt_alt in H
           end;
    try lra.
  - apply fl_pos_nonneg. lra.
  - pose proof (fl_pos_nonneg (- x) ltac:(lra)). lra.
  - pose proof (fl_pos_le (- y) (- x) ltac:(lra) ltac:(lra)). lra.
  - pose proof (fl_pos_nonneg (- x) ltac:(lra)).
    pose proof (fl_pos_nonneg y ltac:(lra)). lra.
  - now apply fl_pos_le.
Qed.

(** A positive multiple of the unit in the last place of its own binade
    is a double. *)
Lemma fl_pos_exact (q : Q) (z : Z) :
  (q == inject_Z z * 2 ^ ulp_exponent q)%Q -> (fl_pos q == q)%Q.
Proof.
  intros Hq. unfold fl_pos.
  assert (H : (q / 2 ^ ulp_exponent q == inject_Z z)%Q).
  { rewrite Hq at 1. apply scaled_Z. }
  rewrite (round_half_even_comp _ _ H), round_half_even_Z. now rewrite <- Hq.
Qed.

Lemma representable (m e : Z) :
  (0 < m <= 2 ^ 53)%Z -> (-1074 <= e)%Z ->
  exists z, (inject_Z m * 2 ^ e
             == inject_Z z * 2 ^ ulp_exponent (inject_Z m * 2 ^ e))%Q.
Proof.
  intros [Hm Hm53] He. pose proof (pow2_pos e) as Hpe.
  destruct (log2_bounds m Hm) as (Hl0 & Hlo & Hhi).
  set (q := (inject_Z m * 2 ^ e)%Q).
  destruct (Z.eq_dec m (2 ^ 53)%Z) as [->|Hne].
  - assert (Hq : (q == 2 ^ (e + 53))%Q).
    { unfold q. rewrite pow2_Z by lia. rewrite pow2_add. ring. }
    assert (Hk : ilog2 q = (e + 53)%Z).
    { apply ilog2_unique; rewrite Hq; [lra|].
      apply Qpower_lt_compat_l; [lia|reflexivity]. }
    exists (2 ^ 52)%Z. unfold ulp_exponent. rewrite Hk.
    replace (Z.max (e + 53 - 52) (-1074)) with (e + 1)%Z by lia.
    rewrite Hq, pow2_Z by lia. rewrite <- pow2_add. now replace (52 + (e + 1))%Z with (e + 53)%Z by lia.
  - assert (Hl52 : (Z.log2 m <= 52)%Z).
    { assert (H : (Z.log2 m < 53)%Z); [|lia].
      apply Z.log2_lt_pow2; lia. }
    assert (Hk : ilog2 q = (Z.log2 m + e)%Z).
    { apply ilog2_unique; unfold q.
      - rewrite pow2_add. apply Qmult_le_compat_r; lra.
      - replace (Z.log2 m + e + 1)%Z with (1 + Z.log2 m + e)%Z by lia.
        rewrite !pow2_add. change (2 ^ 1)%Q with 2%Q.
        apply Qmult_lt_compat_r; lra. }
    unfold ulp_exponent. rewrite Hk.
    set (x := Z.max (Z.log2 m + e - 52) (-1074)).
    exists (m * 2 ^ (e - x))%Z.
    rewrite inject_Z_mult, pow2_Z by lia.
    rewrite <- Qmult_assoc, <- pow2_add.
    now replace (e - x + x)%Z with e by lia.
Qed.

Lemma fl_pos_mantissa (q : Q) :
  (0 < q)%Q ->
  (0 <= round_half_even (q / 2 ^ ulp_exponent q) <= 2 ^ 53)%Z.
Proof.
  intros Hq. destruct (ulp_exponent_spec q Hq) as (_ & Hhi & _).
  pose proof (pow2_pos (ulp_exponent q)) as Hx. split.
  - rewrite <- (round_half_even_Z 0). apply round_half_even_le.
    apply Qle_shift_div_l; [exact Hx|]. change (inject_Z 0) with 0%Q. lra.
  - rewrite <- (round_half_even_Z (2 ^ 53)). apply round_half_even_le.
    rewrite pow2_Z by lia. apply Qle_shift_div_r; [exact Hx|].
    rewrite <- pow2_add, Z.add_comm. lra.
Qed.

Lemma fl_pos_idempotent (q : Q) :
  (0 < q)%Q -> (0 < fl_pos q)%Q -> (fl_pos (fl_pos q) == fl_pos q)%Q.
Proof.
  intros Hq Hpos. destruct (ulp_exponent_spec q Hq) as (He & _ & _).
  pose proof (fl_pos_mantissa q Hq) as [Hm0 Hm53].
  unfold fl_pos in Hpos |- * at 2 3.
  set (m := round_half_even (q / 2 ^ ulp_exponent q)) in *.
  assert (Hm : (0 < m)%Z).
  { destruct (Z.eq_dec m 0%Z) as [H0|]; [|lia].
    rewrite H0 in Hpos. change (inject_Z 0) with 0%Q in Hpos. lra. }
  destruct (representable m (ulp_exponent q) ltac:(lia) He) as [z Hz].
  exact (fl_pos_exact _ z Hz).
Qed.

Lemma flQ_idempotent (q : Q) : (flQ (flQ q) == flQ q)%Q.
Proof.
  unfold flQ at 2 3.
  destruct (Qcompare q 0) eqn:C; [reflexivity|..].
  - apply Qlt_alt in C. pose proof (fl_pos_nonneg (- q) ltac:(lra)) as Hp.
    unfold flQ. destruct (Qcompare (- fl_pos (- q)) 0) eqn:C'.
    + apply Qeq_alt in C'. now rewrite C'.
    + apply Qlt_alt in C'. apply Qopp_comp.
      rewrite (fl_pos_comp (- - fl_pos (- q)) (fl_pos (- q))) by (lra || ring).
      apply fl_pos_idempotent; lra.
    + apply Qgt_alt in C'. lra.
  - apply Qgt_alt in C. pose proof (fl_pos_nonneg q C) as Hp.
    unfold flQ. destruct (Qcompare (fl_pos q) 0) eqn:C'.
    + apply Qeq_alt in C'. now rewrite C'.
    + apply Qlt_alt in C'. lra.
    + apply Qgt_alt in C'. now apply fl_pos_idempotent.
Qed.

(** The same on canonical rationals. *)
Lemma fl_this (q : Qc) : (this (fl q) == flQ q)%Q.
Proof. unfold fl. cbn [this Q2Qc]. apply Qred_correct. Qed.

Lemma fl_0 : fl 0%Qc = 0%Qc.
Proof. apply Qc_is_canon. reflexivity. Qed.

Lemma fl_le (x y : Qc) : (x <= y)%Qc -> (fl x <= fl y)%Qc.
Proof. unfold Qcle. rewrite !fl_this. apply flQ_le. Qed.

Lemma fl_nonneg (x : Qc) : (0 <= x)%Qc -> (0 <= fl x)%Qc.
Proof. intros H. rewrite <- fl_0. now apply fl_le. Qed.

Lemma fl_idempotent (x : Qc) : fl (fl x) = fl x.
Proof.
  apply Qc_is_canon. rewrite fl_this, (flQ_comp _ _ (fl_this x)), fl_this.
  apply flQ_idempotent.
Qed.
(** Case analysis on the condition of the first conditional of the goal. *)
Ltac case_if :=
  match goal with
  | |- context [if ?b then _ else _] => destruct b eqn:?
  end.

(** ** C4: the active-cue query *)

(** C4. For every transcript and query time, [activeCaptions] returns
    exactly the cues whose closed span [start <= t <= end] contains the
    time, in transcript order: membership is the span test, the result is
    built cue by cue along the transcript (so it is a sublist of it),
    querying the result again changes nothing, a time outside every span
    gives the empty sequence, and two cues that touch at a boundary are both
    active at that instant. *)
Theorem activeCaptions_inclusive_in_order (captions : list Cue) (t : jsnum) :
  (forall c, In c (activeCaptions captions t)
             <-> In c captions /\ within t (c_start c) (c_end c))
  /\ sublist (activeCaptions captions t) captions
  /\ (forall c, within t (c_start c) (c_end c) ->
                activeCaptions (c :: captions) t = c :: activeCaptions captions t)
  /\ (forall c, ~ within t (c_start c) (c_end c) ->
                activeCaptions (c :: captions) t = activeCaptions captions t)
  /\ activeCaptions (activeCaptions captions t) t = activeCaptions captions t
  /\ ((forall c, In c captions -> ~ within t (c_start c) (c_end c)) ->
      activeCaptions captions t = [])
  /\ (forall a b s q e,
        c_start a = Some (Num s) -> c_end a = Some (Num q) ->
        c_start b = Some (Num q) -> c_end b = Some (Num e) ->
        (s <= q)%Qc -> (q <= e)%Qc ->
        activeCaptions [a; b] (Num q) = [a; b]).
Proof.
  unfold activeCaptions. repeat apply conj.
  - intros c. rewrite filter_In, within_iff. reflexivity.
  - induction captions as [|c cs IH]; cbn [List.filter]; [constructor|].
    case_if; now constructor.
  - intros c Hc. apply within_iff in Hc. cbn [List.filter]. now rewrite Hc.
  - intros c Hc. rewrite <- within_iff in Hc. cbn [List.filter].
    now destruct (_ && _).
  - induction captions as [|c cs IH]; cbn [List.filter]; [reflexivity|].
    case_if; cbn [List.filter]; [|exact IH].
    match goal with H : _ = true |- _ => rewrite H end. now rewrite IH.
  - intros Hout. induction captions as [|c cs IH]; cbn [List.filter]; [reflexivity|].
    case_if.
    + match goal with H : _ = true |- _ => apply within_iff in H; rename H into E end.
      exfalso. apply (Hout c); [now left|exact E].
    + apply IH. intros c' Hc'. apply Hout. now right.
  - intros a b s q e Has Hae Hbs Hbe Hsq Hqe. cbn [List.filter].
    rewrite Has, Hae, Hbs, Hbe. unfold js_ge, js_le.
    cbn [List.filter].
    assert (Hqq : Qc_leb q q = true) by (apply Qc_leb_le, Qcle_refl).
    apply Qc_leb_le in Hsq, Hqe. now rewrite Hsq, Hqe, Hqq.
Qed.

(** Two cues that touch at 2: both are active at that instant. *)
Lemma activeCaptions_inclusive_in_order_witness :
  let a := {| c_id := 1; c_start := Some (ratio 0 1); c_end := Some (ratio 2 1);
              c_text := lit "one"; c_words := None |} in
  let b := {| c_id := 2; c_start := Some (ratio 2 1); c_end := Some (ratio 4 1);
              c_text := lit "two"; c_words := None |} in
  activeCaptions [a; b] (ratio 2 1) = [a; b].
Proof.
  intros a b.
  apply (proj2 (proj2 (proj2 (proj2 (proj2 (proj2
           (activeCaptions_inclusive_in_order [] NaN))))))
           a b (Q2Qc 0) (Q2Qc (2 # 1)) (Q2Qc (4 # 1)));
    try reflexivity; unfold Qcle; cbn; discriminate.
Defined.

(** ** C9: the script classifier *)

Lemma surrogate_not_devanagari (c : N) :
  is_high c || is_low c = true -> in_devanagari c = false.
Proof.
  unfold is_high, is_low, in_devanagari.
  rewrite orb_true_iff, !andb_true_iff, andb_false_iff, !N.leb_le, !N.leb_gt.
  lia.
Qed.

Lemma supplementary_not_devanagari (hi lo : N) :
  in_devanagari (0x10000 + (hi - 0xD800) * 0x400 + (lo - 0xDC00)) = false.
Proof.
  unfold in_devanagari. rewrite andb_false_iff, !N.leb_gt. lia.
Qed.

(** Decoding surrogate pairs neither adds nor removes a Devanagari
    character: the block lies in the basic plane, below the surrogates. *)
Lemma code_points_devanagari (s : jsstring) :
  existsb in_devanagari (code_points s) = existsb in_devanagari s.
Proof.
  remember (length s) as n eqn:Hn.
  revert s Hn. induction n as [n IH] using lt_wf_ind. intros s Hn.
  destruct s as [|hi [|lo rest]]; [reflexivity | reflexivity |].
  cbn [code_points]. destruct (is_high hi && is_low lo) eqn:Hpair.
  - apply andb_true_iff in Hpair as [Hhi Hlo].
    cbn [existsb].
    rewrite supplementary_not_devanagari.
    rewrite (surrogate_not_devanagari hi) by (rewrite Hhi; reflexivity).
    rewrite (surrogate_not_devanagari lo) by (rewrite Hlo; apply orb_true_r).
    cbn [orb]. apply (IH (length rest)); [subst n; cbn; lia | reflexivity].
  - change (existsb in_devanagari (hi :: code_points (lo :: rest))
            = existsb in_devanagari (hi :: lo :: rest)).
    cbn [existsb]. f_equal.
    apply (IH (length (lo :: rest))); [subst n; cbn; lia | reflexivity].
Qed.

(** C9. The classifier flags a text (Devanagari-capable font family,
    the mixed-script case) exactly when one of its code points lies in the
    Devanagari block U+0900..U+097F, and picks the latin family otherwise;
    the text of the mixed sample is flagged and "hello world" is not. *)
Theorem containsHindi_iff_devanagari_code_point (text : jsstring) :
  (containsHindi text = true
   <-> exists cp, In cp (code_points text) /\ (0x0900 <= cp <= 0x097F)%N)
  /\ (fontFamily text = hinglish <-> containsHindi text = true)
  /\ (fontFamily text = english
      <-> ~ exists cp, In cp (code_points text) /\ (0x0900 <= cp <= 0x097F)%N)
  /\ containsHindi [0x092F; 0x0939; 32; 0x090F; 0x0915; 32; 116; 101; 115; 116]%N = true
  /\ fontFamily (lit "hello world") = english.
Proof.
  assert (Hiff : containsHindi text = true
     <-> exists cp, In cp (code_points text) /\ (0x0900 <= cp <= 0x097F)%N).
  { unfold containsHindi. rewrite <- code_points_devanagari, existsb_exists.
    unfold in_devanagari.
    split; intros (cp & Hin & Hcp); exists cp; split; auto.
    - apply andb_true_iff in Hcp. rewrite !N.leb_le in Hcp. exact Hcp.
    - apply andb_true_iff. rewrite !N.leb_le. exact Hcp. }
  repeat apply conj; try reflexivity.
  - apply Hiff.
  - apply Hiff.
  - unfold fontFamily. now destruct (containsHindi text).
  - unfold fontFamily. now intros ->.
  - rewrite <- Hiff. unfold fontFamily.
    destruct (containsHindi text); [discriminate | auto].
  - rewrite <- Hiff. unfold fontFamily.
    destruct (containsHindi text); [intros H; now destruct H | auto].
Qed.

(** ** C10 and C5: the active-word query *)

Lemma find_is_Some {A} (f : A -> bool) (l : list A) (x : A) :
  In x l -> f x = true -> exists y, List.find f l = Some y.
Proof.
  intros Hin Hx. destruct (List.find f l) as [y|] eqn:E; [now exists y|].
  now rewrite (find_none f l E x Hin) in Hx.
Qed.

(** With the karaoke style and a first active cue, the query is the search
    through that cue's words. *)
Lemma currentWordData_first
    (interpolate : jsnum -> option jsnum -> option jsnum -> Res jsnum)
    (c : Cue) (rest : list Cue) (t : jsnum) :
  currentWordData interpolate (Some karaoke) (c :: rest) t
  = match c_words c with
    | None => Return None
    | Some words =>
        match List.find (fun word => js_ge (Some t) (w_start word)
                                     && js_le (Some t) (w_end word)) words with
        | Some currentWord =>
            progress ← interpolate t (w_start currentWord) (w_end currentWord);
            Return (Some {| wd_word := currentWord; wd_progress := progress |})
        | None => Return None
        end
    end.
Proof.
  unfold currentWordData. now rewrite bool_decide_eq_true_2 by reflexivity.
Qed.

(** C10. Whatever [interpolate] does, [currentWordData] is [null] unless
    the preset style is the string 'karaoke' and some cue is active; it
    depends on the first active cue only (the later ones can be replaced at
    will), and the word it reports is a word of that first cue whose span
    contains the time. *)
Theorem currentWordData_karaoke_first_cue
    (interpolate : jsnum -> option jsnum -> option jsnum -> Res jsnum)
    (style : option jsstring) (t : jsnum) :
  (forall actives, style <> Some karaoke ->
     currentWordData interpolate style actives t = Return None)
  /\ currentWordData interpolate style [] t = Return None
  /\ (forall actives, currentWordData interpolate style actives t <> Return None ->
        style = Some karaoke /\ actives <> [])
  /\ (forall c rest rest',
        currentWordData interpolate style (c :: rest) t
        = currentWordData interpolate style (c :: rest') t)
  /\ (forall c rest wd,
        currentWordData interpolate style (c :: rest) t = Return (Some wd) ->
        exists ws, c_words c = Some ws /\ In (wd_word wd) ws
                   /\ within t (w_start (wd_word wd)) (w_end (wd_word wd)))
  /\ (forall captions c rest,
        activeCaptions captions t = c :: rest ->
        currentWordData interpolate style (activeCaptions captions t) t
        = currentWordData interpolate style [c] t).
Proof.
  assert (Hgate : forall actives, style <> Some karaoke ->
            currentWordData interpolate style actives t = Return None).
  { intros actives Hs. unfold currentWordData.
    now rewrite (bool_decide_eq_false_2 _ Hs). }
  assert (Hnil : currentWordData interpolate style [] t = Return None).
  { unfold currentWordData. cbn [length Nat.eqb]. now rewrite orb_true_r. }
  repeat apply conj.
  - exact Hgate.
  - exact Hnil.
  - intros actives Hne. split.
    + destruct (decide (style = Some karaoke)) as [|Hs]; [assumption|].
      now specialize (Hgate actives Hs).
    + intros ->. contradiction.
  - intros c rest rest'. reflexivity.
  - intros c rest wd.
    destruct (decide (style = Some karaoke)) as [->|Hs];
      [|now rewrite (Hgate _ Hs)].
    rewrite currentWordData_first.
    destruct (c_words c) as [ws|]; [|discriminate].
    destruct (List.find _ ws) as [u|] eqn:Hfind; [|discriminate].
    apply find_some in Hfind as [Hin Hu]. apply within_iff in Hu.
    destruct (interpolate t (w_start u) (w_end u)); [|discriminate].
    cbn. intros [= <-]. exists ws. auto.
  - intros captions c rest ->. reflexivity.
Qed.

(** Two active cues: the words of the second play no part. *)
Lemma currentWordData_karaoke_first_cue_witness :
  let first := {| c_id := 1; c_start := Some (ratio 0 1); c_end := Some (ratio 4 1);
                  c_text := lit "one"; c_words := Some [] |} in
  let second := {| c_id := 2; c_start := Some (ratio 1 1); c_end := Some (ratio 3 1);
                   c_text := lit "two";
                   c_words := Some [ timed_word (lit "two") (ratio 1 1) (ratio 3 1) ] |} in
  activeCaptions [first; second] (ratio 2 1) = [first; second]
  /\ currentWordData interpolate_spec (Some karaoke) [first; second] (ratio 2 1)
     = currentWordData interpolate_spec (Some karaoke) [first] (ratio 2 1)
  /\ currentWordData interpolate_spec (Some karaoke) [first] (ratio 2 1) = Return None.
Proof.
  intros first second. split; [reflexivity|]. split; [|reflexivity].
  apply (proj1 (proj2 (proj2 (proj2
           (currentWordData_karaoke_first_cue interpolate_spec (Some karaoke)
              (ratio 2 1)))))).
Defined.

(** The search of [find] through a list that holds a match: the result is
    that match or a match before it. *)
Lemma find_app_hit {A} (f : A -> bool) (before after : list A) (x : A) :
  f x = true ->
  exists u, List.find f (before ++ x :: after) = Some u
            /\ (In u before \/ u = x) /\ f u = true.
Proof.
  intros Hx. induction before as [|b before (u & Hfind & Hu & Hfu)]; cbn [app List.find].
  - exists x. rewrite Hx. auto.
  - destruct (f b) eqn:Hb.
    + exists b. split; [reflexivity|]. split; [left; now left | exact Hb].
    + exists u. split; [exact Hfind|]. split; [|exact Hfu].
      destruct Hu as [Hu|Hu]; [left; now right | now right].
Qed.

(** C5. With the progress fraction of the specification, a cue that holds
    a zero-length word at [q], the words before it ending no later than
    [q] (the words of a cue are in order and do not overlap), has an active
    word at [q] with progress [1]; no exception is raised. *)
Theorem zero_length_word_progress (cue : Cue) (rest : list Cue)
    (before after : list Word) (w : Word) (q : Qc) :
  c_words cue = Some (before ++ w :: after) ->
  w_start w = Some (Num q) ->
  w_end w = Some (Num q) ->
  (forall u e, In u before -> w_end u = Some (Num e) -> (e <= q)%Qc) ->
  exists wd,
    currentWordData interpolate_spec (Some karaoke) (cue :: rest) (Num q)
    = Return (Some wd)
    /\ In (wd_word wd) (before ++ w :: after)
    /\ wd_progress wd = Num 1%Qc.
Proof.
  intros Hws Hs He Hbefore.
  rewrite currentWordData_first, Hws.
  destruct (find_app_hit
              (fun word => js_ge (Some (Num q)) (w_start word)
                           && js_le (Some (Num q)) (w_end word)) before after w)
    as (u & Hfind & Hu & Hspan).
  { apply within_iff. exists q, q, q. repeat split; auto; apply Qcle_refl. }
  rewrite Hfind. apply find_some in Hfind as [Hin _].
  apply within_iff in Hspan.
  destruct Hspan as (s & e & q' & Hus & Hue & [= <-] & Hsq & Hqe).
  assert (Hend : e = q).
  { destruct Hu as [Hu| ->].
    - apply Qcle_antisym; [exact (Hbefore u e Hu Hue) | exact Hqe].
    - rewrite He in Hue. now injection Hue. }
  subst e. rewrite Hus, Hue. cbn.
  eexists. split; [reflexivity|]. split; [exact Hin|]. cbn. f_equal.
  destruct (Qc_eqb s q) eqn:Heq; [reflexivity|].
  apply Qc_eqb_neq in Heq.
  assert (Hone : ((q - s) / (q - s))%Qc = 1%Qc).
  { field. intros H. apply Heq. symmetry.
    rewrite <- (Qcplus_0_r s), <- H. ring. }
  rewrite Hone. reflexivity.
Qed.

(** The scenario of the specification, a single word with start 2.0 and
    end 2.0 queried at time 2.0; the same word followed by a word that
    starts where it stands; and the same word after a word that ends where
    it stands. *)
Lemma zero_length_word_progress_witness :
  let w := timed_word (lit "now") (ratio 2 1) (ratio 2 1) in
  let next := timed_word (lit "then") (ratio 2 1) (ratio 3 1) in
  let previous := timed_word (lit "until") (ratio 1 1) (ratio 2 1) in
  let cue ws := {| c_id := 1; c_start := Some (ratio 1 1); c_end := Some (ratio 3 1);
                   c_text := lit "until now then"; c_words := Some ws |} in
  (exists wd,
     currentWordData interpolate_spec (Some karaoke) [cue [w]] (ratio 2 1)
     = Return (Some wd)
     /\ In (wd_word wd) [w]
     /\ wd_progress wd = Num 1%Qc)
  /\ (exists wd,
        currentWordData interpolate_spec (Some karaoke) [cue [w; next]] (ratio 2 1)
        = Return (Some wd)
        /\ In (wd_word wd) [w; next]
        /\ wd_progress wd = Num 1%Qc)
  /\ (exists wd,
        currentWordData interpolate_spec (Some karaoke) [cue [previous; w]] (ratio 2 1)
        = Return (Some wd)
        /\ In (wd_word wd) [previous; w]
        /\ wd_progress wd = Num 1%Qc).
Proof.
  cbv zeta. split; [|split].
  - apply (zero_length_word_progress _ [] [] []
             (timed_word (lit "now") (ratio 2 1) (ratio 2 1))); try reflexivity.
    intros u e [].
  - apply (zero_length_word_progress _ [] []
             [timed_word (lit "then") (ratio 2 1) (ratio 3 1)]
             (timed_word (lit "now") (ratio 2 1) (ratio 2 1))); try reflexivity.
    intros u e [].
  - apply (zero_length_word_progress _ []
             [timed_word (lit "until") (ratio 1 1) (ratio 2 1)] []
             (timed_word (lit "now") (ratio 2 1) (ratio 2 1))); try reflexivity.
    intros u e [<-|[]] [= <-]. apply Qcle_refl.
Defined.

(** ** C1: windows of eight words *)

Lemma ceil_div_lt (n k : nat) : k < ceil_div n 8 <-> k * 8 < n.
Proof.
  unfold ceil_div. cbn [Nat.sub].
  pose proof (Nat.div_mod_eq (n + 7) 8) as Hdm.
  pose proof (Nat.mod_upper_bound (n + 7) 8 ltac:(lia)) as Hm.
  lia.
Qed.

Lemma slice_window (ws : list Word) (k : nat) :
  slice ws (k * wordsPerSegment) (k * wordsPerSegment + wordsPerSegment) = window ws k.
Proof.
  unfold slice, window. f_equal. lia.
Qed.

Lemma window_length (ws : list Word) (k : nat) :
  length (window ws k) = Nat.min 8 (length ws - k * 8).
Proof.
  unfold window, wordsPerSegment. now rewrite length_take, length_drop.
Qed.

Lemma windows_concat (n : nat) (ws : list Word) :
  length ws <= n * 8 ->
  concat (map (window ws) (seq 0 n)) = ws.
Proof.
  revert ws. induction n as [|n IH]; intros ws Hlen.
  - destruct ws; [reflexivity | cbn in Hlen; lia].
  - cbn [seq map concat]. rewrite <- seq_shift, map_map.
    transitivity (take 8 ws ++ drop 8 ws); [|apply take_drop].
    f_equal.
    etransitivity; [|apply (IH (drop 8 ws)); rewrite length_drop; lia].
    f_equal. apply map_ext. intros k.
    unfold window, wordsPerSegment. rewrite drop_drop. do 2 f_equal; lia.
Qed.

(** The cue the callback of [Array.from] builds for window [k]. *)
Lemma window_cue (ws : list Word) (k : nat) :
  k * 8 < length ws ->
  exists first final,
    head (window ws k) = Some first
    /\ last (window ws k) = Some final
    /\ (first ← deref (window ws k !! 0);
        final ← deref (if Nat.eqb (length (window ws k)) 0 then None
                       else window ws k !! (length (window ws k) - 1));
        Return {| c_id := k + 1;
                  c_start := w_start first;
                  c_end := w_end final;
                  c_text := trim (join_space (map w_word (window ws k)));
                  c_words := Some (window ws k) |})
       = Return {| c_id := k + 1;
                   c_start := w_start first;
                   c_end := w_end final;
                   c_text := trim (join_space (map w_word (window ws k)));
                   c_words := Some (window ws k) |}.
Proof.
  intros Hk. pose proof (window_length ws k) as Hlen.
  destruct (window ws k) as [|first l] eqn:Hw;
    [change (length (@nil Word)) with 0 in Hlen; lia|].
  destruct (last (first :: l)) as [final|] eqn:Hlast;
    [|apply last_None in Hlast; discriminate].
  exists first, final. repeat split.
  cbn [lookup list_lookup deref mbind Res_bind length Nat.eqb].
  rewrite last_lookup in Hlast. cbn [length Nat.pred] in Hlast.
  replace (S (length l) - 1) with (length l) by lia.
  rewrite Hlast. reflexivity.
Qed.

Lemma ceil_div_covers (n : nat) : n <= ceil_div n 8 * 8.
Proof.
  unfold ceil_div. cbn [Nat.sub].
  pose proof (Nat.div_mod_eq (n + 7) 8) as Hdm.
  pose proof (Nat.mod_upper_bound (n + 7) 8 ltac:(lia)) as Hm.
  lia.
Qed.

(** The cue of window [k], with the first and last word read through
    [head] and [last]. *)
Lemma processTranscription_cues (transcription : Transcription) (ws : list Word) :
  t_words transcription = Some ws ->
  ws <> [] ->
  processTranscription (Some transcription)
  = Return (map (fun k => {| c_id := k + 1;
                             c_start := head (window ws k) ≫= w_start;
                             c_end := last (window ws k) ≫= w_end;
                             c_text := trim (join_space (map w_word (window ws k)));
                             c_words := Some (window ws k) |})
                (seq 0 (ceil_div (length ws) 8))).
Proof.
  intros Hws Hne. unfold processTranscription.
  cbn [deref mbind Res_bind]. rewrite Hws.
  destruct ws as [|w ws']; [contradiction|].
  cbn [missing_or_empty length Nat.eqb default].
  apply array_from_return. intros k Hk.
  apply ceil_div_lt in Hk. cbv zeta. unfold id. rewrite slice_window.
  destruct (window_cue (w :: ws') k Hk) as (first & final & Hfirst & Hfinal & ->).
  now rewrite Hfirst, Hfinal.
Qed.

(** C1. For a non-empty word list, [processTranscription] emits one cue
    per window of eight consecutive words, in input order: cue [k] (from 0)
    has id [k + 1], carries the [k]-th window unchanged, starts with its
    first word and ends with its last, and its text is the words joined by
    single spaces and trimmed; every window but the last has eight words,
    the last between one and eight; the word lists of the cues, one after
    the other, are the input; seventeen words give cues 1, 2, 3 of 8, 8 and
    1 words. *)
Theorem processTranscription_windows (transcription : Transcription) (ws : list Word) :
  t_words transcription = Some ws ->
  ws <> [] ->
  exists cues,
    processTranscription (Some transcription) = Return cues
    /\ length cues = ceil_div (length ws) 8
    /\ (forall k, k < length cues ->
          exists c first final,
            cues !! k = Some c
            /\ c_id c = k + 1
            /\ c_words c = Some (window ws k)
            /\ head (window ws k) = Some first
            /\ last (window ws k) = Some final
            /\ c_start c = w_start first
            /\ c_end c = w_end final
            /\ c_text c = trim (join_space (map w_word (window ws k)))
            /\ 1 <= length (window ws k) <= 8
            /\ (S k < length cues -> length (window ws k) = 8))
    /\ all_words cues = ws
    /\ (length ws = 17 ->
          map c_id cues = [1; 2; 3]
          /\ map (fun c => length (default [] (c_words c))) cues = [8; 8; 1]).
Proof.
  intros Hws Hne. eexists. split; [exact (processTranscription_cues _ ws Hws Hne)|].
  split; [now rewrite length_map, length_seq|].
  split; [|split].
  - intros k. rewrite length_map, length_seq. intros Hk.
    pose proof Hk as Hk8. apply ceil_div_lt in Hk8.
    destruct (window_cue ws k Hk8) as (first & final & Hfirst & Hfinal & _).
    eexists _, first, final.
    split; [rewrite list_lookup_fmap, lookup_seq_lt by exact Hk; reflexivity|].
    cbn [c_id c_words c_start c_end c_text Nat.add].
    rewrite Hfirst, Hfinal, window_length.
    repeat apply conj; try reflexivity; try lia.
    intros HSk. apply ceil_div_lt in HSk. lia.
  - unfold all_words. rewrite map_map. cbn [c_words default from_option id].
    apply windows_concat, ceil_div_covers.
  - intros H17. rewrite !map_map. cbn [c_id c_words default].
    rewrite H17. change (ceil_div 17 8) with 3. cbn [seq map].
    unfold id. rewrite !window_length, H17. split; reflexivity.
Qed.

Lemma processTranscription_windows_witness :
  let w := timed_word (lit "hi") (ratio 0 1) (ratio 1 1) in
  exists cues,
    processTranscription
      (Some {| t_text := None; t_words := Some (replicate 17 w);
               t_segments := None; t_transcription := None |}) = Return cues
    /\ map c_id cues = [1; 2; 3]
    /\ map (fun c => length (default [] (c_words c))) cues = [8; 8; 1].
Proof.
  cbv zeta.
  destruct (processTranscription_windows
              {| t_text := None;
                 t_words := Some (replicate 17
                                    (timed_word (lit "hi") (ratio 0 1) (ratio 1 1)));
                 t_segments := None; t_transcription := None |}
              (replicate 17 (timed_word (lit "hi") (ratio 0 1) (ratio 1 1)))
              eq_refl ltac:(discriminate))
    as (cues & Hrun & _ & _ & _ & H17).
  exists cues. split; [exact Hrun|]. apply H17. reflexivity.
Defined.

(** ** Uniform subdivision: the code in closed form *)

(** The timing lambda of the segment paths on a numeric span. *)
Lemma spread_word_numeric (s e : Qc) (n i : nat) (tok : jsstring) :
  0 < n ->
  spread_word (Some (Num s)) (Some (Num e)) n i tok
  = {| w_word := Some tok;
       w_text := None;
       w_start := Some (Num (fl (s + fl (of_nat i * word_duration s e n))));
       w_end := Some (Num (fl (s + fl ((of_nat i + 1) * word_duration s e n)))) |}.
Proof.
  intros Hn. unfold spread_word, fl_div, fl_sub, fl_add, fl_mul.
  cbn [to_number js_sub round js_div]. rewrite (of_nat_eqb_0 n Hn). reflexivity.
Qed.

Lemma imap_spread_word (s e : Qc) (tokens : list jsstring) :
  imap (spread_word (Some (Num s)) (Some (Num e)) (length tokens)) tokens
  = rounded_subdivide s e tokens.
Proof.
  unfold rounded_subdivide. apply imap_ext. intros i tok Hi.
  apply spread_word_numeric. apply lookup_lt_Some in Hi. lia.
Qed.

(** The lambda of the whisper.cpp path, which ends a word one duration
    after its start. *)
Lemma imap_whisper_word (a b : Qc) (allWords : list jsstring) :
  imap (fun wordIndex word =>
          let segmentDuration := fl_sub (Num b) (Num a) in
          let wordDuration := fl_div segmentDuration (Num (of_nat (length allWords))) in
          let wordStartTime :=
            fl_add (Num a) (fl_mul (Num (of_nat wordIndex)) wordDuration) in
          {| w_word := Some word;
             w_text := None;
             w_start := Some wordStartTime;
             w_end := Some (fl_add wordStartTime wordDuration) |}) allWords
  = whisper_subdivide a b allWords.
Proof.
  unfold whisper_subdivide. apply imap_ext. intros i tok Hi.
  apply lookup_lt_Some in Hi.
  assert (Hn : 0 < length allWords) by lia.
  cbv zeta. unfold fl_div, fl_sub, fl_add, fl_mul.
  cbn [js_sub round js_div]. rewrite (of_nat_eqb_0 _ Hn). reflexivity.
Qed.

Lemma rounded_subdivide_length (s e : Qc) (tokens : list jsstring) :
  length (rounded_subdivide s e tokens) = length tokens.
Proof. apply length_imap. Qed.

Lemma rounded_subdivide_lookup (s e : Qc) (tokens : list jsstring) (i : nat) (w : Word) :
  rounded_subdivide s e tokens !! i = Some w ->
  exists tok,
    tokens !! i = Some tok
    /\ w = {| w_word := Some tok;
              w_text := None;
              w_start :=
                Some (Num (fl (s + fl (of_nat i * word_duration s e (length tokens)))));
              w_end :=
                Some (Num (fl (s + fl ((of_nat i + 1)
                                       * word_duration s e (length tokens))))) |}.
Proof.
  unfold rounded_subdivide. rewrite list_lookup_imap.
  destruct (tokens !! i) as [tok|]; [|discriminate].
  cbn. intros [= <-]. now exists tok.
Qed.

Lemma whisper_subdivide_length (s e : Qc) (tokens : list jsstring) :
  length (whisper_subdivide s e tokens) = length tokens.
Proof. apply length_imap. Qed.

Lemma whisper_subdivide_lookup (s e : Qc) (tokens : list jsstring) (i : nat) (w : Word) :
  whisper_subdivide s e tokens !! i = Some w ->
  exists tok,
    tokens !! i = Some tok
    /\ w = {| w_word := Some tok;
              w_text := None;
              w_start :=
                Some (Num (fl (s + fl (of_nat i * word_duration s e (length tokens)))));
              w_end :=
                Some (Num (fl (fl (s + fl (of_nat i * word_duration s e (length tokens)))
                               + word_duration s e (length tokens)))) |}.
Proof.
  unfold whisper_subdivide. rewrite list_lookup_imap.
  destruct (tokens !! i) as [tok|]; [|discriminate].
  cbn. intros [= <-]. now exists tok.
Qed.

(** The start of word [0] is the rounded [start + 0]: the start itself
    when it is a double. *)
Lemma first_start (s d : Qc) : is_double s -> fl (s + fl (of_nat 0 * d)) = s.
Proof.
  intros Hs. rewrite of_nat_0.
  replace (0 * d)%Qc with 0%Qc by ring. rewrite fl_0.
  now replace (s + 0)%Qc with s by ring.
Qed.

Lemma rounded_subdivide_first (s e : Qc) (tokens : list jsstring) (w : Word) :
  is_double s ->
  head (rounded_subdivide s e tokens) = Some w -> w_start w = Some (Num s).
Proof.
  intros Hs. rewrite head_lookup. intros Hw.
  apply rounded_subdivide_lookup in Hw as (tok & _ & ->).
  cbn [w_start]. now rewrite first_start.
Qed.

Lemma whisper_subdivide_first (s e : Qc) (tokens : list jsstring) (w : Word) :
  is_double s ->
  head (whisper_subdivide s e tokens) = Some w -> w_start w = Some (Num s).
Proof.
  intros Hs. rewrite head_lookup. intros Hw.
  apply whisper_subdivide_lookup in Hw as (tok & _ & ->).
  cbn [w_start]. now rewrite first_start.
Qed.

(** The end of the last word: [start + n * d] in double precision. *)
Lemma rounded_subdivide_last (s e : Qc) (tokens : list jsstring) (w : Word) :
  last (rounded_subdivide s e tokens) = Some w ->
  w_end w = Some (Num (fl (s + fl (of_nat (length tokens)
                                   * word_duration s e (length tokens))))).
Proof.
  rewrite last_lookup, rounded_subdivide_length. intros Hw.
  apply rounded_subdivide_lookup in Hw as (tok & Htok & ->).
  cbn [w_end]. apply lookup_lt_Some in Htok.
  rewrite <- of_nat_S.
  now replace (S (Nat.pred (length tokens))) with (length tokens) by lia.
Qed.

Lemma word_duration_nonneg (s e : Qc) (n : nat) :
  (s <= e)%Qc -> 0 < n -> (0 <= word_duration s e n)%Qc.
Proof.
  intros Hse Hn. unfold word_duration. apply fl_nonneg.
  assert (He : (0 <= fl (e - s))%Qc).
  { apply fl_nonneg. now apply Qcle_minus_iff in Hse. }
  pose proof (of_nat_pos n Hn) as Hpos.
  apply (Qcmult_lt_0_le_reg_r _ _ (of_nat n) Hpos).
  replace (0 * of_nat n)%Qc with 0%Qc by ring.
  rewrite test_field; [exact He|]. now apply of_nat_neq_0.
Qed.

Lemma word_start_le (s d : Qc) (i j : nat) :
  (0 <= d)%Qc -> i <= j ->
  (fl (s + fl (of_nat i * d)) <= fl (s + fl (of_nat j * d)))%Qc.
Proof.
  intros Hd Hij. apply fl_le.
  apply Qcplus_le_compat; [apply Qcle_refl|].
  apply fl_le. apply Qcmult_le_compat_r; [now apply of_nat_le|exact Hd].
Qed.

Lemma rounded_subdivide_monotone (s e : Qc) (tokens : list jsstring)
    (i j : nat) (wi wj : Word) :
  (s <= e)%Qc ->
  i <= j ->
  rounded_subdivide s e tokens !! i = Some wi ->
  rounded_subdivide s e tokens !! j = Some wj ->
  exists qi qj,
    w_start wi = Some (Num qi) /\ w_start wj = Some (Num qj) /\ (qi <= qj)%Qc.
Proof.
  intros Hse Hij Hi Hj.
  apply rounded_subdivide_lookup in Hi as (toki & Htoki & ->).
  apply rounded_subdivide_lookup in Hj as (tokj & Htokj & ->).
  cbn [w_start]. eexists _, _. split; [reflexivity|]. split; [reflexivity|].
  apply lookup_lt_Some in Htokj.
  apply word_start_le; [|exact Hij].
  apply word_duration_nonneg; [exact Hse|lia].
Qed.

Lemma whisper_subdivide_monotone (s e : Qc) (tokens : list jsstring)
    (i j : nat) (wi wj : Word) :
  (s <= e)%Qc ->
  i <= j ->
  whisper_subdivide s e tokens !! i = Some wi ->
  whisper_subdivide s e tokens !! j = Some wj ->
  exists qi qj,
    w_start wi = Some (Num qi) /\ w_start wj = Some (Num qj) /\ (qi <= qj)%Qc.
Proof.
  intros Hse Hij Hi Hj.
  apply whisper_subdivide_lookup in Hi as (toki & Htoki & ->).
  apply whisper_subdivide_lookup in Hj as (tokj & Htokj & ->).
  cbn [w_start]. eexists _, _. split; [reflexivity|]. split; [reflexivity|].
  apply lookup_lt_Some in Htokj.
  apply word_start_le; [|exact Hij].
  apply word_duration_nonneg; [exact Hse|lia].
Qed.

(** ** The segment paths, once every callback returns *)

Lemma processGemini_cues (transcription : Transcription) (segs : list Segment) :
  t_segments transcription = Some segs ->
  segs <> [] ->
  (forall seg, In seg segs -> s_text seg <> None) ->
  processGeminiTranscription (Some transcription)
  = Return (imap (fun index segment =>
      {| c_id := index + 1;
         c_start := s_start segment;
         c_end := s_end segment;
         c_text := default [] (s_text segment);
         c_words := Some (imap (spread_word (s_start segment) (s_end segment)
                                  (length (split_space (default [] (s_text segment)))))
                               (split_space (default [] (s_text segment)))) |}) segs).
Proof.
  intros Hsegs Hne Htext. unfold processGeminiTranscription.
  cbn [deref mbind Res_bind]. rewrite Hsegs.
  destruct segs as [|seg0 segs']; [contradiction|].
  cbn [missing_or_empty length Nat.eqb default from_option id].
  apply js_map_return. intros k seg Hk.
  apply list_elem_of_lookup_2, list_elem_of_In, Htext in Hk.
  destruct (s_text seg) as [text|]; [reflexivity | contradiction].
Qed.

Lemma processWhisper_cpp_cues (transcription : Transcription) (segs : list Segment) :
  t_transcription transcription = Some segs ->
  processWhisperTranscription (Some transcription)
  = Return (imap (fun index segment =>
      let startTime :=
        or_else (fl_div (to_number (s_offsets segment ≫= o_from)) (Num (of_Z 1000)))
                (Num 0%Qc) in
      let endTime :=
        or_else (fl_div (to_number (s_offsets segment ≫= o_to)) (Num (of_Z 1000)))
                (fl_add startTime (Num (of_Z 3))) in
      let text := or_lit (trim <$> s_text segment) [] in
      let allWords :=
        List.filter (fun word => negb (Nat.eqb (length word) 0)) (split_space text) in
      {| c_id := index + 1;
         c_start := Some startTime;
         c_end := Some endTime;
         c_text := text;
         c_words := Some (imap (fun wordIndex word =>
            let segmentDuration := fl_sub endTime startTime in
            let wordDuration := fl_div segmentDuration (Num (of_nat (length allWords))) in
            let wordStartTime :=
              fl_add startTime (fl_mul (Num (of_nat wordIndex)) wordDuration) in
            {| w_word := Some word;
               w_text := None;
               w_start := Some wordStartTime;
               w_end := Some (fl_add wordStartTime wordDuration) |}) allWords) |}) segs).
Proof.
  intros Hsegs. unfold processWhisperTranscription.
  cbn [deref mbind Res_bind]. rewrite Hsegs.
  apply js_map_return. reflexivity.
Qed.

(** The start and end of a whisper.cpp segment with numeric offsets: the
    offsets divided by 1000 in double precision, the end unless the
    quotient is zero. *)
Lemma whisper_cpp_span (f t : Qc) :
  or_else (fl_div (Num f) (Num (of_Z 1000))) (Num 0%Qc) = Num (fl (f / of_Z 1000))
  /\ (fl (t / of_Z 1000) <> 0%Qc ->
      forall fallback,
        or_else (fl_div (Num t) (Num (of_Z 1000))) fallback = Num (fl (t / of_Z 1000))).
Proof.
  assert (Hk : of_Z 1000 <> 0%Qc).
  { intros H. apply (f_equal this) in H. discriminate. }
  assert (Hkb : Qc_eqb (of_Z 1000) 0%Qc = false) by now apply Qc_eqb_neq.
  unfold or_else, fl_div, js_div, truthy_num. rewrite Hkb. cbn [round]. split.
  - destruct (Qc_eqb (fl (f / of_Z 1000)) 0%Qc) eqn:E; cbn [negb]; [|reflexivity].
    apply Qc_eqb_eq in E. now rewrite E.
  - intros Ht fallback. apply Qc_eqb_neq in Ht. now rewrite Ht.
Qed.

Lemma processWhisper_segments_cues (transcription : Transcription) (segs : list Segment) :
  t_transcription transcription = None ->
  t_segments transcription = Some segs ->
  segs <> [] ->
  (forall seg, In seg segs -> s_words seg <> None \/ s_text seg <> None) ->
  processWhisperTranscription (Some transcription)
  = Return (imap (fun index segment =>
      {| c_id := index + 1;
         c_start := or_num (s_start segment) (Some (Num 0%Qc));
         c_end := or_num (s_end segment)
                    (Some (js_add (to_number (s_start segment)) (Num (of_Z 3))));
         c_text := or_lit (s_text segment) [];
         c_words := Some
           match s_words segment with
           | Some segment_words =>
               map (fun word =>
                      {| w_word := or_str (w_word word) (w_text word);
                         w_text := None;
                         w_start := or_num (w_start word) (s_start segment);
                         w_end := or_num (w_end word)
                                    (Some (js_add (to_number (w_start word)) (Num half))) |})
                   segment_words
           | None =>
               imap (spread_word (s_start segment) (s_end segment)
                       (length (split_space (default [] (s_text segment)))))
                    (split_space (default [] (s_text segment)))
           end |}) segs).
Proof.
  intros Hcpp Hsegs Hne Hok. unfold processWhisperTranscription.
  cbn [deref mbind Res_bind]. rewrite Hcpp, Hsegs.
  destruct segs as [|seg0 segs']; [contradiction|].
  cbn [missing_or_empty length Nat.eqb default from_option id].
  apply js_map_return. intros k seg Hk.
  apply list_elem_of_lookup_2, list_elem_of_In, Hok in Hk.
  destruct (s_words seg) as [ws|]; [reflexivity|].
  destruct (s_text seg) as [text|]; [reflexivity|].
  now destruct Hk.
Qed.

(** The single cue of the fallback branches. *)
Lemma processTranscription_fallback (transcription : Transcription) :
  t_words transcription = None \/ t_words transcription = Some [] ->
  processTranscription (Some transcription)
  = Return [ {| c_id := 1; c_start := Some (Num 0%Qc); c_end := Some (Num (of_Z 5));
                c_text := or_lit (t_text transcription) no_captions;
                c_words := None |} ].
Proof.
  intros [H|H]; unfold processTranscription; cbn [deref mbind Res_bind];
    now rewrite H.
Qed.

Lemma processGemini_fallback (transcription : Transcription) :
  t_segments transcription = None \/ t_segments transcription = Some [] ->
  processGeminiTranscription (Some transcription)
  = Return [ {| c_id := 1; c_start := Some (Num 0%Qc); c_end := Some (Num (of_Z 5));
                c_text := or_lit (t_text transcription) no_captions;
                c_words := None |} ].
Proof.
  intros [H|H]; unfold processGeminiTranscription; cbn [deref mbind Res_bind];
    now rewrite H.
Qed.

Lemma processWhisper_fallback (transcription : Transcription) :
  t_transcription transcription = None ->
  t_segments transcription = None \/ t_segments transcription = Some [] ->
  processWhisperTranscription (Some transcription)
  = Return [ {| c_id := 1; c_start := Some (Num 0%Qc); c_end := Some (Num (of_Z 5));
                c_text := or_lit (t_text transcription) no_captions;
                c_words := Some (imap (fun index word =>
                  {| w_word := Some word;
                     w_text := None;
                     w_start := Some (Num (of_nat index * half)%Qc);
                     w_end := Some (Num ((of_nat index + 1) * half)%Qc) |})
                  (split_space (or_lit (t_text transcription) no_captions))) |} ].
Proof.
  intros Hcpp [H|H]; unfold processWhisperTranscription;
    cbn [deref mbind Res_bind]; now rewrite Hcpp, H.
Qed.
(** ** C2: uniform subdivision *)

Lemma or_lit_nil (s : jsstring) : or_lit (Some s) [] = s.
Proof. now destruct s. Qed.

(** The text is cut at each single space and nowhere else: in "a  b" (two
    spaces) the empty piece between the spaces is kept as a word of its
    own and the span is divided in three, and "a<TAB>b" stays one word over
    the whole span; the specification has the two tokens "a" and "b" share
    the span in both cases. *)
Lemma gemini_cuts_at_single_spaces :
  let raw text :=
    Some {| t_text := None; t_words := None;
            t_segments := Some [ {| s_start := Some (ratio 0 1);
                                    s_end := Some (ratio 3 1);
                                    s_text := Some text;
                                    s_words := None; s_offsets := None |} ];
            t_transcription := None |} in
  let doubled := lit "a  b" in
  let tabbed := [97; 9; 98]%N in
  spec_tokens doubled = [lit "a"; lit "b"]
  /\ spec_tokens tabbed = [lit "a"; lit "b"]
  /\ (exists cue,
        processGeminiTranscription (raw doubled) = Return [cue]
        /\ c_words cue = Some [ timed_word (lit "a") (ratio 0 1) (ratio 1 1);
                                timed_word [] (ratio 1 1) (ratio 2 1);
                                timed_word (lit "b") (ratio 2 1) (ratio 3 1) ]
        /\ c_words cue <> Some (spec_subdivide 0%Qc (of_Z 3) (spec_tokens doubled)))
  /\ (exists cue,
        processGeminiTranscription (raw tabbed) = Return [cue]
        /\ c_words cue = Some [ timed_word tabbed (ratio 0 1) (ratio 3 1) ]
        /\ c_words cue <> Some (spec_subdivide 0%Qc (of_Z 3) (spec_tokens tabbed))).
Proof.
  cbv zeta. split; [reflexivity|]. split; [reflexivity|].
  split; eexists; (split; [|split]).
  - vm_compute. reflexivity.
  - by_eqb.
  - intros H. apply (f_equal (fun o => length <$> o)) in H.
    vm_compute in H. discriminate.
  - vm_compute. reflexivity.
  - by_eqb.
  - intros H. apply (f_equal (fun o => length <$> o)) in H.
    vm_compute in H. discriminate.
Qed.

(** The segment from 0 to 0.9 with the text "a b c", on the Gemini path:
    the word duration is the double 0.3 (a little below three tenths), and
    three times it, rounded, is the double 0.8999999999999999, one unit in
    the last place below the double 0.9. *)
Lemma last_word_ends_before_the_segment :
  let segment :=
    {| s_start := Some (double 0 1); s_end := Some (double 9 10);
       s_text := Some (lit "a b c"); s_words := None; s_offsets := None |} in
  let raw :=
    Some {| t_text := None; t_words := None; t_segments := Some [segment];
            t_transcription := None |} in
  spec_tokens (lit "a b c") = split_space (lit "a b c")
  /\ exists cue ws final,
       processGeminiTranscription raw = Return [cue]
       /\ c_words cue = Some ws
       /\ last ws = Some final
       /\ c_end cue = Some (double 9 10)
       /\ w_end final = Some (double 8999999999999999 10000000000000000)
       /\ w_end final <> c_end cue.
Proof.
  cbv zeta. split; [reflexivity|].
  eexists _, _, _. repeat apply conj.
  - vm_compute. reflexivity.
  - reflexivity.
  - reflexivity.
  - reflexivity.
  - by_eqb.
  - apply opt_num_neq. vm_compute. reflexivity.
Qed.

(** C2 fails as stated, twice: the tokens are the pieces between single
    spaces, not the whitespace-separated words, and the timings are
    computed in double precision, so that the last word need not end at the
    end of the span. *)
Lemma subdivision_differs_from_the_claim :
  (let doubled := lit "a  b" in
   spec_tokens doubled = [lit "a"; lit "b"]
   /\ exists cue,
        processGeminiTranscription
          (Some {| t_text := None; t_words := None;
                   t_segments := Some [ {| s_start := Some (ratio 0 1);
                                           s_end := Some (ratio 3 1);
                                           s_text := Some doubled;
                                           s_words := None; s_offsets := None |} ];
                   t_transcription := None |}) = Return [cue]
        /\ c_words cue = Some [ timed_word (lit "a") (ratio 0 1) (ratio 1 1);
                                timed_word [] (ratio 1 1) (ratio 2 1);
                                timed_word (lit "b") (ratio 2 1) (ratio 3 1) ]
        /\ c_words cue <> Some (spec_subdivide 0%Qc (of_Z 3) (spec_tokens doubled)))
  /\ (spec_tokens (lit "a b c") = split_space (lit "a b c")
      /\ exists cue ws final,
           processGeminiTranscription
             (Some {| t_text := None; t_words := None;
                      t_segments := Some [ {| s_start := Some (double 0 1);
                                              s_end := Some (double 9 10);
                                              s_text := Some (lit "a b c");
                                              s_words := None; s_offsets := None |} ];
                      t_transcription := None |}) = Return [cue]
           /\ c_words cue = Some ws
           /\ last ws = Some final
           /\ c_end cue = Some (double 9 10)
           /\ w_end final = Some (double 8999999999999999 10000000000000000)
           /\ w_end final <> c_end cue).
Proof.
  split.
  - destruct gemini_cuts_at_single_spaces as (Htok & _ & Hdoubled & _).
    split; [exact Htok | exact Hdoubled].
  - exact last_word_ends_before_the_segment.
Qed.

(** C2, as the code has it. Every difference, quotient, product and sum
    of the timings is a double-precision operation.
    - On the Gemini path a segment with numeric [start] and [end] whose
      text, cut at single spaces, gives exactly the non-empty
      whitespace-separated tokens, has the words of the subdivision of its
      span: with [d] the quotient of [end - start] by the number of tokens,
      token [i] runs from [start + i * d] to [start + (i + 1) * d].
    - On the whisper.cpp path the text is trimmed, cut at single spaces and
      the empty pieces are discarded; the span runs from [from / 1000] to
      [to / 1000], token [i] starts at [start + i * d] and ends [d] later;
      with no token left there is no word.
    - Either subdivision has one word per token, the first word starts at
      [start] when [start] is a double, and the start times do not decrease
      when [start <= end]; the last word of the first ends at
      [start + n * d], which is [end] up to rounding only.
    - Start 3, end 6 and "one two three" give one [3,4], two [4,5],
      three [5,6]. *)
Theorem uniform_subdivision_of_segments :
  (forall transcription segs k segment s e text,
     t_segments transcription = Some segs ->
     (forall seg, In seg segs -> s_text seg <> None) ->
     segs !! k = Some segment ->
     s_start segment = Some (Num s) ->
     s_end segment = Some (Num e) ->
     s_text segment = Some text ->
     split_space text = spec_tokens text ->
     exists cues cue,
       processGeminiTranscription (Some transcription) = Return cues
       /\ cues !! k = Some cue
       /\ c_words cue = Some (rounded_subdivide s e (spec_tokens text)))
  /\ (forall transcription segs k segment f t text,
     t_transcription transcription = Some segs ->
     segs !! k = Some segment ->
     s_offsets segment = Some {| o_from := Some (Num f); o_to := Some (Num t) |} ->
     fl (t / of_Z 1000) <> 0%Qc ->
     s_text segment = Some text ->
     exists cues cue,
       processWhisperTranscription (Some transcription) = Return cues
       /\ cues !! k = Some cue
       /\ c_words cue
          = Some (whisper_subdivide (fl (f / of_Z 1000)) (fl (t / of_Z 1000))
                    (List.filter nonempty (split_space (trim text))))
       /\ (List.filter nonempty (split_space (trim text)) = [] ->
           c_words cue = Some []))
  /\ (forall s e tokens,
        length (rounded_subdivide s e tokens) = length tokens
        /\ length (whisper_subdivide s e tokens) = length tokens
        /\ (is_double s ->
            (forall w, head (rounded_subdivide s e tokens) = Some w ->
                       w_start w = Some (Num s))
            /\ (forall w, head (whisper_subdivide s e tokens) = Some w ->
                          w_start w = Some (Num s)))
        /\ (forall w, last (rounded_subdivide s e tokens) = Some w ->
                      w_end w
                      = Some (Num (fl (s + fl (of_nat (length tokens)
                                               * word_duration s e (length tokens))))))
        /\ ((s <= e)%Qc ->
            forall i j,
              i <= j ->
              (forall wi wj,
                 rounded_subdivide s e tokens !! i = Some wi ->
                 rounded_subdivide s e tokens !! j = Some wj ->
                 exists qi qj,
                   w_start wi = Some (Num qi) /\ w_start wj = Some (Num qj)
                   /\ (qi <= qj)%Qc)
              /\ (forall wi wj,
                    whisper_subdivide s e tokens !! i = Some wi ->
                    whisper_subdivide s e tokens !! j = Some wj ->
                    exists qi qj,
                      w_start wi = Some (Num qi) /\ w_start wj = Some (Num qj)
                      /\ (qi <= qj)%Qc)))
  /\ rounded_subdivide (of_Z 3) (of_Z 6) (spec_tokens (lit "one two three"))
     = [ timed_word (lit "one") (ratio 3 1) (ratio 4 1);
         timed_word (lit "two") (ratio 4 1) (ratio 5 1);
         timed_word (lit "three") (ratio 5 1) (ratio 6 1) ].
Proof.
  split; [|split; [|split]].
  - intros transcription segs k segment s e text Hsegs Htext Hk Hs He Ht Htok.
    assert (Hne : segs <> []) by (intros ->; discriminate).
    eexists _, _. split; [exact (processGemini_cues _ segs Hsegs Hne Htext)|].
    split; [rewrite list_lookup_imap, Hk; reflexivity|].
    cbn [c_words]. rewrite Hs, He, Ht. cbn [default from_option id].
    now rewrite imap_spread_word, Htok.
  - intros transcription segs k segment f t text Hsegs Hk Hoff Ht Htext.
    eexists _, _. split; [exact (processWhisper_cpp_cues _ segs Hsegs)|].
    split; [rewrite list_lookup_imap, Hk; reflexivity|].
    cbv zeta. cbn [c_words]. rewrite Hoff, Htext.
    cbn [mbind option_bind o_from o_to to_number fmap option_fmap option_map].
    destruct (whisper_cpp_span f t) as [-> Hend]. rewrite (Hend Ht).
    rewrite or_lit_nil.
    fold nonempty.
    rewrite imap_whisper_word.
    match goal with
    | |- ?lhs = ?rhs /\ _ => assert (Hw : lhs = rhs) by reflexivity
    end.
    split; [exact Hw|]. intros Hnone. now rewrite Hw, Hnone.
  - intros s e tokens.
    split; [apply rounded_subdivide_length|].
    split; [apply whisper_subdivide_length|].
    split; [|split].
    + intros Hs. split; intros w.
      * now apply rounded_subdivide_first.
      * now apply whisper_subdivide_first.
    + apply rounded_subdivide_last.
    + intros Hse i j Hij. split; intros wi wj.
      * now apply rounded_subdivide_monotone.
      * now apply whisper_subdivide_monotone.
  - by_eqb.
Qed.

Lemma uniform_subdivision_of_segments_witness :
  let segment :=
    {| s_start := Some (Num (of_Z 3)); s_end := Some (Num (of_Z 6));
       s_text := Some (lit "one two three"); s_words := None; s_offsets := None |} in
  let transcription :=
    {| t_text := None; t_words := None; t_segments := Some [segment];
       t_transcription := None |} in
  exists cues cue,
    processGeminiTranscription (Some transcription) = Return cues
    /\ cues !! 0 = Some cue
    /\ c_words cue
       = Some (rounded_subdivide (of_Z 3) (of_Z 6) (spec_tokens (lit "one two three"))).
Proof.
  cbv zeta.
  set (segment := mkSegment (Some (Num (of_Z 3))) (Some (Num (of_Z 6)))
                            (Some (lit "one two three")) None None).
  apply (proj1 uniform_subdivision_of_segments
               (mkTranscription None None (Some [segment]) None)
               [segment] 0 segment (of_Z 3) (of_Z 6) (lit "one two three"));
    try reflexivity.
  intros seg [<-|[]]; discriminate.
Defined.

(** ** C3: which inputs make a normalizer raise *)

(** C3 fails as stated: every normalizer reads a property of its argument
    first, so [null] raises a TypeError in all three; and a segment without
    [text] makes [segment.text.split] raise on the Gemini path and, when it
    has no word array either, on the Whisper path. *)
Lemma normalizers_raise :
  let no_text :=
    {| t_text := None; t_words := None;
       t_segments := Some [ {| s_start := Some (ratio 0 1); s_end := Some (ratio 1 1);
                               s_text := None; s_words := None; s_offsets := None |} ];
       t_transcription := None |} in
  processTranscription None = Throws TypeError
  /\ processWhisperTranscription None = Throws TypeError
  /\ processGeminiTranscription None = Throws TypeError
  /\ processGeminiTranscription (Some no_text) = Throws TypeError
  /\ processWhisperTranscription (Some no_text) = Throws TypeError.
Proof. cbv zeta. repeat split. Qed.

Lemma imap_nonempty {A B} (f : nat -> A -> B) (l : list A) :
  l <> [] -> imap f l <> [].
Proof. destruct l; [contradiction | discriminate]. Qed.

(** C3, as the code has it. Called with an object, [processTranscription]
    always returns a transcript of at least one cue;
    [processGeminiTranscription] does when every segment has a [text];
    [processWhisperTranscription] returns when the input is in the
    whisper.cpp format, with one cue per entry of the array (none for an
    empty array), or when every segment has a word array or a [text], then
    with at least one cue. Absent [start], [end], [offsets], word arrays
    and word fields never make them raise. *)
Theorem normalizers_return_on_objects (transcription : Transcription) :
  (exists cues, processTranscription (Some transcription) = Return cues /\ cues <> [])
  /\ ((forall seg, In seg (default [] (t_segments transcription)) ->
                   s_text seg <> None) ->
      exists cues,
        processGeminiTranscription (Some transcription) = Return cues /\ cues <> [])
  /\ ((t_transcription transcription = None ->
       forall seg, In seg (default [] (t_segments transcription)) ->
                   s_words seg <> None \/ s_text seg <> None) ->
      exists cues,
        processWhisperTranscription (Some transcription) = Return cues
        /\ (forall cpp, t_transcription transcription = Some cpp ->
                        length cues = length cpp)
        /\ (t_transcription transcription <> Some [] -> cues <> [])).
Proof.
  repeat apply conj.
  - destruct (t_words transcription) as [[|w ws]|] eqn:Hws.
    + eexists. split; [apply processTranscription_fallback; now right | discriminate].
    + eexists. split; [now apply (processTranscription_cues _ (w :: ws))|].
      intros H. apply (f_equal length) in H.
      rewrite length_map, length_seq in H.
      pose proof (ceil_div_covers (length (w :: ws))) as Hc.
      rewrite H in Hc. cbn in Hc. lia.
    + eexists. split; [apply processTranscription_fallback; now left | discriminate].
  - intros Htext. destruct (t_segments transcription) as [[|seg segs]|] eqn:Hsegs.
    + eexists. split; [apply processGemini_fallback; now right | discriminate].
    + eexists. split; [now apply (processGemini_cues _ (seg :: segs))|].
      now apply imap_nonempty.
    + eexists. split; [apply processGemini_fallback; now left | discriminate].
  - intros Hok. destruct (t_transcription transcription) as [cpp|] eqn:Hcpp.
    { eexists. split; [exact (processWhisper_cpp_cues _ cpp Hcpp)|]. split.
      - intros cpp' [= <-]. apply length_imap.
      - intros Hne. apply imap_nonempty. congruence. }
    specialize (Hok eq_refl).
    destruct (t_segments transcription) as [[|seg segs]|] eqn:Hsegs.
    + eexists. split; [apply processWhisper_fallback; auto|].
      split; [discriminate | discriminate].
    + eexists. split; [now apply (processWhisper_segments_cues _ (seg :: segs))|].
      split; [discriminate|]. intros _. now apply imap_nonempty.
    + eexists. split; [apply processWhisper_fallback; auto|].
      split; [discriminate | discriminate].
Qed.

(** A segment list whose entries carry nothing but a text, and an empty
    whisper.cpp array. *)
Lemma normalizers_return_on_objects_witness :
  let bare :=
    {| t_text := None; t_words := None;
       t_segments := Some [ {| s_start := None; s_end := None;
                               s_text := Some (lit "hi");
                               s_words := None; s_offsets := None |} ];
       t_transcription := None |} in
  let empty :=
    {| t_text := None; t_words := None; t_segments := None;
       t_transcription := Some [] |} in
  (exists cues, processGeminiTranscription (Some bare) = Return cues /\ cues <> [])
  /\ (exists cues, processWhisperTranscription (Some bare) = Return cues
                   /\ (forall cpp, t_transcription bare = Some cpp ->
                                   length cues = length cpp)
                   /\ (t_transcription bare <> Some [] -> cues <> []))
  /\ (exists cues, processWhisperTranscription (Some empty) = Return cues
                   /\ (forall cpp, t_transcription empty = Some cpp ->
                                   length cues = length cpp)
                   /\ (t_transcription empty <> Some [] -> cues <> [])).
Proof.
  cbv zeta. split; [|split].
  - apply (proj1 (proj2 (normalizers_return_on_objects _))).
    intros seg [<-|[]]. discriminate.
  - apply (proj2 (proj2 (normalizers_return_on_objects _))).
    intros _ seg [<-|[]]. right. discriminate.
  - apply (proj2 (proj2 (normalizers_return_on_objects _))).
    discriminate.
Defined.

(** ** C6: the fallback cue *)

(** C6 fails as stated on the Whisper path: for [{ text: "", segments: [] }]
    the fallback cue of [processWhisperTranscription] carries three words,
    cut from the placeholder text at half a second each. *)
Lemma whisper_fallback_has_words :
  let raw :=
    Some {| t_text := Some []; t_words := None; t_segments := Some [];
            t_transcription := None |} in
  exists cue,
    processWhisperTranscription raw = Return [cue]
    /\ c_text cue = no_captions
    /\ c_words cue = Some [ timed_word (lit "No") (ratio 0 1) (ratio 1 2);
                            timed_word (lit "captions") (ratio 1 2) (ratio 1 1);
                            timed_word (lit "available") (ratio 1 1) (ratio 3 2) ].
Proof.
  cbv zeta. eexists. split; [|split].
  - apply processWhisper_fallback; [reflexivity | now right].
  - reflexivity.
  - by_eqb.
Qed.

(** C6, as the code has it. With no word list ([processTranscription]) or
    no segments (the two segment normalizers; for
    [processWhisperTranscription] also no whisper.cpp array) the result is
    one cue with id 1, start 0, end 5 and the raw text, or the placeholder
    when the text is empty or absent. The cue has no words in
    [processTranscription] and [processGeminiTranscription]; in
    [processWhisperTranscription] it has one word per piece of the text
    between single spaces, piece [i] from [i/2] to [(i+1)/2]. *)
Theorem fallback_single_cue (transcription : Transcription) :
  ((t_text transcription = None \/ t_text transcription = Some []) ->
   or_lit (t_text transcription) no_captions = no_captions)
  /\ (forall s, t_text transcription = Some s -> s <> [] ->
                or_lit (t_text transcription) no_captions = s)
  /\ (t_words transcription = None \/ t_words transcription = Some [] ->
      processTranscription (Some transcription)
      = Return [ {| c_id := 1; c_start := Some (Num 0%Qc); c_end := Some (Num (of_Z 5));
                    c_text := or_lit (t_text transcription) no_captions;
                    c_words := None |} ])
  /\ (t_segments transcription = None \/ t_segments transcription = Some [] ->
      processGeminiTranscription (Some transcription)
      = Return [ {| c_id := 1; c_start := Some (Num 0%Qc); c_end := Some (Num (of_Z 5));
                    c_text := or_lit (t_text transcription) no_captions;
                    c_words := None |} ])
  /\ (t_transcription transcription = None ->
      t_segments transcription = None \/ t_segments transcription = Some [] ->
      exists ws,
        processWhisperTranscription (Some transcription)
        = Return [ {| c_id := 1; c_start := Some (Num 0%Qc);
                      c_end := Some (Num (of_Z 5));
                      c_text := or_lit (t_text transcription) no_captions;
                      c_words := Some ws |} ]
        /\ length ws = length (split_space (or_lit (t_text transcription) no_captions))
        /\ forall i tok,
             split_space (or_lit (t_text transcription) no_captions) !! i = Some tok ->
             ws !! i = Some (timed_word tok (Num (of_nat i * half)%Qc)
                                        (Num ((of_nat i + 1) * half)%Qc))).
Proof.
  repeat apply conj.
  - intros [-> | ->]; reflexivity.
  - intros s -> Hs. now destruct s.
  - apply processTranscription_fallback.
  - apply processGemini_fallback.
  - intros Hcpp Hsegs. eexists. split; [now apply processWhisper_fallback|].
    split; [apply length_imap|].
    intros i tok Htok. now rewrite list_lookup_imap, Htok.
Qed.

(** The scenario of the specification, [{ text: "", segments: [] }], on the
    Gemini path. *)
Lemma fallback_single_cue_witness :
  processGeminiTranscription
    (Some {| t_text := Some []; t_words := None; t_segments := Some [];
             t_transcription := None |})
  = Return [ {| c_id := 1; c_start := Some (Num 0%Qc); c_end := Some (Num (of_Z 5));
                c_text := lit "No captions available"; c_words := None |} ].
Proof.
  apply (proj1 (proj2 (proj2 (proj2
           (fallback_single_cue
              {| t_text := Some []; t_words := None; t_segments := Some [];
                 t_transcription := None |}))))).
  now right.
Defined.

(** ** C7: word arrays supplied by the segment *)


Lemma or_num_truthy (q : Qc) (b : option jsnum) :
  q <> 0%Qc -> or_num (Some (Num q)) b = Some (Num q).
Proof.
  intros Hq. unfold or_num, truthy_num.
  apply Qc_eqb_neq in Hq. now rewrite Hq.
Qed.

Lemma or_num_zero_default (q : Qc) :
  or_num (Some (Num q)) (Some (Num 0%Qc)) = Some (Num q).
Proof.
  unfold or_num, truthy_num.
  destruct (Qc_eqb q 0%Qc) eqn:E; [|reflexivity].
  apply Qc_eqb_eq in E. now subst.
Qed.



(** ** C8: cues against their derived words *)

Lemma split_space_cons (s : jsstring) :
  exists tok rest, split_space s = tok :: rest.
Proof.
  induction s as [|c s' (tok & rest & IH)]; cbn [split_space]; [now eexists _, _|].
  rewrite IH. destruct (N.eqb c space); now eexists _, _.
Qed.

(** Joining with single spaces undoes the cut at single spaces. *)
Lemma join_split (s : jsstring) :
  join_space (map Some (split_space s)) = s.
Proof.
  induction s as [|c s' IH]; [reflexivity|].
  cbn [split_space].
  destruct (split_space_cons s') as (tok & rest & Hs'). rewrite Hs' in IH |- *.
  destruct (N.eqb c space) eqn:Hc.
  - apply N.eqb_eq in Hc. subst c.
    change (join_space (map Some ([] :: tok :: rest)))
      with (space :: join_space (map Some (tok :: rest))).
    now rewrite IH.
  - destruct rest as [|p ps].
    + cbn in IH |- *. now rewrite IH.
    + change (join_space (map Some ((c :: tok) :: p :: ps)))
        with (c :: (tok ++ space :: join_space (map Some (p :: ps)))).
      f_equal. exact IH.
Qed.

Lemma imap_words_text (g : nat -> jsstring -> Word) (tokens : list jsstring) :
  (forall i tok, w_word (g i tok) = Some tok) ->
  map w_word (imap g tokens) = map Some tokens.
Proof.
  intros Hg. revert g Hg.
  induction tokens as [|tok tokens IH]; intros g Hg; [reflexivity|].
  rewrite imap_cons. cbn [map]. rewrite Hg. f_equal.
  apply IH. intros i tok'. apply Hg.
Qed.

Lemma rounded_subdivide_text (s e : Qc) (tokens : list jsstring) :
  map w_word (rounded_subdivide s e tokens) = map Some tokens.
Proof. unfold rounded_subdivide. now apply imap_words_text. Qed.

Lemma head_last_nonempty {A} (l : list A) :
  0 < length l -> exists first final, head l = Some first /\ last l = Some final.
Proof.
  intros Hl. destruct l as [|x l]; [cbn in Hl; lia|].
  destruct (last (x :: l)) as [y|] eqn:Hy; [now exists x, y|].
  apply last_None in Hy. discriminate.
Qed.

(** On the demo path the first cue ends at 3, while the last of its six
    words, paced at 0.4 s, ends at six times 0.4, the double
    2.4000000000000004. *)
Lemma demo_cue_outlasts_its_words :
  exists cue ws final,
    generateDemoCaptions !! 0 = Some cue
    /\ c_words cue = Some ws
    /\ last ws = Some final
    /\ c_end cue = Some (ratio 3 1)
    /\ w_end final = Some (double 24000000000000004 10000000000000000)
    /\ c_end cue <> w_end final.
Proof.
  eexists _, _, _. repeat apply conj.
  - vm_compute. reflexivity.
  - reflexivity.
  - reflexivity.
  - by_eqb.
  - by_eqb.
  - apply opt_num_neq. vm_compute. reflexivity.
Qed.

(** C8 fails as stated, twice. The cues of the fixed-pace paths end at a
    fixed time, not with their last word: the first demo cue ends at 3 and
    its last word at 2.4000000000000004. And the words subdivided from a segment are timed
    in double precision: the cue of the segment from 0 to 0.9 with the text
    "a b c" ends at 0.9 and its last word at 0.8999999999999999. *)
Lemma cue_end_differs_from_last_word :
  (exists cue ws final,
     generateDemoCaptions !! 0 = Some cue
     /\ c_words cue = Some ws
     /\ last ws = Some final
     /\ c_end cue = Some (ratio 3 1)
     /\ w_end final = Some (double 24000000000000004 10000000000000000)
     /\ c_end cue <> w_end final)
  /\ (exists cue ws final,
        processGeminiTranscription
          (Some {| t_text := None; t_words := None;
                   t_segments := Some [ {| s_start := Some (double 0 1);
                                           s_end := Some (double 9 10);
                                           s_text := Some (lit "a b c");
                                           s_words := None; s_offsets := None |} ];
                   t_transcription := None |}) = Return [cue]
        /\ c_words cue = Some ws
        /\ last ws = Some final
        /\ c_end cue = Some (double 9 10)
        /\ w_end final = Some (double 8999999999999999 10000000000000000)
        /\ w_end final <> c_end cue).
Proof.
  split; [exact demo_cue_outlasts_its_words|].
  exact (proj2 last_word_ends_before_the_segment).
Qed.

(** The first word of a demo cue starts with the cue: three times the
    index of the cue is a double. *)
Lemma demo_cue_start (index : nat) :
  index < length demoTexts ->
  fl (of_nat index * of_Z 3 + fl (of_nat 0 * two_fifths)) = (of_nat index * of_Z 3)%Qc.
Proof.
  intros Hk. unfold demoTexts in Hk. cbn [length] in Hk.
  do 6 (destruct index as [|index];
        [apply Qc_is_canon; vm_compute; reflexivity|]).
  lia.
Qed.

(** C8, as the code has it.
    - A cue of the windowing path starts with its first word, ends with its
      last, and its text is its words joined by single spaces and trimmed.
    - A cue subdivided from a segment with numeric [start] and [end], the
      start a double (Gemini path; Whisper path for a segment without word
      array whose [end] is not zero), starts with its first word and its
      text is its words joined by single spaces; it ends at the segment's
      [end], and its last word at [start + n * d] for the [n] words of
      duration [d], computed in double precision.
    - A cue of the whisper.cpp path with numeric offsets, the end offset
      not rounding to zero, starts with its first word and ends at
      [to / 1000]; its last word ends one duration after its own start.
    - A cue of the fixed-pace paths (the demo captions, the text fallback
      of the Whisper path) starts with its first word and its text is its
      words joined by single spaces; nothing is said of its end. *)
Theorem derived_cue_matches_words :
  (forall transcription ws cues cue,
     t_words transcription = Some ws ->
     ws <> [] ->
     processTranscription (Some transcription) = Return cues ->
     In cue cues ->
     exists window first final,
       c_words cue = Some window
       /\ head window = Some first
       /\ last window = Some final
       /\ c_start cue = w_start first
       /\ c_end cue = w_end final
       /\ c_text cue = trim (join_space (map w_word window)))
  /\ (forall transcription segs k segment s e,
     t_segments transcription = Some segs ->
     (forall seg, In seg segs -> s_text seg <> None) ->
     segs !! k = Some segment ->
     s_start segment = Some (Num s) ->
     s_end segment = Some (Num e) ->
     is_double s ->
     exists cues cue ws first final,
       processGeminiTranscription (Some transcription) = Return cues
       /\ cues !! k = Some cue
       /\ c_words cue = Some ws
       /\ head ws = Some first
       /\ last ws = Some final
       /\ c_start cue = w_start first
       /\ c_end cue = Some (Num e)
       /\ w_end final
          = Some (Num (fl (s + fl (of_nat (length ws)
                                   * word_duration s e (length ws)))))
       /\ c_text cue = join_space (map w_word ws))
  /\ (forall transcription segs k segment s e,
     t_transcription transcription = None ->
     t_segments transcription = Some segs ->
     (forall seg, In seg segs -> s_words seg <> None \/ s_text seg <> None) ->
     segs !! k = Some segment ->
     s_words segment = None ->
     s_start segment = Some (Num s) ->
     s_end segment = Some (Num e) ->
     e <> 0%Qc ->
     is_double s ->
     exists cues cue ws first final,
       processWhisperTranscription (Some transcription) = Return cues
       /\ cues !! k = Some cue
       /\ c_words cue = Some ws
       /\ head ws = Some first
       /\ last ws = Some final
       /\ c_start cue = w_start first
       /\ c_end cue = Some (Num e)
       /\ w_end final
          = Some (Num (fl (s + fl (of_nat (length ws)
                                   * word_duration s e (length ws)))))
       /\ c_text cue = join_space (map w_word ws))
  /\ (forall transcription segs k segment f t,
     t_transcription transcription = Some segs ->
     segs !! k = Some segment ->
     s_offsets segment = Some {| o_from := Some (Num f); o_to := Some (Num t) |} ->
     fl (t / of_Z 1000) <> 0%Qc ->
     exists cues cue ws,
       processWhisperTranscription (Some transcription) = Return cues
       /\ cues !! k = Some cue
       /\ c_words cue = Some ws
       /\ c_end cue = Some (Num (fl (t / of_Z 1000)))
       /\ (forall first, head ws = Some first -> c_start cue = w_start first)
       /\ (forall final, last ws = Some final ->
             exists a, w_start final = Some (Num a)
                       /\ w_end final
                          = Some (Num (fl (a + word_duration (fl (f / of_Z 1000))
                                                 (fl (t / of_Z 1000)) (length ws))))))
  /\ (forall k cue,
     generateDemoCaptions !! k = Some cue ->
     exists ws first,
       c_words cue = Some ws
       /\ head ws = Some first
       /\ c_start cue = w_start first
       /\ c_text cue = join_space (map w_word ws))
  /\ (forall transcription,
     t_transcription transcription = None ->
     t_segments transcription = None \/ t_segments transcription = Some [] ->
     exists cue ws first,
       processWhisperTranscription (Some transcription) = Return [cue]
       /\ c_words cue = Some ws
       /\ head ws = Some first
       /\ c_start cue = w_start first
       /\ c_text cue = join_space (map w_word ws)).
Proof.
  repeat apply conj.
  - intros transcription ws cues cue Hws Hne Hrun Hin.
    rewrite (processTranscription_cues _ ws Hws Hne) in Hrun.
    injection Hrun as <-.
    apply in_map_iff in Hin as (k & <- & Hk).
    apply in_seq in Hk as [_ Hk]. cbn [Nat.add] in Hk. apply ceil_div_lt in Hk.
    destruct (window_cue ws k Hk) as (first & final & Hfirst & Hfinal & _).
    exists (window ws k), first, final.
    cbn [c_words c_start c_end c_text]. rewrite Hfirst, Hfinal.
    repeat split.
  - intros transcription segs k segment s e Hsegs Htext Hk Hs He Hdouble.
    assert (Hne : segs <> []) by (intros ->; discriminate).
    destruct (split_space_cons (default [] (s_text segment))) as (tok & rest & Htoks).
    destruct (head_last_nonempty
                (rounded_subdivide s e (split_space (default [] (s_text segment)))))
      as (first & final & Hfirst & Hfinal).
    { rewrite rounded_subdivide_length, Htoks. cbn. lia. }
    eexists _, _, _, first, final.
    split; [exact (processGemini_cues _ segs Hsegs Hne Htext)|].
    split; [rewrite list_lookup_imap, Hk; reflexivity|].
    cbn [c_words c_start c_end c_text]. rewrite Hs, He, imap_spread_word.
    split; [reflexivity|]. split; [exact Hfirst|]. split; [exact Hfinal|].
    rewrite (rounded_subdivide_first _ _ _ _ Hdouble Hfirst).
    rewrite (rounded_subdivide_last _ _ _ _ Hfinal).
    rewrite rounded_subdivide_length, rounded_subdivide_text, join_split.
    specialize (Htext segment).
    destruct (s_text segment) as [text|]; [repeat split|].
    exfalso. apply Htext; [|reflexivity].
    apply list_elem_of_In. eapply list_elem_of_lookup_2, Hk.
  - intros transcription segs k segment s e Hcpp Hsegs Hok Hk Hnow Hs He He0 Hdouble.
    assert (Hne : segs <> []) by (intros ->; discriminate).
    destruct (split_space_cons (default [] (s_text segment))) as (tok & rest & Htoks).
    destruct (head_last_nonempty
                (rounded_subdivide s e (split_space (default [] (s_text segment)))))
      as (first & final & Hfirst & Hfinal).
    { rewrite rounded_subdivide_length, Htoks. cbn. lia. }
    eexists _, _, _, first, final.
    split; [exact (processWhisper_segments_cues _ segs Hcpp Hsegs Hne Hok)|].
    split; [rewrite list_lookup_imap, Hk; reflexivity|].
    cbn [c_words c_start c_end c_text]. rewrite Hnow, Hs, He, imap_spread_word.
    split; [reflexivity|]. split; [exact Hfirst|]. split; [exact Hfinal|].
    rewrite (rounded_subdivide_first _ _ _ _ Hdouble Hfirst).
    rewrite (rounded_subdivide_last _ _ _ _ Hfinal).
    rewrite rounded_subdivide_length, rounded_subdivide_text, join_split.
    rewrite (or_num_truthy e _ He0).
    split; [apply or_num_zero_default|]. split; [reflexivity|].
    split; [reflexivity|].
    specialize (Hok segment).
    destruct (s_text segment) as [text|]; [apply or_lit_nil|].
    exfalso. destruct Hok as [Hw|Ht]; [|now rewrite Hnow in Hw|now apply Ht].
    apply list_elem_of_In. eapply list_elem_of_lookup_2, Hk.
  - intros transcription segs k segment f t Hsegs Hk Hoff Ht.
    eexists _, _, _. split; [exact (processWhisper_cpp_cues _ segs Hsegs)|].
    split; [rewrite list_lookup_imap, Hk; reflexivity|].
    cbv zeta. cbn [c_words c_start c_end]. rewrite Hoff.
    cbn [mbind option_bind o_from o_to to_number].
    destruct (whisper_cpp_span f t) as [-> Hend]. rewrite (Hend Ht).
    rewrite imap_whisper_word.
    split; [reflexivity|]. split; [reflexivity|]. split.
    + intros first Hfirst.
      now rewrite (whisper_subdivide_first _ _ _ _ (fl_idempotent _) Hfirst).
    + intros final Hfinal. rewrite last_lookup in Hfinal.
      apply whisper_subdivide_lookup in Hfinal as (tok & _ & ->).
      rewrite whisper_subdivide_length. cbn [w_start w_end]. eauto.
  - intros k cue. unfold generateDemoCaptions. rewrite list_lookup_imap.
    destruct (demoTexts !! k) as [text|] eqn:Hk; [|discriminate].
    cbn [fmap option_fmap option_map]. intros [= <-].
    destruct (split_space_cons text) as (tok & rest & Htoks).
    eexists _, _. cbn [c_words c_start c_text].
    split; [reflexivity|]. rewrite Htoks at 1. rewrite imap_cons.
    split; [reflexivity|]. cbn [w_start]. split.
    + do 2 f_equal. symmetry. apply demo_cue_start.
      now apply lookup_lt_Some in Hk.
    + rewrite imap_words_text by reflexivity. now rewrite join_split.
  - intros transcription Hcpp Hsegs.
    destruct (split_space_cons (or_lit (t_text transcription) no_captions))
      as (tok & rest & Htoks).
    eexists _, _, _. split; [now apply processWhisper_fallback|].
    cbn [c_words c_start c_text].
    split; [reflexivity|]. rewrite Htoks at 1. rewrite imap_cons.
    split; [reflexivity|]. cbn [w_start]. split.
    + do 2 f_equal. rewrite of_nat_0. ring.
    + rewrite imap_words_text by reflexivity. now rewrite join_split.
Qed.

(** The segment of the specification's scenario, on the Gemini path. *)
Lemma derived_cue_matches_words_witness :
  let segment :=
    {| s_start := Some (Num (of_Z 3)); s_end := Some (Num (of_Z 6));
       s_text := Some (lit "one two three"); s_words := None; s_offsets := None |} in
  exists cues cue ws first final,
    processGeminiTranscription
      (Some {| t_text := None; t_words := None; t_segments := Some [segment];
               t_transcription := None |}) = Return cues
    /\ cues !! 0 = Some cue
    /\ c_words cue = Some ws
    /\ head ws = Some first
    /\ last ws = Some final
    /\ c_start cue = w_start first
    /\ c_end cue = Some (Num (of_Z 6))
    /\ w_end final
       = Some (Num (fl (of_Z 3 + fl (of_nat (length ws)
                                     * word_duration (of_Z 3) (of_Z 6) (length ws)))))
    /\ c_text cue = join_space (map w_word ws).
Proof.
  intros segment.
  apply (proj1 (proj2 derived_cue_matches_words)
               (mkTranscription None None (Some [segment]) None)
               [segment] 0 segment (of_Z 3) (of_Z 6)); try reflexivity.
  - intros seg [<-|[]]; discriminate.
  - apply Qc_is_canon. reflexivity.
Defined.

(** * Further properties of the code *)

(** ** Cue ids *)

Lemma map_from_ids {A} (f : nat -> A -> Res Cue) (l : list A) (i : nat)
    (cues : list Cue) :
  (forall k x c, f k x = Return c -> c_id c = k + 1) ->
  map_from f i l = Return cues ->
  map c_id cues = seq (i + 1) (length l).
Proof.
  intros Hid. revert i cues.
  induction l as [|x l IH]; intros i cues; cbn [map_from].
  - intros [= <-]. reflexivity.
  - destruct (f i x) as [c|e] eqn:Hc; [|discriminate]. cbn.
    destruct (map_from f (S i) l) as [cs|e] eqn:Hcs; [|discriminate]. cbn.
    intros [= <-]. cbn [map length seq]. f_equal.
    + now apply (Hid i x).
    + rewrite (IH (S i) cs Hcs). reflexivity.
Qed.

Lemma map_from_length {A B} (f : nat -> A -> Res B) (l : list A) (i : nat)
    (ys : list B) :
  map_from f i l = Return ys -> length ys = length l.
Proof.
  revert i ys. induction l as [|x l IH]; intros i ys; cbn [map_from].
  - intros [= <-]. reflexivity.
  - destruct (f i x) as [y|e]; [|discriminate]. cbn.
    destruct (map_from f (S i) l) as [ys'|e] eqn:Hys; [|discriminate]. cbn.
    intros [= <-]. cbn. f_equal. exact (IH _ _ Hys).
Qed.

Lemma js_map_ids {A} (f : nat -> A -> Res Cue) (l : list A) (cues : list Cue) :
  (forall k x c, f k x = Return c -> c_id c = k + 1) ->
  js_map f l = Return cues ->
  map c_id cues = seq 1 (length cues).
Proof.
  intros Hid Hrun. unfold js_map in Hrun.
  rewrite (map_from_length _ _ _ _ Hrun).
  exact (map_from_ids f l 0 cues Hid Hrun).
Qed.

Lemma map_from_seq_ids (f : nat -> Res Cue) (n j i : nat) (cues : list Cue) :
  (forall k c, f k = Return c -> c_id c = k + 1) ->
  map_from (fun _ index => f index) i (seq j n) = Return cues ->
  map c_id cues = seq (j + 1) n.
Proof.
  intros Hid. revert j i cues.
  induction n as [|n IH]; intros j i cues; cbn [seq map_from].
  - intros [= <-]. reflexivity.
  - destruct (f j) as [c|e] eqn:Hc; [|discriminate]. cbn.
    destruct (map_from _ (S i) (seq (S j) n)) as [cs|e] eqn:Hcs; [|discriminate].
    cbn. intros [= <-]. cbn [map]. f_equal.
    + now apply Hid.
    + exact (IH (S j) (S i) cs Hcs).
Qed.

Lemma array_from_ids (n : nat) (f : nat -> Res Cue) (cues : list Cue) :
  (forall k c, f k = Return c -> c_id c = k + 1) ->
  array_from n f = Return cues ->
  map c_id cues = seq 1 (length cues).
Proof.
  intros Hid Hrun. unfold array_from, js_map in Hrun.
  rewrite (map_from_length _ _ _ _ Hrun), length_seq.
  exact (map_from_seq_ids f n 0 0 cues Hid Hrun).
Qed.

(** X1. Whatever a normalizer returns, its cues are numbered 1, 2, 3, ...
    in order, so no two cues of a transcript share an id; the demo captions
    are numbered the same way. *)
Theorem normalizer_ids_sequential (raw : Raw) (cues : list Cue) :
  processTranscription raw = Return cues
  \/ processGeminiTranscription raw = Return cues
  \/ processWhisperTranscription raw = Return cues
  \/ cues = generateDemoCaptions ->
  map c_id cues = seq 1 (length cues) /\ NoDup (map c_id cues).
Proof.
  intros Hrun.
  assert (Hids : map c_id cues = seq 1 (length cues)).
  { destruct Hrun as [Hrun | [Hrun | [Hrun | ->]]].
    - unfold processTranscription in Hrun.
      destruct raw as [transcription|]; [|discriminate].
      cbn [deref mbind Res_bind] in Hrun.
      destruct (missing_or_empty (t_words transcription)).
      + injection Hrun as <-. reflexivity.
      + revert Hrun. apply array_from_ids.
        intros k c. cbv zeta.
        destruct (slice _ _ _ !! 0) as [first|]; cbn; [|discriminate].
        match goal with
        | |- context [deref ?x] => destruct x as [final|]; cbn; [|discriminate]
        end.
        now intros [= <-].
    - unfold processGeminiTranscription in Hrun.
      destruct raw as [transcription|]; [|discriminate].
      cbn [deref mbind Res_bind] in Hrun.
      destruct (missing_or_empty (t_segments transcription)).
      + injection Hrun as <-. reflexivity.
      + revert Hrun. apply js_map_ids. intros k segment c.
        destruct (s_text segment); cbn; [|discriminate]. now intros [= <-].
    - unfold processWhisperTranscription in Hrun.
      destruct raw as [transcription|]; [|discriminate].
      cbn [deref mbind Res_bind] in Hrun.
      destruct (t_transcription transcription).
      + revert Hrun. apply js_map_ids. intros k segment c. now intros [= <-].
      + destruct (missing_or_empty (t_segments transcription)).
        * injection Hrun as <-. reflexivity.
        * revert Hrun. apply js_map_ids. intros k segment c.
          destruct (s_words segment); cbn.
          -- now intros [= <-].
          -- destruct (s_text segment); cbn; [|discriminate]. now intros [= <-].
    - reflexivity. }
  split; [exact Hids|]. rewrite Hids. apply NoDup_seq.
Qed.

(** Two Gemini segments, the second without timing. *)
Lemma normalizer_ids_sequential_witness :
  let raw :=
    Some {| t_text := None; t_words := None;
            t_segments := Some [ {| s_start := Some (ratio 0 1); s_end := Some (ratio 2 1);
                                    s_text := Some (lit "one"); s_words := None;
                                    s_offsets := None |};
                                 {| s_start := None; s_end := None;
                                    s_text := Some (lit "two"); s_words := None;
                                    s_offsets := None |} ];
            t_transcription := None |} in
  exists cues,
    processGeminiTranscription raw = Return cues /\ map c_id cues = [1; 2].
Proof.
  intros raw. eexists. split; [vm_compute; reflexivity|].
  refine (proj1 (normalizer_ids_sequential raw _ (or_intror (or_introl _)))).
  vm_compute. reflexivity.
Defined.

(** ** Synthesized words: tiling, coverage, content *)

Lemma rounded_subdivide_contiguous (s e : Qc) (tokens : list jsstring) (i : nat)
    (wi wj : Word) :
  rounded_subdivide s e tokens !! i = Some wi ->
  rounded_subdivide s e tokens !! S i = Some wj ->
  w_end wi = w_start wj.
Proof.
  intros Hi Hj.
  apply rounded_subdivide_lookup in Hi as (toki & _ & ->).
  apply rounded_subdivide_lookup in Hj as (tokj & _ & ->).
  cbn [w_start w_end]. now rewrite of_nat_S.
Qed.

(** The spans of a subdivision leave no instant out between the start of
    the first word and the end of the last. *)
Lemma rounded_subdivide_covers (s e q : Qc) (tokens : list jsstring) :
  tokens <> [] ->
  is_double s ->
  (s <= q)%Qc ->
  (q <= fl (s + fl (of_nat (length tokens)
                    * word_duration s e (length tokens))))%Qc ->
  exists i w,
    rounded_subdivide s e tokens !! i = Some w
    /\ within (Num q) (w_start w) (w_end w).
Proof.
  intros Hne Hs Hsq Hqe.
  assert (Hn : 0 < length tokens) by (destruct tokens; [contradiction | cbn; lia]).
  set (d := word_duration s e (length tokens)) in *.
  assert (Hstep : forall k,
            (q <= fl (s + fl (of_nat k * d)))%Qc ->
            k = 0 \/
            exists i, i < k
              /\ (fl (s + fl (of_nat i * d)) <= q)%Qc
              /\ (q <= fl (s + fl ((of_nat i + 1) * d)))%Qc).
  { induction k as [|k IH]; intros Hq; [now left|]. right.
    destruct (Qclt_le_dec (fl (s + fl (of_nat k * d))) q) as [Hlt | Hle].
    - exists k. split; [lia|]. split; [now apply Qclt_le_weak|].
      now rewrite <- of_nat_S.
    - destruct (IH Hle) as [-> | (i & Hi & Hlo & Hhi)].
      + exists 0. split; [lia|]. split.
        * rewrite first_start by exact Hs. exact Hsq.
        * now rewrite <- of_nat_S.
      + exists i. split; [lia|]. now split. }
  destruct (Hstep (length tokens) Hqe) as [Hnil | (i & Hi & Hlo & Hhi)]; [lia|].
  destruct (lookup_lt_is_Some_2 tokens i Hi) as [tok Htok].
  eexists i, _. split.
  - unfold rounded_subdivide. rewrite list_lookup_imap, Htok. reflexivity.
  - cbn [w_start w_end]. eexists _, _, q. repeat split; assumption.
Qed.

Lemma split_space_no_space (s tok : jsstring) :
  In tok (split_space s) -> ~ In space tok.
Proof.
  revert tok. induction s as [|c s' IH]; intros tok; cbn [split_space].
  - intros [<-|[]] [].
  - destruct (split_space_cons s') as (piece & pieces & Hs').
    rewrite Hs' in IH |- *.
    destruct (N.eqb c space) eqn:Hc.
    + intros [<-|Hin]; [intros [] | now apply IH].
    + apply N.eqb_neq in Hc. intros [<-|Hin].
      * intros [Heq|Hin]; [congruence | apply (IH piece); [now left | exact Hin]].
      * apply IH. now right.
Qed.

Lemma trim_start_head (s r : jsstring) (c : code_unit) :
  trim_start s = c :: r -> is_js_space c = false.
Proof.
  induction s as [|a s IH]; cbn [trim_start]; [discriminate|].
  destruct (is_js_space a) eqn:Ha; [exact IH|]. now intros [= <- _].
Qed.

Lemma trim_start_fixed (s : jsstring) :
  match s with [] => True | c :: _ => is_js_space c = false end ->
  trim_start s = s.
Proof. destruct s as [|c s]; [reflexivity|]. cbn. now intros ->. Qed.

Lemma trim_start_idempotent (s : jsstring) : trim_start (trim_start s) = trim_start s.
Proof.
  apply trim_start_fixed. destruct (trim_start s) as [|c r] eqn:E; [exact I|].
  exact (trim_start_head _ _ _ E).
Qed.

Lemma trim_start_suffix (s : jsstring) : exists ws, s = ws ++ trim_start s.
Proof.
  induction s as [|a s [ws IH]]; [now exists []|]. cbn [trim_start].
  destruct (is_js_space a); [|now exists []].
  exists (a :: ws). cbn. now f_equal.
Qed.

Lemma trim_idempotent (s : jsstring) : trim (trim s) = trim s.
Proof.
  unfold trim.
  assert (Hstart : trim_start (trim_end (trim_start s)) = trim_end (trim_start s)).
  { apply trim_start_fixed. unfold trim_end.
    destruct (trim_start_suffix (rev (trim_start s))) as [ws Hws].
    apply (f_equal (@rev _)) in Hws. rewrite rev_involutive, rev_app_distr in Hws.
    destruct (rev (trim_start (rev (trim_start s)))) as [|c r]; [exact I|].
    apply (trim_start_head s (r ++ rev ws)). exact Hws. }
  rewrite Hstart. unfold trim_end. rewrite rev_involutive.
  now rewrite trim_start_idempotent.
Qed.

(** X2. On the Gemini path the words synthesized for a segment with
    numeric [start] and [end], the start a double, tile a span without
    gaps: there is one word per piece of the text, the first word starts at
    [start], each word ends exactly where the next one starts, and the last
    ends at [start + n * d] for the [n] words of duration [d], computed in
    double precision. *)
Theorem gemini_words_tile_segment (transcription : Transcription)
    (segs : list Segment) (k : nat) (segment : Segment) (s e : Qc) (text : jsstring) :
  t_segments transcription = Some segs ->
  (forall seg, In seg segs -> s_text seg <> None) ->
  segs !! k = Some segment ->
  s_start segment = Some (Num s) ->
  s_end segment = Some (Num e) ->
  s_text segment = Some text ->
  is_double s ->
  exists cues cue ws,
    processGeminiTranscription (Some transcription) = Return cues
    /\ cues !! k = Some cue
    /\ c_words cue = Some ws
    /\ length ws = length (split_space text)
    /\ (forall first, head ws = Some first -> w_start first = Some (Num s))
    /\ (forall i wi wj, ws !! i = Some wi -> ws !! S i = Some wj ->
          w_end wi = w_start wj)
    /\ (forall final, last ws = Some final ->
          w_end final
          = Some (Num (fl (s + fl (of_nat (length ws)
                                   * word_duration s e (length ws)))))).
Proof.
  intros Hsegs Htext Hk Hs He Ht Hdouble.
  assert (Hne : segs <> []) by (intros ->; discriminate).
  eexists _, _, _. split; [exact (processGemini_cues _ segs Hsegs Hne Htext)|].
  split; [rewrite list_lookup_imap, Hk; reflexivity|].
  cbn [c_words]. rewrite Hs, He, Ht. cbn [default from_option id].
  rewrite imap_spread_word.
  split; [reflexivity|]. split; [apply rounded_subdivide_length|]. split; [|split].
  - intros first. now apply rounded_subdivide_first.
  - intros i wi wj. apply rounded_subdivide_contiguous.
  - intros final Hfinal. rewrite rounded_subdivide_length.
    now apply rounded_subdivide_last.
Qed.

Lemma gemini_words_tile_segment_witness :
  let segment :=
    {| s_start := Some (Num (of_Z 3)); s_end := Some (Num (of_Z 6));
       s_text := Some (lit "one two three"); s_words := None; s_offsets := None |} in
  exists cues cue ws,
    processGeminiTranscription
      (Some {| t_text := None; t_words := None; t_segments := Some [segment];
               t_transcription := None |}) = Return cues
    /\ cues !! 0 = Some cue
    /\ c_words cue = Some ws
    /\ length ws = 3.
Proof.
  intros segment.
  destruct (gemini_words_tile_segment
              (mkTranscription None None (Some [segment]) None)
              [segment] 0 segment (of_Z 3) (of_Z 6) (lit "one two three") eq_refl)
    as (cues & cue & ws & Hrun & Hcue & Hws & Hlen & _);
    try reflexivity.
  { intros seg [<-|[]]; discriminate. }
  { apply Qc_is_canon. reflexivity. }
  now exists cues, cue, ws.
Defined.

(** X3. A cue that the Gemini path subdivides from a segment with numeric
    [start] and [end], the start a double, is active at every instant of
    [start, end], and at every such instant that is no later than the end
    of its last word, [start + n * d] in double precision, one of its words
    is: with the karaoke style and the cue first among the active ones, the
    word query reaches [interpolate] with a word of the cue whose span
    contains the instant, and is not [null]. *)
Theorem subdivided_cue_has_active_word
    (interpolate : jsnum -> option jsnum -> option jsnum -> Res jsnum)
    (transcription : Transcription) (segs : list Segment) (k : nat)
    (segment : Segment) (s e q : Qc) (text : jsstring) (rest : list Cue) :
  t_segments transcription = Some segs ->
  (forall seg, In seg segs -> s_text seg <> None) ->
  segs !! k = Some segment ->
  s_start segment = Some (Num s) ->
  s_end segment = Some (Num e) ->
  s_text segment = Some text ->
  is_double s ->
  (s <= q)%Qc ->
  (q <= e)%Qc ->
  (q <= fl (s + fl (of_nat (length (split_space text))
                    * word_duration s e (length (split_space text)))))%Qc ->
  exists cues cue ws w,
    processGeminiTranscription (Some transcription) = Return cues
    /\ cues !! k = Some cue
    /\ In cue (activeCaptions cues (Num q))
    /\ c_words cue = Some ws
    /\ In w ws
    /\ within (Num q) (w_start w) (w_end w)
    /\ currentWordData interpolate (Some karaoke) (cue :: rest) (Num q)
       = (progress ← interpolate (Num q) (w_start w) (w_end w);
          Return (Some {| wd_word := w; wd_progress := progress |})).
Proof.
  intros Hsegs Htext Hk Hs He Ht Hdouble Hsq Hqe Hlast.
  assert (Hne : segs <> []) by (intros ->; discriminate).
  pose proof (processGemini_cues _ segs Hsegs Hne Htext) as Hrun.
  set (cues := imap _ segs) in Hrun.
  assert (Hcue : exists cue, cues !! k = Some cue
            /\ c_start cue = Some (Num s) /\ c_end cue = Some (Num e)
            /\ c_words cue = Some (rounded_subdivide s e (split_space text))).
  { eexists. split; [unfold cues; rewrite list_lookup_imap, Hk; reflexivity|].
    cbn [c_start c_end c_words]. rewrite Hs, He, Ht. cbn [default from_option id].
    rewrite imap_spread_word. auto. }
  destruct Hcue as (cue & Hcue & Hcs & Hce & Hws).
  destruct (split_space_cons text) as (tok & toks & Htoks).
  destruct (rounded_subdivide_covers s e q (split_space text))
    as (i & w0 & Hw0 & Hin0); [rewrite Htoks; discriminate | assumption..|].
  destruct (find_is_Some
              (fun word => js_ge (Some (Num q)) (w_start word)
                           && js_le (Some (Num q)) (w_end word))
              (rounded_subdivide s e (split_space text)) w0)
    as [w Hfind].
  { apply list_elem_of_In. eapply list_elem_of_lookup_2, Hw0. }
  { now apply within_iff. }
  eexists cues, cue, _, w. split; [exact Hrun|]. split; [exact Hcue|].
  split.
  { apply filter_In. split.
    - apply list_elem_of_In. eapply list_elem_of_lookup_2, Hcue.
    - apply within_iff. rewrite Hcs, Hce. now exists s, e, q. }
  split; [exact Hws|].
  pose proof (find_some _ _ Hfind) as [Hw Hspan].
  split; [exact Hw|]. split; [now apply within_iff|].
  now rewrite currentWordData_first, Hws, Hfind.
Qed.

Lemma subdivided_cue_has_active_word_witness :
  let segment :=
    {| s_start := Some (Num (of_Z 3)); s_end := Some (Num (of_Z 6));
       s_text := Some (lit "one two three"); s_words := None; s_offsets := None |} in
  exists cues cue ws w,
    processGeminiTranscription
      (Some {| t_text := None; t_words := None; t_segments := Some [segment];
               t_transcription := None |}) = Return cues
    /\ cues !! 0 = Some cue
    /\ In cue (activeCaptions cues (Num (of_Z 4)))
    /\ c_words cue = Some ws
    /\ In w ws
    /\ within (Num (of_Z 4)) (w_start w) (w_end w)
    /\ currentWordData interpolate_spec (Some karaoke) [cue] (Num (of_Z 4))
       = (progress ← interpolate_spec (Num (of_Z 4)) (w_start w) (w_end w);
          Return (Some {| wd_word := w; wd_progress := progress |})).
Proof.
  intros segment.
  apply (subdivided_cue_has_active_word interpolate_spec
           (mkTranscription None None (Some [segment]) None)
           [segment] 0 segment (of_Z 3) (of_Z 6) (of_Z 4) (lit "one two three") []);
    try reflexivity.
  - intros seg [<-|[]]; discriminate.
  - apply Qc_is_canon. reflexivity.
  - apply Qc_leb_le. vm_compute. reflexivity.
  - apply Qc_leb_le. vm_compute. reflexivity.
  - apply Qc_leb_le. vm_compute. reflexivity.
Defined.

(** X4. No word synthesized from a segment text contains a space: on the
    Gemini path every word is a piece of the text between two single
    spaces (possibly empty); on the whisper.cpp path it is moreover never
    empty, and the cue text has no white space at either end. *)
Theorem synthesized_words_hold_no_space :
  (forall transcription segs k segment,
     t_segments transcription = Some segs ->
     (forall seg, In seg segs -> s_text seg <> None) ->
     segs !! k = Some segment ->
     exists cues cue ws,
       processGeminiTranscription (Some transcription) = Return cues
       /\ cues !! k = Some cue
       /\ c_words cue = Some ws
       /\ forall w, In w ws ->
            exists tok, w_word w = Some tok /\ ~ In space tok)
  /\ (forall transcription segs k segment,
     t_transcription transcription = Some segs ->
     segs !! k = Some segment ->
     exists cues cue ws,
       processWhisperTranscription (Some transcription) = Return cues
       /\ cues !! k = Some cue
       /\ c_words cue = Some ws
       /\ (forall w, In w ws ->
             exists tok, w_word w = Some tok /\ tok <> [] /\ ~ In space tok)
       /\ trim (c_text cue) = c_text cue).
Proof.
  split.
  - intros transcription segs k segment Hsegs Htext Hk.
    assert (Hne : segs <> []) by (intros ->; discriminate).
    eexists _, _, _. split; [exact (processGemini_cues _ segs Hsegs Hne Htext)|].
    split; [rewrite list_lookup_imap, Hk; reflexivity|].
    cbn [c_words]. split; [reflexivity|].
    intros w Hw. apply list_elem_of_In, list_elem_of_lookup_1 in Hw as [i Hi].
    rewrite list_lookup_imap in Hi.
    destruct (split_space _ !! i) as [tok|] eqn:Htok; [|discriminate].
    injection Hi as <-. exists tok. split; [reflexivity|].
    apply (split_space_no_space (default [] (s_text segment))).
    apply list_elem_of_In. eapply list_elem_of_lookup_2, Htok.
  - intros transcription segs k segment Hsegs Hk.
    eexists _, _, _. split; [exact (processWhisper_cpp_cues _ segs Hsegs)|].
    split; [rewrite list_lookup_imap, Hk; reflexivity|].
    cbv zeta. cbn [c_words c_text]. split; [reflexivity|]. split.
    + intros w Hw. apply list_elem_of_In, list_elem_of_lookup_1 in Hw as [i Hi].
      rewrite list_lookup_imap in Hi.
      destruct (List.filter _ _ !! i) as [tok|] eqn:Htok; [|discriminate].
      injection Hi as <-. exists tok. split; [reflexivity|].
      apply list_elem_of_lookup_2, list_elem_of_In, filter_In in Htok as [Hin Hlen].
      split; [intros ->; discriminate|].
      exact (split_space_no_space _ _ Hin).
    + destruct (s_text segment) as [text|]; [|reflexivity].
      cbn [fmap option_fmap option_map]. rewrite or_lit_nil.
      apply trim_idempotent.
Qed.

(** ** Integers: rationals, digits, [parseInt] *)

Lemma of_Z_this (z : Z) : this (of_Z z) = inject_Z z.
Proof. unfold of_Z. cbn [this Q2Qc]. apply inject_Z_Qred. Qed.

Lemma of_Z_le (x y : Z) : (of_Z x <= of_Z y)%Qc <-> (x <= y)%Z.
Proof. unfold Qcle. rewrite !of_Z_this, <- Zle_Qle. reflexivity. Qed.

Lemma of_Z_lt (x y : Z) : (of_Z x < of_Z y)%Qc <-> (x < y)%Z.
Proof. unfold Qclt. rewrite !of_Z_this, <- Zlt_Qlt. reflexivity. Qed.

Lemma of_Z_add (x y : Z) : (of_Z x + of_Z y)%Qc = of_Z (x + y).
Proof.
  apply Qc_is_canon. cbn [this Qcplus Q2Qc].
  rewrite Qred_correct, !of_Z_this, inject_Z_plus. reflexivity.
Qed.

Lemma of_Z_sub (x y : Z) : (of_Z x - of_Z y)%Qc = of_Z (x - y).
Proof.
  apply Qc_is_canon. unfold Qcminus, Qcopp. cbn [this Qcplus Q2Qc].
  rewrite !Qred_correct, !of_Z_this.
  unfold Z.sub. rewrite inject_Z_plus, inject_Z_opp. reflexivity.
Qed.

Lemma of_Z_1 : of_Z 1 = 1%Qc.
Proof. apply Qc_is_canon. reflexivity. Qed.

Lemma Qc_leb_of_Z (x y : Z) : Qc_leb (of_Z x) (of_Z y) = (x <=? y)%Z.
Proof.
  apply eq_true_iff_eq. now rewrite Qc_leb_le, of_Z_le, Z.leb_le.
Qed.

Lemma digits_value_snoc (l : jsstring) (c : code_unit) :
  digits_value (l ++ [c]) = (10 * digits_value l + (Z.of_N c - 48))%Z.
Proof. unfold digits_value. now rewrite fold_left_app. Qed.

Lemma digits_of_value (fuel : nat) (n : N) :
  (n < 2 ^ N.of_nat fuel)%N -> digits_value (digits_of fuel n) = Z.of_N n.
Proof.
  revert n. induction fuel as [|fuel IH]; intros n Hn.
  - cbn in Hn. assert (n = 0%N) as -> by lia. reflexivity.
  - cbn [digits_of]. destruct (n <? 10)%N eqn:Hsmall.
    + unfold digits_value. cbn. lia.
    + apply N.ltb_ge in Hsmall.
      rewrite digits_value_snoc, IH.
      * pose proof (N.div_mod n 10 ltac:(lia)) as Hdm.
        pose proof (N.mod_lt n 10 ltac:(lia)) as Hm.
        revert Hdm Hm. generalize (n mod 10)%N (n / 10)%N. intros m d Hdm Hm. lia.
      * rewrite Nat2N.inj_succ, N.pow_succ_r' in Hn.
        apply N.Div0.div_lt_upper_bound. lia.
Qed.

Lemma decimal_value (n : N) : digits_value (decimal n) = Z.of_N n.
Proof.
  unfold decimal. apply digits_of_value.
  rewrite Nat2N.inj_succ, N2Nat.id.
  destruct (N.eq_dec n 0%N) as [->|Hn]; [reflexivity|].
  apply N.log2_spec. lia.
Qed.

Lemma digits_of_digits (fuel : nat) (n : N) : Forall (fun c => is_digit c = true) (digits_of fuel n).
Proof.
  revert n. induction fuel as [|fuel IH]; intros n; cbn [digits_of]; [constructor|].
  destruct (n <? 10)%N eqn:Hsmall.
  - apply N.ltb_lt in Hsmall. repeat constructor.
    unfold is_digit. apply andb_true_iff. rewrite !N.leb_le. lia.
  - apply Forall_app. split; [apply IH|]. repeat constructor.
    pose proof (N.mod_lt n 10 ltac:(lia)) as Hm.
    unfold is_digit. apply andb_true_iff. rewrite !N.leb_le.
    revert Hm. generalize (n mod 10)%N. intros m Hm. lia.
Qed.

Lemma decimal_cons (n : N) :
  exists c r, decimal n = c :: r /\ Forall (fun c => is_digit c = true) (c :: r).
Proof.
  pose proof (digits_of_digits (S (N.to_nat (N.log2 n))) n) as Hd.
  fold (decimal n) in Hd.
  destruct (decimal n) as [|c r] eqn:E; [|now exists c, r].
  unfold decimal in E. cbn [digits_of] in E.
  destruct (n <? 10)%N; [discriminate|].
  now destruct (digits_of _ _) in E.
Qed.

Lemma take_digits_app (ds rest : jsstring) :
  Forall (fun c => is_digit c = true) ds ->
  match rest with [] => True | c :: _ => is_digit c = false end ->
  take_digits (ds ++ rest) = ds.
Proof.
  intros Hds Hrest. induction Hds as [|c ds Hc _ IH]; cbn.
  - destruct rest as [|c r]; cbn; [reflexivity | now rewrite Hrest].
  - now rewrite Hc, IH.
Qed.

Lemma digit_not_space (c : code_unit) : is_digit c = true -> is_js_space c = false.
Proof.
  unfold is_digit, is_js_space. intros H.
  apply andb_true_iff in H as [H1 H2]. apply N.leb_le in H1, H2.
  repeat (apply orb_false_iff; split);
    rewrite ?andb_false_iff, ?N.leb_gt, ?N.eqb_neq; lia.
Qed.

(** Reading back the digits of a natural number, whatever follows them
    that is not a digit. *)
Lemma parseInt10_decimal (n : N) (rest : jsstring) :
  match rest with [] => True | c :: _ => is_digit c = false end ->
  parseInt10 (decimal n ++ rest) = num_of_N n.
Proof.
  intros Hrest. destruct (decimal_cons n) as (c & r & Hd & Hall).
  pose proof (decimal_value n) as Hval.
  pose proof (take_digits_app _ rest Hall Hrest) as Htake.
  rewrite Hd in *. unfold parseInt10.
  assert (Hc : is_digit c = true) by now inversion Hall.
  cbn [app trim_start]. rewrite (digit_not_space c Hc).
  assert (Hsign : (c =? 45)%N = false /\ (c =? 43)%N = false).
  { unfold is_digit in Hc. apply andb_true_iff in Hc as [H1 H2].
    apply N.leb_le in H1, H2. rewrite !N.eqb_neq. lia. }
  destruct Hsign as [-> ->].
  change (c :: r ++ rest) with ((c :: r) ++ rest). rewrite Htake, Hval.
  unfold num_of_N. do 2 f_equal. lia.
Qed.

Lemma parseInt10_int_toString (z : Z) : parseInt10 (int_toString z) = Num (of_Z z).
Proof.
  unfold int_toString. destruct (z <? 0)%Z eqn:Hz.
  - apply Z.ltb_lt in Hz.
    destruct (decimal_cons (Z.to_N (- z))) as (c & r & Hd & Hall).
    pose proof (decimal_value (Z.to_N (- z))) as Hval.
    pose proof (take_digits_app _ [] Hall I) as Htake. rewrite app_nil_r in Htake.
    rewrite Hd in *. revert Htake Hval. generalize (c :: r). intros d Htake Hval.
    unfold parseInt10. cbn -[digits_value take_digits Z.mul]. rewrite Htake.
    destruct d as [|c' d']; [cbn in Hval; lia|].
    rewrite Hval. do 2 f_equal. lia.
  - apply Z.ltb_ge in Hz.
    rewrite <- (app_nil_r (decimal (Z.to_N z))).
    rewrite parseInt10_decimal by exact I.
    unfold num_of_N. do 2 f_equal. lia.
Qed.

(** ** Range requests *)

Lemma split_char_cons (sep : code_unit) (s : jsstring) :
  exists piece pieces, split_char sep s = piece :: pieces /\ ~ In sep piece.
Proof.
  induction s as [|c s' (piece & pieces & IH & Hno)]; cbn [split_char].
  - exists [], []. split; [reflexivity | intros []].
  - rewrite IH. destruct (N.eqb c sep) eqn:Hc.
    + exists [], (piece :: pieces). split; [reflexivity | intros []].
    + apply N.eqb_neq in Hc. exists (c :: piece), pieces.
      split; [reflexivity|]. intros [Heq|Hin]; [congruence | contradiction].
Qed.

Lemma split_char_app (sep : code_unit) (l r : jsstring) :
  ~ In sep l -> split_char sep (l ++ sep :: r) = l :: split_char sep r.
Proof.
  induction l as [|c l IH]; intros Hno; cbn [app split_char].
  - now rewrite N.eqb_refl.
  - assert (Hc : N.eqb c sep = false) by (apply N.eqb_neq; intros ->; apply Hno; now left).
    rewrite Hc, IH; [reflexivity|]. intros Hin. apply Hno. now right.
Qed.

Lemma split_char_whole (sep : code_unit) (l : jsstring) :
  ~ In sep l -> split_char sep l = [l].
Proof.
  induction l as [|c l IH]; intros Hno; cbn [split_char]; [reflexivity|].
  assert (Hc : N.eqb c sep = false) by (apply N.eqb_neq; intros ->; apply Hno; now left).
  rewrite Hc, IH; [reflexivity|]. intros Hin. apply Hno. now right.
Qed.

Lemma digits_no_minus (ds : jsstring) :
  Forall (fun c => is_digit c = true) ds -> ~ In 45%N ds.
Proof.
  intros Hds Hin. rewrite List.Forall_forall in Hds. apply Hds in Hin. discriminate.
Qed.

Lemma decimal_no_minus (n : N) : ~ In 45%N (decimal n).
Proof.
  destruct (decimal_cons n) as (c & r & -> & Hall). now apply digits_no_minus.
Qed.

Lemma decimal_truthy (n : N) : truthy_str (Some (decimal n)) = true.
Proof. destruct (decimal_cons n) as (c & r & -> & _). reflexivity. Qed.

Lemma remove_first_eq (p s : jsstring) :
  remove_first p s
  = match strip_prefix p s with
    | Some rest => rest
    | None => match s with [] => [] | c :: s' => c :: remove_first p s' end
    end.
Proof. now destruct s. Qed.

Lemma strip_prefix_app (p r : jsstring) : strip_prefix p (p ++ r) = Some r.
Proof.
  induction p as [|a p IH]; cbn; [now destruct r|]. now rewrite N.eqb_refl.
Qed.

Lemma remove_first_prefix (p r : jsstring) : remove_first p (p ++ r) = r.
Proof. now rewrite remove_first_eq, strip_prefix_app. Qed.

Lemma num_of_N_ge (a b : N) :
  js_ge (Some (num_of_N a)) (Some (num_of_N b)) = (b <=? a)%N.
Proof.
  unfold js_ge, js_le, num_of_N. rewrite Qc_leb_of_Z.
  apply eq_true_iff_eq. rewrite Z.leb_le, N.leb_le. lia.
Qed.

Lemma num_of_N_gt (a b : N) :
  js_gt (Some (num_of_N a)) (Some (num_of_N b)) = (b <? a)%N.
Proof.
  unfold js_gt, js_lt, num_of_N. rewrite Qc_leb_of_Z.
  apply eq_true_iff_eq. rewrite negb_true_iff, Z.leb_gt, N.ltb_lt. lia.
Qed.

(** The parts of a header [bytes=<head>-<tail>] whose head has no dash. *)
Lemma range_parts (head tail : jsstring) :
  ~ In 45%N head ->
  split_char 45%N (remove_first (lit "bytes=") (lit "bytes=" ++ head ++ 45%N :: tail))
  = head :: split_char 45%N tail.
Proof. intros Hno. now rewrite remove_first_prefix, split_char_app. Qed.

Lemma serveUpload_closed_range (a b fileSize : N) :
  serveUpload (Some (lit "bytes=" ++ decimal a ++ 45%N :: decimal b)) fileSize
  = if (fileSize <=? a)%N || (fileSize <=? b)%N || (b <? a)%N
    then RangeNotSatisfiable fileSize
    else PartialContent (num_of_N a) (num_of_N b) fileSize
           (js_add (js_sub (num_of_N b) (num_of_N a)) (Num 1%Qc)).
Proof.
  unfold serveUpload. change (truthy_str (Some (lit "bytes=" ++ _))) with true.
  cbv iota zeta. cbn [default from_option id].
  rewrite (range_parts _ _ (decimal_no_minus a)).
  rewrite (split_char_whole _ _ (decimal_no_minus b)).
  cbn [lookup list_lookup default from_option id].
  rewrite (decimal_truthy b).
  rewrite <- (app_nil_r (decimal a)), <- (app_nil_r (decimal b)).
  rewrite !parseInt10_decimal by exact I.
  now rewrite !num_of_N_ge, num_of_N_gt.
Qed.

Lemma serveUpload_open_range (a fileSize : N) :
  serveUpload (Some (lit "bytes=" ++ decimal a ++ [45%N])) fileSize
  = if (fileSize <=? a)%N
    then RangeNotSatisfiable fileSize
    else PartialContent (num_of_N a) (num_of_N (fileSize - 1)) fileSize
           (js_add (js_sub (num_of_N (fileSize - 1)) (num_of_N a)) (Num 1%Qc)).
Proof.
  unfold serveUpload. change (truthy_str (Some (lit "bytes=" ++ _))) with true.
  cbv iota zeta. cbn [default from_option id].
  rewrite (range_parts _ _ (decimal_no_minus a)).
  cbn [split_char lookup list_lookup default from_option id truthy_str].
  rewrite <- (app_nil_r (decimal a)).
  rewrite !parseInt10_decimal by exact I.
  destruct (fileSize <=? a)%N eqn:Hsize.
  - now rewrite num_of_N_ge, Hsize.
  - apply N.leb_gt in Hsize.
    assert (Hlast : js_sub (num_of_N fileSize) (Num 1%Qc) = num_of_N (fileSize - 1)).
    { unfold num_of_N, js_sub. rewrite <- of_Z_1, of_Z_sub. do 2 f_equal. lia. }
    rewrite Hlast, !num_of_N_ge, num_of_N_gt.
    replace (fileSize <=? a)%N with false by (symmetry; apply N.leb_gt; lia).
    replace (fileSize <=? fileSize - 1)%N with false by (symmetry; apply N.leb_gt; lia).
    replace (fileSize - 1 <? a)%N with false by (symmetry; apply N.ltb_ge; lia).
    reflexivity.
Qed.

(** X5. A request for [bytes=a-b], written in decimal digits, is answered
    206 with exactly the bytes [a] to [b] and Content-Length [b - a + 1]
    when [a <= b < fileSize], and 416 otherwise; the open-ended [bytes=a-]
    is answered 206 up to the last byte when [a < fileSize], and 416
    otherwise. *)
Theorem range_request_served_or_refused (a b fileSize : N) :
  let closed := lit "bytes=" ++ decimal a ++ 45%N :: decimal b in
  let open := lit "bytes=" ++ decimal a ++ [45%N] in
  ((a <= b)%N -> (b < fileSize)%N ->
   serveUpload (Some closed) fileSize
   = PartialContent (num_of_N a) (num_of_N b) fileSize (num_of_N (b - a + 1)))
  /\ ((b < a)%N \/ (fileSize <= b)%N ->
      serveUpload (Some closed) fileSize = RangeNotSatisfiable fileSize)
  /\ ((a < fileSize)%N ->
      serveUpload (Some open) fileSize
      = PartialContent (num_of_N a) (num_of_N (fileSize - 1)) fileSize
                       (num_of_N (fileSize - a)))
  /\ ((fileSize <= a)%N ->
      serveUpload (Some open) fileSize = RangeNotSatisfiable fileSize).
Proof.
  cbv zeta.
  pose proof (serveUpload_closed_range a b fileSize) as Hclosed.
  pose proof (serveUpload_open_range a fileSize) as Hopen.
  assert (Hlen : forall x y : N, (x <= y)%N ->
            js_add (js_sub (num_of_N y) (num_of_N x)) (Num 1%Qc) = num_of_N (y - x + 1)).
  { intros x y Hxy. unfold num_of_N, js_sub, js_add.
    rewrite <- of_Z_1, of_Z_sub, of_Z_add. do 2 f_equal. lia. }
  repeat apply conj.
  - intros Hab Hb. rewrite Hclosed.
    replace (fileSize <=? a)%N with false by (symmetry; apply N.leb_gt; lia).
    replace (fileSize <=? b)%N with false by (symmetry; apply N.leb_gt; lia).
    replace (b <? a)%N with false by (symmetry; apply N.ltb_ge; lia).
    cbn [orb]. now rewrite Hlen.
  - intros Hbad. rewrite Hclosed.
    destruct (fileSize <=? a)%N eqn:H1; [reflexivity|].
    destruct (fileSize <=? b)%N eqn:H2; [reflexivity|].
    destruct (b <? a)%N eqn:H3; [reflexivity|].
    apply N.leb_gt in H2. apply N.ltb_ge in H3. lia.
  - intros Ha. rewrite Hopen.
    replace (fileSize <=? a)%N with false by (symmetry; apply N.leb_gt; lia).
    rewrite Hlen by lia. do 2 f_equal. lia.
  - intros Ha. rewrite Hopen.
    now replace (fileSize <=? a)%N with true by (symmetry; apply N.leb_le; lia).
Qed.

(** Bytes 0 to 99 of a file of 1000 bytes. *)
Lemma range_request_served_or_refused_witness :
  serveUpload (Some (lit "bytes=0-99")) 1000
  = PartialContent (num_of_N 0) (num_of_N 99) 1000 (num_of_N 100).
Proof.
  refine (proj1 (range_request_served_or_refused 0 99 1000) _ _); lia.
Defined.

Lemma take_digits_digits (s : jsstring) :
  Forall (fun c => is_digit c = true) (take_digits s).
Proof.
  induction s as [|c s IH]; cbn [take_digits]; [constructor|].
  destruct (is_digit c) eqn:Hc; now constructor.
Qed.

Lemma fold_digits_nonneg (l : jsstring) (acc : Z) :
  Forall (fun c => is_digit c = true) l -> (0 <= acc)%Z ->
  (0 <= fold_left (fun acc c => (10 * acc + (Z.of_N c - 48))%Z) l acc)%Z.
Proof.
  intros Hl. revert acc. induction Hl as [|c l Hc _ IH]; intros acc Hacc; cbn [fold_left].
  - exact Hacc.
  - apply IH. unfold is_digit in Hc. apply andb_true_iff in Hc as [H1 H2].
    apply N.leb_le in H1, H2. lia.
Qed.

Lemma of_Z_0 : of_Z 0 = 0%Qc.
Proof. apply Qc_is_canon. reflexivity. Qed.

Lemma parseInt10_nonneg (x : jsstring) (q : Qc) :
  ~ In 45%N x -> parseInt10 x = Num q -> (0 <= q)%Qc.
Proof.
  intros Hno. unfold parseInt10.
  destruct (trim_start_suffix x) as [ws Hws].
  destruct (trim_start x) as [|c rest] eqn:Htrim; [discriminate|].
  assert (Hc : (c =? 45)%N = false).
  { apply N.eqb_neq. intros ->. apply Hno. rewrite Hws. apply in_or_app. right. now left. }
  rewrite Hc.
  assert (Hval : forall s, match take_digits s with
                           | [] => NaN
                           | d :: ds => Num (of_Z (1 * digits_value (d :: ds)))
                           end = Num q -> (0 <= q)%Qc).
  { intros s. pose proof (take_digits_digits s) as Hd.
    destruct (take_digits s) as [|d ds]; [discriminate|].
    intros [= <-]. rewrite <- of_Z_0. apply of_Z_le.
    pose proof (fold_digits_nonneg (d :: ds) 0 Hd ltac:(lia)) as Hn.
    unfold digits_value. lia. }
  destruct (c =? 43)%N; apply Hval.
Qed.

(** X6. Whenever the handler takes the partial-content branch with a
    numeric first and last byte, the range lies inside the file:
    [0 <= start <= end < fileSize], and the Content-Length is
    [end - start + 1]. *)
Theorem partial_content_is_within_file (range : option jsstring) (fileSize : N)
    (s e : Qc) (chunksize : jsnum) :
  serveUpload range fileSize = PartialContent (Num s) (Num e) fileSize chunksize ->
  (0 <= s)%Qc /\ (s <= e)%Qc /\ (e < of_Z (Z.of_N fileSize))%Qc
  /\ chunksize = Num (e - s + 1)%Qc.
Proof.
  unfold serveUpload. destruct (truthy_str range); [|discriminate].
  cbv zeta.
  destruct (split_char_cons 45%N (remove_first (lit "bytes=") (default [] range)))
    as (piece & pieces & -> & Hno).
  cbn [lookup list_lookup default from_option id].
  set (stop := if truthy_str _ then _ else _).
  destruct (js_ge (Some (parseInt10 piece)) _ || js_ge (Some stop) _
            || js_gt (Some (parseInt10 piece)) (Some stop)) eqn:Hcheck;
    [discriminate|].
  intros [= Hs He Hc]. rewrite Hs, He in *.
  apply orb_false_iff in Hcheck as [Hcheck Hgt].
  apply orb_false_iff in Hcheck as [_ Hge].
  split; [exact (parseInt10_nonneg piece s Hno Hs)|].
  unfold js_gt, js_lt in Hgt. apply negb_false_iff, Qc_leb_le in Hgt.
  split; [exact Hgt|]. split.
  - unfold js_ge, js_le, num_of_N in Hge.
    apply Qcnot_le_lt. rewrite <- Qc_leb_le. now rewrite Hge.
  - now subst chunksize.
Qed.

Lemma partial_content_is_within_file_witness :
  (0 <= of_Z 100)%Qc /\ (of_Z 100 <= of_Z 999)%Qc
  /\ (of_Z 999 < of_Z (Z.of_N 1000))%Qc
  /\ num_of_N 900 = Num (of_Z 999 - of_Z 100 + 1)%Qc.
Proof.
  apply (partial_content_is_within_file (Some (lit "bytes=100-")) 1000
           (of_Z 100) (of_Z 999) (num_of_N 900)).
  etransitivity; [exact (serveUpload_open_range 100 1000)|].
  change (1000 <=? 100)%N with false. cbv iota. f_equal.
Defined.

Lemma serveUpload_suffix_range (n fileSize : N) :
  serveUpload (Some (lit "bytes=-" ++ decimal n)) fileSize
  = if (n <? fileSize)%N then PartialContent NaN (num_of_N n) fileSize NaN
    else RangeNotSatisfiable fileSize.
Proof.
  unfold serveUpload. change (truthy_str (Some (lit "bytes=-" ++ _))) with true.
  cbv iota zeta. cbn [default from_option id].
  change (lit "bytes=-" ++ decimal n) with (lit "bytes=" ++ [] ++ 45%N :: decimal n).
  rewrite range_parts by (intros []).
  rewrite (split_char_whole _ _ (decimal_no_minus n)).
  cbn [lookup list_lookup default from_option id].
  rewrite (decimal_truthy n).
  rewrite <- (app_nil_r (decimal n)), parseInt10_decimal by exact I.
  change (parseInt10 []) with NaN.
  rewrite num_of_N_ge. cbn [js_ge js_le js_gt js_lt orb].
  rewrite N.ltb_antisym. now destruct (fileSize <=? n)%N.
Qed.

(** X7. A suffix range [bytes=-n], which asks for the last [n] bytes, is
    never served as such. The first byte does not parse and no test of the
    handler rejects [NaN]: for [n < fileSize] the handler hands
    [createReadStream] the range from [NaN] to [n], and when that call
    raises so does the handler, with no 206 and no 416 sent; should the
    call return, the headers would announce a range and a length of [NaN].
    For [n >= fileSize] the answer is 416 and no stream is opened. *)
Theorem suffix_range_is_not_honoured
    (createReadStream : option (jsnum * jsnum) -> Res unit) (n fileSize : N) :
  ((fileSize <= n)%N ->
   getUpload createReadStream (Some (lit "bytes=-" ++ decimal n)) fileSize
   = Return (RangeNotSatisfiable fileSize))
  /\ ((n < fileSize)%N ->
      getUpload createReadStream (Some (lit "bytes=-" ++ decimal n)) fileSize
      = (_ ← createReadStream (Some (NaN, num_of_N n));
         Return (PartialContent NaN (num_of_N n) fileSize NaN))
      /\ (forall e, createReadStream (Some (NaN, num_of_N n)) = Throws e ->
                    getUpload createReadStream
                      (Some (lit "bytes=-" ++ decimal n)) fileSize = Throws e)).
Proof.
  unfold getUpload. rewrite serveUpload_suffix_range. split.
  - intros Hn. apply N.ltb_ge in Hn. now rewrite Hn.
  - intros Hn. apply N.ltb_lt in Hn. rewrite Hn. split; [reflexivity|].
    now intros e ->.
Qed.

Lemma suffix_range_is_not_honoured_witness :
  getUpload (fun range => match range with
                          | Some (Num _, Num _) | None => Return ()
                          | Some _ => Throws Error
                          end)
            (Some (lit "bytes=-500")) 1000
  = Throws Error.
Proof.
  refine (proj2 (proj2 (suffix_range_is_not_honoured _ 500 1000) _) Error _).
  - reflexivity.
  - reflexivity.
Defined.
(** ** Composition length *)






Lemma math_max_NaN (xs : list jsnum) : math_max NaN xs = NaN.
Proof. unfold math_max. induction xs as [|y xs IH]; [reflexivity|exact IH]. Qed.

Lemma math_max_In_NaN (xs : list jsnum) (x : jsnum) :
  In NaN (x :: xs) -> math_max x xs = NaN.
Proof.
  revert x. induction xs as [|y xs IH]; intros x [->|Hin].
  - reflexivity.
  - destruct Hin.
  - apply math_max_NaN.
  - unfold math_max. cbn [fold_left]. apply IH.
    destruct Hin as [->|Hin]; [left|now right].
    now destruct x.
Qed.






Lemma int_toString_truthy (z : Z) : truthy_str (Some (int_toString z)) = true.
Proof.
  unfold int_toString. destruct (z <? 0)%Z; [reflexivity|apply decimal_truthy].
Qed.

Lemma of_Z_Qnum (q : Qc) : Qden q = 1%positive -> of_Z (Qnum q) = q.
Proof.
  intros Hden. apply Qc_is_canon. rewrite of_Z_this.
  destruct q as [[n d] Hq]. cbn [this Qnum Qden] in *. subst d. reflexivity.
Qed.

Lemma getDuration_number_toString (d : jsnum) (s : jsstring) :
  number_toString d = Some s -> getDuration (Return (Some s)) = d.
Proof.
  destruct d as [|q]; cbn [number_toString].
  - intros [= <-]. reflexivity.
  - destruct (Pos.eqb_spec (Qden q) 1) as [Hden|]; [|discriminate].
    cbn [andb]. destruct (Z.abs (Qnum q) <? 10 ^ 21)%Z; [|discriminate].
    intros [= <-]. unfold getDuration. rewrite int_toString_truthy.
    cbn [default from_option id]. unfold id.
    now rewrite parseInt10_int_toString, of_Z_Qnum.
Qed.

Lemma math_max_is_NaN (xs : list jsnum) (x : jsnum) :
  math_max x xs = NaN <-> In NaN (x :: xs).
Proof.
  split; [|apply math_max_In_NaN].
  revert x. induction xs as [|y xs IH]; intros x H.
  - now left.
  - apply IH in H as [H|H]; [|now right; right].
    destruct x; [now left|]. destruct y; [now right; left|].
    unfold js_max in H. now destruct (Qc_leb _ _).
Qed.

(** X9. What the upload page stores under [remotionDuration] and what
    [getDuration] of the Remotion root reads back. The stored number is
    [NaN] exactly when some caption's end is absent or [NaN], and a whole
    number of frames otherwise; whenever it prints in decimal notation (or
    as NaN), [getDuration] returns that very number: in particular a
    caption without end makes the composition length [NaN], not the
    default of 540 frames. *)
Theorem stored_duration_is_read_back (captions : list Cue) (d : jsnum) :
  durationInFrames captions = Some d ->
  (d = NaN <-> exists c, In c captions /\ to_number (c_end c) = NaN)
  /\ (d <> NaN -> exists k : Z, d = Num (of_Z k))
  /\ (forall s, number_toString d = Some s -> getDuration (Return (Some s)) = d).
Proof.
  intros Hd. split; [|split].
  - unfold durationInFrames in Hd.
    destruct (map _ captions) as [|x xs] eqn:Hmap; [discriminate|].
    injection Hd as <-.
    assert (Hnan : math_ceil (js_mul (math_max x xs) (Num (of_Z 30))) = NaN
                   <-> math_max x xs = NaN).
    { destruct (math_max x xs); [tauto|]. split; discriminate. }
    rewrite Hnan, math_max_is_NaN, <- Hmap, in_map_iff.
    split; intros (c & H1 & H2); exists c; auto.
  - intros Hnum. unfold durationInFrames in Hd.
    destruct (map _ captions) as [|x xs]; [discriminate|].
    injection Hd as <-.
    destruct (js_mul _ _) as [|q]; [contradiction|].
    now exists (Qceiling q).
  - apply getDuration_number_toString.
Qed.

Lemma stored_duration_is_read_back_witness :
  (Num (of_Z 540) = NaN
   <-> exists c, In c generateDemoCaptions /\ to_number (c_end c) = NaN)
  /\ (Num (of_Z 540) <> NaN -> exists k : Z, Num (of_Z 540) = Num (of_Z k))
  /\ (forall s, number_toString (Num (of_Z 540)) = Some s ->
                getDuration (Return (Some s)) = Num (of_Z 540)).
Proof.
  apply (stored_duration_is_read_back generateDemoCaptions).
  apply (opt_eqb_eq jsnum_eqb); [exact jsnum_eqb_eq|]. vm_compute. reflexivity.
Defined.

(** X10. The default of [getDuration] (540 frames, used when nothing or an
    empty string is stored, or when reading the storage raises) is the
    length that the upload page stores for the demo captions of the
    server. *)
Theorem default_duration_is_that_of_demo_captions (stored : Res (option jsstring)) :
  (stored = Return None \/ stored = Return (Some []) \/ exists e, stored = Throws e) ->
  exists s,
    durationInFrames generateDemoCaptions ≫= number_toString = Some s
    /\ getDuration stored = getDuration (Return (Some s)).
Proof.
  intros Hstored.
  assert (Hdemo : durationInFrames generateDemoCaptions = Some (Num (of_Z 540))).
  { apply (opt_eqb_eq jsnum_eqb); [exact jsnum_eqb_eq|]. vm_compute. reflexivity. }
  rewrite Hdemo. cbn [mbind option_bind].
  destruct (number_toString (Num (of_Z 540))) as [s|] eqn:Hs; [|vm_compute in Hs; discriminate].
  exists s. split; [reflexivity|].
  rewrite (getDuration_number_toString _ _ Hs).
  destruct Hstored as [->|[->|[e ->]]]; reflexivity.
Qed.

Lemma default_duration_is_that_of_demo_captions_witness :
  exists s,
    durationInFrames generateDemoCaptions ≫= number_toString = Some s
    /\ getDuration (Throws Error) = getDuration (Return (Some s)).
Proof.
  apply (default_duration_is_that_of_demo_captions (Throws Error)).
  right; right. now exists Error.
Defined.

(** ** Caption sequences *)




Lemma currentTimeOf_num (frame : Z) (fps : Qc) :
  (0 < fps)%Qc -> currentTimeOf frame fps = Num (of_Z frame / fps)%Qc.
Proof.
  intros Hfps. unfold currentTimeOf, js_div.
  replace (Qc_eqb fps 0%Qc) with false; [reflexivity|].
  symmetry. apply Qc_eqb_neq. intros ->. now apply Qclt_not_eq in Hfps.
Qed.

Lemma active_frame_bounds (captions : list Cue) (c : Cue) (frame : Z) (fps : Qc) :
  (0 < fps)%Qc ->
  In c (activeCaptions captions (currentTimeOf frame fps)) ->
  exists s e,
    c_start c = Some (Num s) /\ c_end c = Some (Num e)
    /\ (s * fps <= of_Z frame)%Qc /\ (of_Z frame <= e * fps)%Qc.
Proof.
  intros Hfps Hactive.
  assert (Hfps0 : fps <> 0%Qc) by (intros ->; now apply Qclt_not_eq in Hfps).
  unfold activeCaptions in Hactive. apply filter_In in Hactive as [_ Hactive].
  rewrite currentTimeOf_num in Hactive by exact Hfps.
  apply andb_prop in Hactive as [Hs He].
  unfold js_ge, js_le in Hs, He.
  destruct (c_start c) as [[|s]|] eqn:Es; try discriminate.
  destruct (c_end c) as [[|e]|] eqn:Ee; try discriminate.
  apply Qc_leb_le in Hs, He.
  apply (Qcmult_le_compat_r _ _ fps) in Hs, He; try (now apply Qclt_le_weak).
  rewrite test_field in Hs, He by exact Hfps0.
  now exists s, e.
Qed.



(** ** The caption route *)

Lemma js_map_nil {A B} (f : nat -> A -> Res B) (l : list A) :
  js_map f l = Return [] -> l = [].
Proof.
  intros H. apply map_from_length in H. now destruct l.
Qed.

Lemma missing_or_empty_false {A} (arr : option (list A)) :
  missing_or_empty arr = false -> default [] arr <> [].
Proof. destruct arr as [[|x l]|]; cbn; congruence. Qed.

Lemma processGemini_nonempty (raw : Raw) :
  processGeminiTranscription raw <> Return [].
Proof.
  destruct raw as [transcription|]; [|discriminate].
  unfold processGeminiTranscription. cbn [deref mbind Res_bind].
  destruct (missing_or_empty _) eqn:Hsegs; [discriminate|].
  intros H. apply js_map_nil in H. now apply missing_or_empty_false in Hsegs.
Qed.

Lemma processWhisper_empty (raw : Raw) :
  processWhisperTranscription raw = Return [] ->
  exists transcription,
    raw = Some transcription /\ t_transcription transcription = Some [].
Proof.
  destruct raw as [transcription|]; [|discriminate].
  unfold processWhisperTranscription. cbn [deref mbind Res_bind].
  destruct (t_transcription transcription) as [segments|] eqn:Hcpp.
  - intros H. apply js_map_nil in H. subst segments. now exists transcription.
  - destruct (missing_or_empty _) eqn:Hsegs; [discriminate|].
    intros H. apply js_map_nil in H. now apply missing_or_empty_false in Hsegs.
Qed.

Lemma respond_method (captions : list Cue) (text : TranscriptionText) :
  r_method (respond captions text)
  = if bool_decide (captions = []) then lit "failed" else lit "demo".
Proof. now destruct captions. Qed.

Lemma generateDemoCaptions_nonempty : generateDemoCaptions <> [].
Proof. intros H. apply (f_equal length) in H. vm_compute in H. discriminate. Qed.

Lemma transcribe_and_process_inv (transcribe : Res Raw)
    (process : Raw -> Res (list Cue)) (captions : list Cue) (text : option jsstring) :
  transcribe_and_process transcribe process = Return (captions, text) ->
  exists transcription,
    transcribe = Return (Some transcription)
    /\ process (Some transcription) = Return captions
    /\ text = t_text transcription.
Proof.
  unfold transcribe_and_process.
  destruct transcribe as [[transcription|]|e]; cbn [mbind Res_bind];
    try discriminate.
  - destruct (process _) as [cs|e] eqn:Hprocess; cbn [deref]; [|discriminate].
    intros [= <- <-]. now exists transcription.
  - destruct (process _); cbn [deref]; discriminate.
Qed.

(** X13. The [method] label of the answer of [POST /api/generate-captions].
    It is 'demo' exactly when the answer carries captions and 'failed'
    exactly when it carries none, whichever transcriber ran: a successful
    Gemini or whisper.cpp transcription is labelled 'demo' as well. The
    answer is empty, and the label 'failed', in one case only: the method
    is 'whisper' and whisper.cpp returned an empty [transcription] array.
    Every other outcome, a transcriber or normalizer that raises included,
    answers with at least one caption. *)
Theorem response_method_label (method : jsstring) (genAI : bool)
    (gemini whisper : Res Raw) :
  let response := generateCaptions method genAI gemini whisper in
  (r_method response = lit "demo" <-> r_captions response <> [])
  /\ (r_method response = lit "failed" <-> r_captions response = [])
  /\ (r_captions response = [] <->
      method = lit "whisper"
      /\ exists transcription,
           whisper = Return (Some transcription)
           /\ t_transcription transcription = Some []).
Proof.
  intros response.
  assert (Hlabel : r_method response
                   = if bool_decide (r_captions response = [])
                     then lit "failed" else lit "demo").
  { subst response. unfold generateCaptions.
    destruct (_ && genAI); [|destruct (bool_decide (method = _))];
      try destruct (transcribe_and_process _ _) as [[captions text]|e];
      apply respond_method. }
  assert (Hneq : lit "failed" <> lit "demo") by (vm_compute; discriminate).
  split; [|split].
  - rewrite Hlabel. case_bool_decide; split; intros; congruence.
  - rewrite Hlabel. case_bool_decide; split; intros; congruence.
  - split.
    2:{ intros (-> & t & -> & Hcpp). subst response. unfold generateCaptions.
        replace (bool_decide (lit "whisper" = lit "gemini")) with false
          by (symmetry; apply bool_decide_eq_false; vm_compute; discriminate).
        rewrite bool_decide_eq_true_2 by reflexivity. cbn [andb].
        unfold transcribe_and_process, processWhisperTranscription.
        cbn [mbind Res_bind deref]. rewrite Hcpp. reflexivity. }
    subst response. unfold generateCaptions.
    destruct (bool_decide (method = lit "gemini") && genAI).
    { destruct (transcribe_and_process _ _) as [[captions text]|e] eqn:Hrun.
      - apply transcribe_and_process_inv in Hrun as (t & _ & Hrun & _).
        cbn [respond r_captions]. intros ->. now apply processGemini_nonempty in Hrun.
      - intros H. now apply generateDemoCaptions_nonempty in H. }
    destruct (bool_decide_reflect (method = lit "whisper")) as [Hmethod|Hmethod].
    + destruct (transcribe_and_process _ _) as [[captions text]|e] eqn:Hrun.
      * apply transcribe_and_process_inv in Hrun as (t & Hw & Hrun & _).
        cbn [respond r_captions]. intros ->.
        apply processWhisper_empty in Hrun as (t' & [= <-] & Hcpp).
        split; [exact Hmethod|]. now exists t.
      * intros H. now apply generateDemoCaptions_nonempty in H.
    + intros H. now apply generateDemoCaptions_nonempty in H.
Qed.

(** X14. An answer of Gemini that is not JSON is still captioned: on the
    Gemini branch of the route, [transcribeWithGemini] turns the answer into
    one segment of ten seconds, and the response carries exactly one cue,
    with id 1, span [0, 10], the answer as text, and the pieces of the
    answer between single spaces as words, timed by the subdivision of the
    ten seconds in double precision; the transcription string is the
    answer, the label 'demo'. An answer that parses to [null] raises in the
    normalizer, and the response falls back to the demo captions. *)
Theorem gemini_plain_answer_is_one_cue (text : jsstring) (e : Exn) (whisper : Res Raw) :
  generateCaptions (lit "gemini") true
    (Return (geminiTranscription text (Throws e))) whisper
  = {| r_captions :=
         [ {| c_id := 1;
              c_start := Some (Num 0%Qc);
              c_end := Some (Num (of_Z 10));
              c_text := text;
              c_words := Some (rounded_subdivide 0%Qc (of_Z 10) (split_space text)) |} ];
       r_transcription := TextOf (Some text);
       r_method := lit "demo" |}
  /\ generateCaptions (lit "gemini") true
       (Return (geminiTranscription text (Return None))) whisper
     = {| r_captions := generateDemoCaptions;
          r_transcription := DemoAfterGeminiError TypeError;
          r_method := lit "demo" |}.
Proof.
  unfold generateCaptions. rewrite bool_decide_eq_true_2 by reflexivity.
  cbn [andb]. split.
  - unfold transcribe_and_process, geminiTranscription. cbn [mbind Res_bind].
    match goal with
    | |- context [processGeminiTranscription (Some ?t)] =>
        rewrite (processGemini_cues t (default [] (t_segments t)))
    end.
    + cbn [t_segments default from_option id imap s_start s_end s_text deref t_text].
      unfold id. rewrite imap_spread_word. reflexivity.
    + reflexivity.
    + discriminate.
    + intros seg [<-|[]]. discriminate.
  - cbn [geminiTranscription transcribe_and_process mbind Res_bind
         processGeminiTranscription deref].
    reflexivity.
Qed.

(** ** Presets *)

Lemma presetKey_cases (style : option jsstring) :
  presetKey style = lit "bottom-centered"
  \/ (style = Some (lit "top-bar") /\ presetKey style = lit "top-bar")
  \/ (style = Some karaoke /\ presetKey style = karaoke).
Proof.
  destruct style as [s|]; [|now left]. unfold presetKey.
  case_bool_decide as Hin; [|now left].
  unfold PRESET_KEYS in Hin. rewrite !elem_of_cons, elem_of_nil in Hin.
  destruct Hin as [->|[->|[->|[]]]]; auto.
Qed.

(** X15. How [CaptionRenderer] resolves the preset style. The resolved
    key is always a key of its style table; it is 'karaoke' exactly when
    the style is the string 'karaoke', which is also the only style for
    which [CaptionedVideo] looks up a current word, so the two components
    agree on when karaoke rendering applies. The presets of the upload page
    and of the captioning app carry the styles 'classic', 'bar' and
    'karaoke', of which the first two are no keys of the table: whatever
    preset is selected the caption is placed at the bottom, and every
    preset but 'karaoke' is rendered as 'bottom-centered' (the 'top-bar'
    styling is not reached from these presets). *)
Theorem preset_key_resolution (style : option jsstring) :
  presetKey style ∈ PRESET_KEYS
  /\ (presetKey style = karaoke <-> style = Some karaoke)
  /\ (forall interpolate actives t,
        presetKey style <> karaoke ->
        currentWordData interpolate style actives t = Return None)
  /\ (forall selectedPreset s,
        CAPTION_PRESETS_style selectedPreset = Some s ->
        stylePosition (presetKey (Some s)) = Some (lit "bottom")
        /\ (selectedPreset <> karaoke -> presetKey (Some s) = lit "bottom-centered")).
Proof.
  assert (Hk : presetKey style = karaoke <-> style = Some karaoke).
  { split; [|now intros ->].
    destruct (presetKey_cases style) as [H|[[_ H]|[H _]]]; [| |now intros _];
      rewrite H; intros Habs; vm_compute in Habs; discriminate. }
  split; [|split; [exact Hk|split]].
  - destruct (presetKey_cases style) as [->|[[_ ->]|[_ ->]]];
      unfold PRESET_KEYS, karaoke; rewrite !elem_of_cons; auto.
  - intros interpolate actives t Hstyle. unfold currentWordData.
    rewrite bool_decide_eq_false_2; [reflexivity|]. now rewrite <- Hk.
  - intros selectedPreset s H. unfold CAPTION_PRESETS_style in H.
    repeat case_bool_decide; try discriminate; injection H as <-;
      (split; [reflexivity|]); try reflexivity.
    now subst selectedPreset.
Qed.

(** ** Karaoke text *)

Lemma filter_eq_NoDup {A} `{EqDecision A} (x : A) (l : list A) :
  NoDup l -> In x l ->
  length (List.filter (fun y => bool_decide (y = x)) l) = 1.
Proof.
  induction 1 as [|y l Hy Hl IH]; intros Hin; [destruct Hin|].
  cbn [List.filter]. case_bool_decide as Hyx.
  - subst y. cbn [length]. f_equal.
    assert (Hnone : forall l', ~ x ∈ l' ->
              List.filter (fun y => bool_decide (y = x)) l' = []).
    { induction l' as [|z l' IH']; intros Hz; [reflexivity|].
      rewrite not_elem_of_cons in Hz. destruct Hz as [Hzx Hz].
      cbn [List.filter]. rewrite bool_decide_eq_false_2 by congruence. now apply IH'. }
    now rewrite Hnone.
  - destruct Hin as [->|Hin]; [contradiction|]. now apply IH.
Qed.

(** X16. Which words [renderKaraokeText] highlights. When [CaptionedVideo]
    reports a current word for the first active caption, the caption is
    drawn as one span per word, in order, and a span is highlighted exactly
    when its word has the text of the current word: the current word is
    highlighted, every other word of the same text is highlighted with it,
    and when the texts of the words are pairwise distinct exactly one span
    is. *)
Theorem karaoke_highlight_follows_word_text
    (interpolate : jsnum -> option jsnum -> option jsnum -> Res jsnum)
    (caption : Cue) (rest : list Cue) (t : jsnum) (data : WordData) :
  currentWordData interpolate (Some karaoke) (caption :: rest) t = Return (Some data) ->
  exists ws spans,
    c_words caption = Some ws
    /\ renderKaraokeText caption (Some data) = WordSpans spans
    /\ map fst spans = map w_word ws
    /\ In (w_word (wd_word data), true) spans
    /\ (forall w, In w ws ->
          (In (w_word w, true) spans <-> w_word w = w_word (wd_word data)))
    /\ (NoDup (map w_word ws) -> length (List.filter snd spans) = 1).
Proof.
  rewrite currentWordData_first.
  destruct (c_words caption) as [ws|] eqn:Hws; [|discriminate].
  destruct (List.find _ ws) as [w0|] eqn:Hfind; [|discriminate].
  destruct (interpolate _ _ _) as [progress|]; [|discriminate].
  cbn [mbind Res_bind]. intros [= <-]. cbn [wd_word].
  apply find_some in Hfind as [Hin _].
  exists ws, (map (fun word => (w_word word, bool_decide (w_word w0 = w_word word))) ws).
  assert (Hne : missing_or_empty (Some ws) = false) by now destruct ws.
  repeat apply conj.
  - reflexivity.
  - unfold renderKaraokeText. rewrite Hws, Hne. reflexivity.
  - rewrite map_map. reflexivity.
  - apply in_map_iff. exists w0. now rewrite bool_decide_eq_true_2.
  - intros w Hw. rewrite in_map_iff. split.
    + intros (w' & [= Htext Hflag] & _). apply bool_decide_eq_true_1 in Hflag. congruence.
    + intros Htext. exists w. now rewrite bool_decide_eq_true_2.
  - intros Hnodup.
    rewrite <- (filter_eq_NoDup (w_word w0) (map w_word ws) Hnodup (in_map w_word _ _ Hin)).
    clear. induction ws as [|w ws IH]; [reflexivity|].
    cbn [map List.filter snd].
    destruct (bool_decide_reflect (w_word w0 = w_word w)) as [H|H].
    + rewrite bool_decide_eq_true_2 by congruence. cbn [length]. now rewrite IH.
    + rewrite bool_decide_eq_false_2 by congruence. exact IH.
Qed.

Lemma karaoke_highlight_follows_word_text_witness :
  let one := timed_word (lit "one") (ratio 0 1) (ratio 2 1) in
  let two := timed_word (lit "two") (ratio 2 1) (ratio 4 1) in
  let caption := {| c_id := 1; c_start := Some (ratio 0 1); c_end := Some (ratio 4 1);
                    c_text := lit "one two"; c_words := Some [one; two] |} in
  let data := {| wd_word := one; wd_progress := Num 0%Qc |} in
  exists ws spans,
    c_words caption = Some ws
    /\ renderKaraokeText caption (Some data) = WordSpans spans
    /\ map fst spans = map w_word ws
    /\ In (w_word (wd_word data), true) spans
    /\ (forall w, In w ws ->
          (In (w_word w, true) spans <-> w_word w = w_word (wd_word data)))
    /\ (NoDup (map w_word ws) -> length (List.filter snd spans) = 1).
Proof.
  cbv zeta.
  apply (karaoke_highlight_follows_word_text (fun _ _ _ => Return (Num 0%Qc))
           _ [] (ratio 1 1)).
  reflexivity.
Defined.

(** ** The preview of the captioning app *)

(** X17. The [Player] of the captioning app is 300 frames long at 30
    frames per second, whatever the captions: on none of its frames (those
    before the 300th) is a caption active that starts at ten seconds or
    later. *)
Theorem player_never_reaches_late_captions (captions : list Cue) (c : Cue)
    (frame : Z) (s : Qc) :
  (frame < playerDurationInFrames)%Z ->
  c_start c = Some (Num s) ->
  (of_Z 10 <= s)%Qc ->
  ~ In c (activeCaptions captions (currentTimeOf frame playerFps)).
Proof.
  intros Hframe Hs Hlate Hactive.
  assert (Hfps : (0 < playerFps)%Qc) by (rewrite <- of_Z_0; now apply of_Z_lt).
  destruct (active_frame_bounds _ _ _ _ Hfps Hactive) as (s' & e & Es & _ & Hle & _).
  rewrite Hs in Es. injection Es as <-.
  apply (Qcmult_le_compat_r _ _ playerFps) in Hlate; [|now apply Qclt_le_weak].
  assert (H300 : (of_Z 10 * playerFps)%Qc = of_Z 300) by (apply Qc_is_canon; reflexivity).
  rewrite H300 in Hlate.
  pose proof (proj1 (of_Z_le _ _) (Qcle_trans _ _ _ Hlate Hle)) as H.
  unfold playerDurationInFrames in Hframe. lia.
Qed.

Lemma player_never_reaches_late_captions_witness :
  let c := {| c_id := 5; c_start := Some (Num (of_Z 12)); c_end := Some (Num (of_Z 15));
              c_text := lit "five"; c_words := None |} in
  ~ In c (activeCaptions [c] (currentTimeOf 299 playerFps)).
Proof.
  intros c. apply (player_never_reaches_late_captions [c] c 299 (of_Z 12)).
  - reflexivity.
  - reflexivity.
  - now apply of_Z_le.
Defined.
